(** * Jam Buddy: the turn-taking protocol of [script.js]

    A shallow embedding of [src/jam-buddy/script.js].  The script is a set of
    event handlers over a handful of global variables; the browser supplies an
    event loop, a timer queue ([setTimeout] / [clearTimeout]), the Tone.js
    synthesiser and the Magenta model.  Here

    - the globals and the browser-side queue are the fields of [State];
    - every handler is a function [State -> State], statement by statement;
    - one browser event is one [step]; a run is a list of events;
    - calls that leave the script (synth, model, status text, console) are
      appended to the [effects] trace, oldest first;
    - JavaScript numbers that hold counts, MIDI keys, steps and milliseconds
      are [Z]; numbers that hold seconds or a generated pitch are exact
      rationals [Q] (floating-point rounding is not modelled);
    - presentation (CSS classes, the dial) is left out, but the timers that
      the highlighting code creates are kept, since they share the timer ids. *)

From Stdlib Require Import ZArith QArith Qabs Qround Lia.
From stdpp Require Import base option list gmap strings.

Local Open Scope Z_scope.

(** ** Constant tables *)

Definition INACTIVITY_THRESHOLD : Z := 2000.

Definition NOTES : list string :=
  ["C4"; "C#4"; "D4"; "D#4"; "E4"; "F4"; "F#4"; "G4"; "G#4"; "A4"; "A#4"; "B4";
   "C5"; "C#5"; "D5"; "D#5"; "E5"; "F5"]%string.

Definition MIDI_NUMS : list Z :=
  [60; 61; 62; 63; 64; 65; 66; 67; 68; 69; 70; 71; 72; 73; 74; 75; 76; 77].

Definition KEY_MAP : gmap string nat :=
  list_to_map
    [("a", 0); ("w", 1); ("s", 2); ("e", 3); ("d", 4); ("f", 5); ("t", 6);
     ("g", 7); ("y", 8); ("h", 9); ("u", 10); ("j", 11); ("k", 12); ("o", 13);
     ("l", 14); ("p", 15); (";", 16); ("'", 17)]%string%nat.

(** ** Data *)

(** An entry of [userNotes], as pushed by [playNote]. *)
Record UserNote := {
  pitch : Z;
  startTime : Q;
  endTime : Q
}.

(** A note of the sequence built for Magenta in [triggerAIResponse]. *)
Record SeqNote := {
  seq_pitch : Z;
  seq_startTime : Q;
  seq_endTime : Q;
  velocity : Z
}.

Record NoteSequence := {
  notes : list SeqNote;
  totalTime : Q
}.

(** A note of the model's answer ([result.notes]). *)
Record GenNote := {
  gen_pitch : Q;
  quantizedStartStep : Z;
  quantizedEndStep : Z
}.

(** What a pending timer will run.  Each constructor is one of the closures
    the script hands to [setTimeout]. *)
Inductive Callback :=
| CbTriggerAI                                     (* triggerAIResponse *)
| CbPlayGenerated (note : GenNote) (durationSec : Q)  (* the per-note closure *)
| CbResetTurn                                     (* "Reset after playing" *)
| CbVisualClear (midi : Z)                        (* playNoteWithDuration *)
| CbRemoveClass (midi : Z).                       (* playNote with isAI *)

#[export] Instance Callback_is_trigger_dec (c : Callback) : Decision (c = CbTriggerAI).
Proof. destruct c; (left; reflexivity) || (right; discriminate). Defined.

#[export] Instance Callback_is_reset_dec (c : Callback) : Decision (c = CbResetTurn).
Proof. destruct c; (left; reflexivity) || (right; discriminate). Defined.

Record Timer := {
  timer_id : nat;
  armedAt : Z;          (* clock value at the call of setTimeout, in ms *)
  delay : Z;            (* the delay argument, in ms *)
  callback : Callback
}.

(** A timer is due [delay] ms after it was armed; a negative delay counts
    as zero. *)
Definition dueTime (t : Timer) : Z := armedAt t + Z.max 0 (delay t).

(** ** Pure parts of [triggerAIResponse] *)

(** [userNotes.map((n, i) => ({pitch, startTime: i * 0.5, endTime: (i + 1) * 0.5,
    velocity: 80}))] with [totalTime: userNotes.length * 0.5]. *)
Definition toSeqNote (i : nat) (n : UserNote) : SeqNote :=
  {| seq_pitch := pitch n;
     seq_startTime := inject_Z (Z.of_nat i) * (1 # 2);
     seq_endTime := inject_Z (Z.of_nat i + 1) * (1 # 2);
     velocity := 80 |}.

Definition unquantizedSequence (userNotes : list UserNote) : NoteSequence :=
  {| notes := imap toSeqNote userNotes;
     totalTime := inject_Z (Z.of_nat (length userNotes)) * (1 # 2) |}.

Definition msPerStep : Z := 125.

Definition startTimeMs (note : GenNote) : Z := quantizedStartStep note * msPerStep.
Definition endTimeMs (note : GenNote) : Z := quantizedEndStep note * msPerStep.
Definition durationMs (note : GenNote) : Z := endTimeMs note - startTimeMs note.
Definition durationSec (note : GenNote) : Q := inject_Z (durationMs note) / 1000.

(** The running maximum kept by the [forEach] loop:
    [if (endTimeMs > totalDuration) totalDuration = endTimeMs]. *)
Definition trackDuration (totalDuration : Z) (note : GenNote) : Z :=
  if totalDuration <? endTimeMs note then endTimeMs note else totalDuration.

Definition totalDuration (result : list GenNote) : Z := foldl trackDuration 0 result.

(** [Array.prototype.reduce] without an initial value: the first element
    seeds the accumulator; on an empty array it throws ([None]). *)
Definition reduce {A : Type} (f : A → A → A) (l : list A) : option A :=
  match l with
  | [] => None
  | x :: xs => Some (foldl f x xs)
  end.

Definition Qltb (x y : Q) : bool := negb (Qle_bool y x).

Definition dist (m : Z) (p : Q) : Q := Qabs (inject_Z m - p).

(** [(prev, curr) => Math.abs(curr - p) < Math.abs(prev - p) ? curr : prev] *)
Definition closer (p : Q) (prev curr : Z) : Z :=
  if Qltb (dist curr p) (dist prev p) then curr else prev.

Definition closestIn (l : list Z) (p : Q) : option Z := reduce (closer p) l.

Definition closestMidi (p : Q) : option Z := closestIn MIDI_NUMS p.

(** [Array.prototype.indexOf]; [None] stands for -1. *)
Definition indexOf (m : Z) (l : list Z) : option nat := fst <$> list_find (λ x, x = m) l.

(** The tables are concrete; keep [simpl] from scanning them. *)
Arguments closestMidi : simpl never.
Arguments indexOf : simpl never.
Arguments KEY_MAP : simpl never.

(** The rule the pitch mapping is meant to follow: [m] is the first entry of
    [l], in scanning order, at the least distance from [p]. *)
Definition firstClosest (l : list Z) (p : Q) (m : Z) : Prop :=
  ∃ i : nat, l !! i = Some m ∧
    ∀ (j : nat) (k : Z), l !! j = Some k →
      (dist m p <= dist k p)%Q ∧ (dist k p == dist m p → (i ≤ j)%nat).

(** A stand-in for Magenta's quantizer, used in the worked scenarios only:
    at the default tempo of 120 qpm, [stepsPerQuarter] steps per quarter are
    [2 * stepsPerQuarter] steps per second. *)
Definition exampleQuantizer (ns : NoteSequence) (stepsPerQuarter : Z)
  : option (list (Z * Z * Z)) :=
  let toStep (t : Q) := Qfloor (t * inject_Z (2 * stepsPerQuarter)) in
  Some ((λ n, (seq_pitch n, toStep (seq_startTime n), toStep (seq_endTime n))) <$> notes ns).

(** ** The state machine *)

Section JamBuddy.

(** Magenta's [mm.sequences.quantizeNoteSequence] is not part of the
    repository.  It is a parameter; [None] stands for an exception. *)
Context {QuantizedSequence : Type}.
Variable quantizeNoteSequence : NoteSequence → Z → option QuantizedSequence.

(** Calls that leave the script, in the order they are made.  A note name
    is [None] where the script would pass [undefined]. *)
Inductive Effect :=
| EffTriggerAttack (note : option string)
| EffTriggerRelease (note : option string)
| EffTriggerAttackRelease (note : option string) (duration : Q)
| EffTriggerAttackRelease8n (note : option string)
| EffContinueSequence (sequence : QuantizedSequence) (steps : Z) (temperature : Q)
| EffStatus (text : string)
| EffConsoleError.

Record State := {
  (* the script's variables *)
  aiEnabled : bool;
  isAIPlaying : bool;
  userNotes : list UserNote;
  inactivityTimer : option nat;    (* None: undefined *)
  activeNotes : list Z;            (* keys of the Map, in insertion order *)
  visualTimeouts : gmap Z nat;
  lastKeyPressed : option nat;     (* None: null *)
  (* the browser's side *)
  keyboardListening : bool;        (* keydown / keyup listeners installed *)
  awaitingModel : bool;            (* suspended at [await model.continueSequence] *)
  timers : list Timer;             (* pending timers, oldest first *)
  nextTimerId : nat;
  clock : Z;                       (* ms *)
  effects : list Effect
}.

Definition set_aiEnabled (v : bool) (s : State) : State :=
  {| aiEnabled := v; isAIPlaying := isAIPlaying s; userNotes := userNotes s; inactivityTimer := inactivityTimer s; activeNotes := activeNotes s; visualTimeouts := visualTimeouts s; lastKeyPressed := lastKeyPressed s; keyboardListening := keyboardListening s; awaitingModel := awaitingModel s; timers := timers s; nextTimerId := nextTimerId s; clock := clock s; effects := effects s |}.

Definition set_isAIPlaying (v : bool) (s : State) : State :=
  {| aiEnabled := aiEnabled s; isAIPlaying := v; userNotes := userNotes s; inactivityTimer := inactivityTimer s; activeNotes := activeNotes s; visualTimeouts := visualTimeouts s; lastKeyPressed := lastKeyPressed s; keyboardListening := keyboardListening s; awaitingModel := awaitingModel s; timers := timers s; nextTimerId := nextTimerId s; clock := clock s; effects := effects s |}.

Definition set_userNotes (v : list UserNote) (s : State) : State :=
  {| aiEnabled := aiEnabled s; isAIPlaying := isAIPlaying s; userNotes := v; inactivityTimer := inactivityTimer s; activeNotes := activeNotes s; visualTimeouts := visualTimeouts s; lastKeyPressed := lastKeyPressed s; keyboardListening := keyboardListening s; awaitingModel := awaitingModel s; timers := timers s; nextTimerId := nextTimerId s; clock := clock s; effects := effects s |}.

Definition set_inactivityTimer (v : option nat) (s : State) : State :=
  {| aiEnabled := aiEnabled s; isAIPlaying := isAIPlaying s; userNotes := userNotes s; inactivityTimer := v; activeNotes := activeNotes s; visualTimeouts := visualTimeouts s; lastKeyPressed := lastKeyPressed s; keyboardListening := keyboardListening s; awaitingModel := awaitingModel s; timers := timers s; nextTimerId := nextTimerId s; clock := clock s; effects := effects s |}.

Definition set_activeNotes (v : list Z) (s : State) : State :=
  {| aiEnabled := aiEnabled s; isAIPlaying := isAIPlaying s; userNotes := userNotes s; inactivityTimer := inactivityTimer s; activeNotes := v; visualTimeouts := visualTimeouts s; lastKeyPressed := lastKeyPressed s; keyboardListening := keyboardListening s; awaitingModel := awaitingModel s; timers := timers s; nextTimerId := nextTimerId s; clock := clock s; effects := effects s |}.

Definition set_visualTimeouts (v : gmap Z nat) (s : State) : State :=
  {| aiEnabled := aiEnabled s; isAIPlaying := isAIPlaying s; userNotes := userNotes s; inactivityTimer := inactivityTimer s; activeNotes := activeNotes s; visualTimeouts := v; lastKeyPressed := lastKeyPressed s; keyboardListening := keyboardListening s; awaitingModel := awaitingModel s; timers := timers s; nextTimerId := nextTimerId s; clock := clock s; effects := effects s |}.

Definition set_lastKeyPressed (v : option nat) (s : State) : State :=
  {| aiEnabled := aiEnabled s; isAIPlaying := isAIPlaying s; userNotes := userNotes s; inactivityTimer := inactivityTimer s; activeNotes := activeNotes s; visualTimeouts := visualTimeouts s; lastKeyPressed := v; keyboardListening := keyboardListening s; awaitingModel := awaitingModel s; timers := timers s; nextTimerId := nextTimerId s; clock := clock s; effects := effects s |}.

Definition set_keyboardListening (v : bool) (s : State) : State :=
  {| aiEnabled := aiEnabled s; isAIPlaying := isAIPlaying s; userNotes := userNotes s; inactivityTimer := inactivityTimer s; activeNotes := activeNotes s; visualTimeouts := visualTimeouts s; lastKeyPressed := lastKeyPressed s; keyboardListening := v; awaitingModel := awaitingModel s; timers := timers s; nextTimerId := nextTimerId s; clock := clock s; effects := effects s |}.

Definition set_awaitingModel (v : bool) (s : State) : State :=
  {| aiEnabled := aiEnabled s; isAIPlaying := isAIPlaying s; userNotes := userNotes s; inactivityTimer := inactivityTimer s; activeNotes := activeNotes s; visualTimeouts := visualTimeouts s; lastKeyPressed := lastKeyPressed s; keyboardListening := keyboardListening s; awaitingModel := v; timers := timers s; nextTimerId := nextTimerId s; clock := clock s; effects := effects s |}.

Definition set_timers (v : list Timer) (s : State) : State :=
  {| aiEnabled := aiEnabled s; isAIPlaying := isAIPlaying s; userNotes := userNotes s; inactivityTimer := inactivityTimer s; activeNotes := activeNotes s; visualTimeouts := visualTimeouts s; lastKeyPressed := lastKeyPressed s; keyboardListening := keyboardListening s; awaitingModel := awaitingModel s; timers := v; nextTimerId := nextTimerId s; clock := clock s; effects := effects s |}.

Definition set_nextTimerId (v : nat) (s : State) : State :=
  {| aiEnabled := aiEnabled s; isAIPlaying := isAIPlaying s; userNotes := userNotes s; inactivityTimer := inactivityTimer s; activeNotes := activeNotes s; visualTimeouts := visualTimeouts s; lastKeyPressed := lastKeyPressed s; keyboardListening := keyboardListening s; awaitingModel := awaitingModel s; timers := timers s; nextTimerId := v; clock := clock s; effects := effects s |}.

Definition set_clock (v : Z) (s : State) : State :=
  {| aiEnabled := aiEnabled s; isAIPlaying := isAIPlaying s; userNotes := userNotes s; inactivityTimer := inactivityTimer s; activeNotes := activeNotes s; visualTimeouts := visualTimeouts s; lastKeyPressed := lastKeyPressed s; keyboardListening := keyboardListening s; awaitingModel := awaitingModel s; timers := timers s; nextTimerId := nextTimerId s; clock := v; effects := effects s |}.

Definition set_effects (v : list Effect) (s : State) : State :=
  {| aiEnabled := aiEnabled s; isAIPlaying := isAIPlaying s; userNotes := userNotes s; inactivityTimer := inactivityTimer s; activeNotes := activeNotes s; visualTimeouts := visualTimeouts s; lastKeyPressed := lastKeyPressed s; keyboardListening := keyboardListening s; awaitingModel := awaitingModel s; timers := timers s; nextTimerId := nextTimerId s; clock := clock s; effects := v |}.

(** The page once the start button has been handled: keys created, keyboard
    listeners installed, nothing played yet. *)
Definition initial : State :=
  {| aiEnabled := true; isAIPlaying := false; userNotes := [];
     inactivityTimer := None; activeNotes := []; visualTimeouts := ∅;
     lastKeyPressed := None; keyboardListening := true; awaitingModel := false;
     timers := []; nextTimerId := 1; clock := 0; effects := [] |}.

(** *** Browser primitives *)

Definition emit (e : Effect) (s : State) : State := set_effects (effects s ++ [e]) s.

Definition setStatus (text : string) (s : State) : State := emit (EffStatus text) s.

Definition setTimeout (cb : Callback) (ms : Z) (s : State) : nat * State :=
  let id := nextTimerId s in
  let t := {| timer_id := id; armedAt := clock s; delay := ms; callback := cb |} in
  (id, set_nextTimerId (S id) (set_timers (timers s ++ [t]) s)).

(** [clearTimeout(undefined)] and [clearTimeout] of an id that is no longer
    pending do nothing. *)
Definition clearTimeout (id : option nat) (s : State) : State :=
  match id with
  | None => s
  | Some i => set_timers (filter (λ t, timer_id t ≠ i) (timers s)) s
  end.

(** [inactivityTimer = setTimeout(triggerAIResponse, INACTIVITY_THRESHOLD)] *)
Definition armInactivityTimer (s : State) : State :=
  let '(id, s) := setTimeout CbTriggerAI INACTIVITY_THRESHOLD s in
  set_inactivityTimer (Some id) s.

(** *** Handlers *)

(** The test of the enabling branch:
    [activeNotes.size === 0 && userNotes.length > 0]. *)
Definition canArmOnEnable (s : State) : bool :=
  (length (activeNotes s) =? 0)%nat && (0 <? length (userNotes s))%nat.

(** The [change] listener of the toggle; [checked] is [aiToggle.checked]. *)
Definition aiToggle_change (checked : bool) (s : State) : State :=
  let s := set_aiEnabled checked s in
  if negb (aiEnabled s) then
    let s := clearTimeout (inactivityTimer s) s in
    setStatus (if isAIPlaying s
               then "AI will finish this reply, then stay OFF."
               else "AI is OFF. Play freely") s
  else
    let s := set_userNotes [] s in
    let s := setStatus "AI is ON. Play a melody then wait for the AI to respond." s in
    if canArmOnEnable s then
      let s := clearTimeout (inactivityTimer s) s in
      armInactivityTimer s
    else s.

(** [playNote(index, isAI = false)]; [now1] and [now2] are the two readings
    of [Tone.now()].  Every caller passes the index of an existing key
    (an index of [NOTES.forEach] or a value of [KEY_MAP]); for any other
    index the model leaves the state alone. *)
Definition playNote (index : nat) (isAI : bool) (now1 now2 : Q) (s : State) : State :=
  if negb isAI && isAIPlaying s then s else
  match MIDI_NUMS !! index with
  | None => s
  | Some midi =>
    let note := NOTES !! index in
    let s :=
      if isAI then emit (EffTriggerAttackRelease8n note) s
      else if bool_decide (midi ∈ activeNotes s) then s
      else set_activeNotes (activeNotes s ++ [midi]) (emit (EffTriggerAttack note) s) in
    let s := if isAI then (setTimeout (CbRemoveClass midi) 200 s).2 else s in
    if negb isAI then
      let s := clearTimeout (inactivityTimer s) s in
      set_userNotes
        (userNotes s ++ [{| pitch := midi; startTime := now1; endTime := now2 + (1 # 2) |}]) s
    else s
  end.

(** [playNoteWithDuration(index, durationSec)].  The key's element exists
    exactly when [MIDI_NUMS[index]] does. *)
Definition playNoteWithDuration (index : nat) (durationSec : Q) (s : State) : State :=
  let note := NOTES !! index in
  let s := emit (EffTriggerAttackRelease note durationSec) s in
  match MIDI_NUMS !! index with
  | None => s
  | Some midi =>
    let s := match visualTimeouts s !! midi with
             | Some old => clearTimeout (Some old) s
             | None => s
             end in
    let '(timeoutId, s) := setTimeout (CbVisualClear midi) (Qfloor (durationSec * 1000)) s in
    set_visualTimeouts (<[midi := timeoutId]> (visualTimeouts s)) s
  end.

(** [releaseNote(index)]; [None] is [null] (from [lastKeyPressed]), and an
    index outside the table reads [undefined] just the same. *)
Definition releaseNote (index : option nat) (s : State) : State :=
  if isAIPlaying s then s else
  let midi := index ≫= (MIDI_NUMS !!.) in
  let note := index ≫= (NOTES !!.) in
  let s :=
    match midi with
    | Some m =>
      if bool_decide (m ∈ activeNotes s)
      then set_activeNotes (filter (λ k, k ≠ m) (activeNotes s)) (emit (EffTriggerRelease note) s)
      else s
    | None => s
    end in
  if (length (activeNotes s) =? 0)%nat && aiEnabled s then
    let s := clearTimeout (inactivityTimer s) s in
    armInactivityTimer s
  else s.

Definition releaseAll (s : State) : State :=
  foldl (λ s midi, emit (EffTriggerRelease (indexOf midi MIDI_NUMS ≫= (NOTES !!.))) s)
        s (activeNotes s).

Definition disableKeyboard (s : State) : State :=
  let s := set_keyboardListening false s in
  let s := releaseAll s in
  set_activeNotes [] s.

Definition enableKeyboard (s : State) : State := set_keyboardListening true s.

Definition handleKeyDown (key : string) (repeat : bool) (now1 now2 : Q) (s : State) : State :=
  match KEY_MAP !! key with
  | Some index => if negb repeat then playNote index false now1 now2 s else s
  | None => s
  end.

Definition handleKeyUp (key : string) (s : State) : State :=
  match KEY_MAP !! key with
  | Some index => releaseNote (Some index) s
  | None => s
  end.

(** The [catch] block. *)
Definition catchAIError (s : State) : State :=
  let s := emit EffConsoleError s in
  let s := set_isAIPlaying false s in
  let s := set_userNotes [] s in
  let s := enableKeyboard s in
  setStatus "AI encountered an error. Try again!" s.

(** [triggerAIResponse] up to its [await]. *)
Definition triggerAIResponse (s : State) : State :=
  if negb (aiEnabled s) || (length (userNotes s) =? 0)%nat || isAIPlaying s then s else
  let s := set_isAIPlaying true s in
  let s := disableKeyboard s in
  let s := setStatus "AI is listening and jamming back..." s in
  let unquantized := unquantizedSequence (userNotes s) in
  match quantizeNoteSequence unquantized 4 with
  | None => catchAIError s
  | Some quantizedSequence =>
    let s := emit (EffContinueSequence quantizedSequence 50 (11 # 10)) s in
    set_awaitingModel true s
  end.

(** One round of [result.notes.forEach]: the timer for the note. *)
Definition scheduleNote (s : State) (note : GenNote) : State :=
  (setTimeout (CbPlayGenerated note (durationSec note)) (startTimeMs note) s).2.

(** [triggerAIResponse] after its [await], when the promise is fulfilled. *)
Definition resumeWithResult (result : list GenNote) (s : State) : State :=
  let s := set_awaitingModel false s in
  let s := foldl scheduleNote s result in
  (setTimeout CbResetTurn (totalDuration result + 500) s).2.

(** [triggerAIResponse] after its [await], when the promise is rejected. *)
Definition resumeWithError (s : State) : State :=
  catchAIError (set_awaitingModel false s).

(** The closure scheduled for each generated note. *)
Definition playGenerated (note : GenNote) (durationSec : Q) (s : State) : State :=
  match closestMidi (gen_pitch note) with
  | None => s
  | Some closest =>
    match indexOf closest MIDI_NUMS with
    | Some index => playNoteWithDuration index durationSec s
    | None => s
    end
  end.

(** The closure that ends the AI turn. *)
Definition resetTurn (s : State) : State :=
  let s := set_userNotes [] s in
  let s := set_isAIPlaying false s in
  let s := enableKeyboard s in
  setStatus (if aiEnabled s then "Your turn! Play something."
             else "AI is OFF. Play freely—no AI replies.") s.

Definition runCallback (cb : Callback) (s : State) : State :=
  match cb with
  | CbTriggerAI => triggerAIResponse s
  | CbPlayGenerated note durationSec => playGenerated note durationSec s
  | CbResetTurn => resetTurn s
  | CbVisualClear midi => set_visualTimeouts (delete midi (visualTimeouts s)) s
  | CbRemoveClass _ => s
  end.

(** *** Events *)

Inductive Event :=
| EvKeyDown (key : string) (repeat : bool) (now1 now2 : Q)
| EvKeyUp (key : string)
| EvPointerDown (index : nat) (now1 now2 : Q)        (* on a key *)
| EvPointerEnter (index : nat) (buttons : bool) (now1 now2 : Q)
| EvPointerUp (index : nat)                          (* on a key *)
| EvWindowPointerUp                                  (* outside the keys *)
| EvToggleChange (checked : bool)
| EvTimer (id : nat)                                 (* a pending timer runs *)
| EvModelResolve (result : list GenNote)
| EvModelReject
| EvElapse (ms : N).

Definition isKey (index : nat) : bool := (index <? length NOTES)%nat.

Definition findTimer (id : nat) (s : State) : option Timer :=
  snd <$> list_find (λ t, timer_id t = id) (timers s).

Definition step (e : Event) (s : State) : State :=
  match e with
  | EvKeyDown key repeat now1 now2 =>
    if keyboardListening s then handleKeyDown key repeat now1 now2 s else s
  | EvKeyUp key =>
    if keyboardListening s then handleKeyUp key s else s
  | EvPointerDown index now1 now2 =>
    if isKey index then
      playNote index false now1 now2 (set_lastKeyPressed (Some index) s)
    else s
  | EvPointerEnter index buttons now1 now2 =>
    if isKey index && buttons then
      let s := releaseNote (lastKeyPressed s) s in
      let s := set_lastKeyPressed (Some index) s in
      playNote index false now1 now2 s
    else s
  | EvPointerUp index =>
    if isKey index then
      set_lastKeyPressed None (releaseNote (Some index) s)
    else s
  | EvWindowPointerUp =>
    match lastKeyPressed s with
    | Some index => set_lastKeyPressed None (releaseNote (Some index) s)
    | None => s
    end
  | EvToggleChange checked => aiToggle_change checked s
  | EvTimer id =>
    match findTimer id s with
    | Some t =>
      if dueTime t <=? clock s
      then runCallback (callback t) (clearTimeout (Some id) s)
      else s
    | None => s
    end
  | EvModelResolve result =>
    if awaitingModel s then resumeWithResult result s else s
  | EvModelReject =>
    if awaitingModel s then resumeWithError s else s
  | EvElapse ms => set_clock (clock s + Z.of_N ms) s
  end.

Definition run (es : list Event) (s : State) : State := foldl (λ s e, step e s) s es.

Inductive reachable : State → Prop :=
| reachable_initial : reachable initial
| reachable_step e s : reachable s → reachable (step e s).


(** ** Properties of the pure parts *)

Lemma Qltb_lt (x y : Q) : Qltb x y = true ↔ (x < y)%Q.
Proof.
  unfold Qltb. rewrite negb_true_iff. split.
  - intros H. apply Qnot_le_lt. intros Hle.
    apply Qle_bool_iff in Hle. congruence.
  - intros H. destruct (Qle_bool y x) eqn:E; [|reflexivity].
    apply Qle_bool_iff in E. exfalso. exact (Qlt_not_le _ _ H E).
Qed.

Lemma Qltb_ge (x y : Q) : Qltb x y = false ↔ (y <= x)%Q.
Proof.
  unfold Qltb. rewrite negb_false_iff. apply Qle_bool_iff.
Qed.

(** The scan keeps the first closest entry seen so far. *)
Lemma closer_scan (p : Q) (xs pre : list Z) (acc : Z) :
  firstClosest pre p acc →
  firstClosest (pre ++ xs) p (foldl (closer p) acc xs).
Proof.
  revert pre acc. induction xs as [|x xs IH]; intros pre acc Hacc; simpl.
  - rewrite app_nil_r. exact Hacc.
  - replace (pre ++ x :: xs) with ((pre ++ [x]) ++ xs)
      by (rewrite <- app_assoc; reflexivity).
    apply IH. destruct Hacc as (i & Hi & Hmin).
    assert (Hlt : (i < length pre)%nat) by (eapply lookup_lt_Some; eauto).
    unfold closer. destruct (Qltb (dist x p) (dist acc p)) eqn:E.
    + apply Qltb_lt in E. exists (length pre). split.
      { rewrite lookup_app_r by lia. rewrite Nat.sub_diag. reflexivity. }
      intros j k Hj. destruct (decide (j < length pre)%nat) as [Hin|Hout].
      * rewrite lookup_app_l in Hj by exact Hin.
        destruct (Hmin j k Hj) as [Hle _]. split.
        -- apply Qlt_le_weak. eapply Qlt_le_trans; eauto.
        -- intros Heq. exfalso. rewrite Heq in Hle.
           exact (Qlt_not_le _ _ E Hle).
      * split; [|intros _; lia].
        rewrite lookup_app_r in Hj by lia.
        destruct (j - length pre)%nat; simpl in Hj; [|discriminate].
        injection Hj as <-. apply Qle_refl.
    + apply Qltb_ge in E. exists i. split.
      { rewrite lookup_app_l by exact Hlt. exact Hi. }
      intros j k Hj. destruct (decide (j < length pre)%nat) as [Hin|Hout].
      * rewrite lookup_app_l in Hj by exact Hin. exact (Hmin j k Hj).
      * rewrite lookup_app_r in Hj by lia.
        destruct (j - length pre)%nat; simpl in Hj; [|discriminate].
        injection Hj as <-. split; [exact E | intros _; lia].
Qed.

Lemma closestIn_firstClosest (l : list Z) (p : Q) (m : Z) :
  closestIn l p = Some m → firstClosest l p m.
Proof.
  destruct l as [|x xs]; [discriminate|].
  unfold closestIn; simpl. intros [= <-].
  apply (closer_scan p xs [x] x).
  exists 0%nat. split; [reflexivity|].
  intros [|j] k Hj; simpl in Hj; [|discriminate].
  injection Hj as <-. split; [apply Qle_refl | intros _; lia].
Qed.

Lemma closestIn_total (l : list Z) (p : Q) : l ≠ [] → is_Some (closestIn l p).
Proof. destruct l; [congruence | intros _; eexists; reflexivity]. Qed.

(** [MIDI_NUMS] is the chromatic run starting at 60. *)
Lemma MIDI_NUMS_lookup (i : nat) (k : Z) :
  MIDI_NUMS !! i = Some k ↔ (i < 18)%nat ∧ k = 60 + Z.of_nat i.
Proof.
  split.
  - intros H. do 18 (destruct i as [|i]; [injection H as <-; split; [lia|reflexivity]|]).
    discriminate.
  - intros [Hi ->]. do 18 (destruct i as [|i]; [reflexivity|]). lia.
Qed.

Lemma MIDI_NUMS_elem (k : Z) : k ∈ MIDI_NUMS ↔ 60 ≤ k ≤ 77.
Proof.
  rewrite list_elem_of_lookup. split.
  - intros [i Hi]. apply MIDI_NUMS_lookup in Hi. lia.
  - intros Hk. exists (Z.to_nat (k - 60)). apply MIDI_NUMS_lookup. lia.
Qed.

Lemma NOTES_lookup (i : nat) : (i < 18)%nat → is_Some (NOTES !! i).
Proof. intros Hi. apply lookup_lt_is_Some. exact Hi. Qed.

Lemma indexOf_MIDI_NUMS (i : nat) (k : Z) :
  MIDI_NUMS !! i = Some k → indexOf k MIDI_NUMS = Some i.
Proof.
  intros H. apply MIDI_NUMS_lookup in H as [Hi ->].
  do 18 (destruct i as [|i]; [reflexivity|]). lia.
Qed.

Lemma trackDuration_max (acc : Z) (note : GenNote) :
  trackDuration acc note = Z.max acc (endTimeMs note).
Proof. unfold trackDuration. destruct (Z.ltb_spec acc (endTimeMs note)); lia. Qed.

Lemma trackDuration_fold (result : list GenNote) (acc : Z) :
  let total := foldl trackDuration acc result in
  acc ≤ total ∧
  (∀ note, note ∈ result → endTimeMs note ≤ total) ∧
  (total = acc ∨ ∃ note, note ∈ result ∧ total = endTimeMs note).
Proof.
  revert acc. induction result as [|n result IH]; intros acc; simpl.
  - split; [lia|]. split; [|left; reflexivity].
    intros note H. inversion H.
  - destruct (IH (trackDuration acc n)) as (Hge & Hall & Hwit).
    rewrite trackDuration_max in *. split; [lia|]. split.
    + intros note H. apply elem_of_cons in H as [->|H]; [lia|auto].
    + destruct Hwit as [Heq|(note & Hin & Heq)].
      * destruct (Z.max_spec acc (endTimeMs n)) as [[_ Hm]|[_ Hm]].
        -- right. exists n. split; [left|lia].
        -- left. lia.
      * right. exists note. split; [right; exact Hin|exact Heq].
Qed.

Lemma unquantizedSequence_lookup (buffer : list UserNote) (i : nat) :
  notes (unquantizedSequence buffer) !! i = toSeqNote i <$> buffer !! i.
Proof. unfold unquantizedSequence; simpl. apply list_lookup_imap. Qed.

Lemma durationSec_spec (note : GenNote) :
  (durationSec note ==
   inject_Z ((quantizedEndStep note - quantizedStartStep note) * 125) / 1000)%Q.
Proof.
  unfold durationSec, durationMs, endTimeMs, startTimeMs, msPerStep.
  replace (quantizedEndStep note * 125 - quantizedStartStep note * 125)
    with ((quantizedEndStep note - quantizedStartStep note) * 125) by lia.
  reflexivity.
Qed.

(** ** Properties of the handlers *)

(** The timers created by [result.notes.forEach], when the first free id is
    [firstId] and the clock reads [now]. *)
Definition playbackTimers (firstId : nat) (now : Z) (result : list GenNote) : list Timer :=
  imap (λ i note, {| timer_id := firstId + i; armedAt := now;
                     delay := startTimeMs note;
                     callback := CbPlayGenerated note (durationSec note) |}) result.

Lemma scheduleNote_fold (result : list GenNote) (s : State) :
  foldl scheduleNote s result =
  set_nextTimerId (nextTimerId s + length result)
    (set_timers (timers s ++ playbackTimers (nextTimerId s) (clock s) result) s).
Proof.
  revert s. induction result as [|n result IH]; intros s.
  - destruct s; unfold set_nextTimerId, set_timers, playbackTimers; simpl.
    rewrite app_nil_r, Nat.add_0_r. reflexivity.
  - simpl. rewrite IH. destruct s.
    unfold scheduleNote, setTimeout, set_nextTimerId, set_timers, playbackTimers; simpl.
    rewrite <- app_assoc, Nat.add_0_r. simpl.
    f_equal; [|lia]. do 2 f_equal.
    apply imap_ext. intros i x _. simpl. f_equal. lia.
Qed.

Lemma resumeWithResult_eq (result : list GenNote) (s : State) :
  resumeWithResult result s =
  set_nextTimerId (S (nextTimerId s + length result))
    (set_timers
       (timers s ++ playbackTimers (nextTimerId s) (clock s) result ++
        [{| timer_id := nextTimerId s + length result; armedAt := clock s;
            delay := totalDuration result + 500; callback := CbResetTurn |}])
       (set_awaitingModel false s)).
Proof.
  unfold resumeWithResult. rewrite scheduleNote_fold. destruct s.
  unfold setTimeout, set_nextTimerId, set_timers, set_awaitingModel; simpl.
  rewrite <- app_assoc. reflexivity.
Qed.

Definition releaseOf (midi : Z) : Effect :=
  EffTriggerRelease (indexOf midi MIDI_NUMS ≫= (NOTES !!.)).

Lemma releaseAll_eq (s : State) :
  releaseAll s = set_effects (effects s ++ (releaseOf <$> activeNotes s)) s.
Proof.
  unfold releaseAll. generalize (activeNotes s) as l. intros l. revert s.
  induction l as [|m l IH]; intros s; simpl.
  - destruct s; unfold set_effects; simpl. rewrite app_nil_r. reflexivity.
  - rewrite IH. destruct s; unfold emit, set_effects; simpl.
    rewrite <- app_assoc. reflexivity.
Qed.

(** Pending timers by kind. *)
Definition triggers (ts : list Timer) : list Timer :=
  filter (λ t, callback t = CbTriggerAI) ts.

Definition resets (ts : list Timer) : list Timer :=
  filter (λ t, callback t = CbResetTurn) ts.

(** AI turns under way: one for a model call that has not answered, one for
    every pending end-of-turn timer. *)
Definition turnsInFlight (s : State) : nat :=
  ((if awaitingModel s then 1 else 0) + length (resets (timers s)))%nat.

(** Model calls made so far, and AI turns started so far. *)
Definition isModelCall (e : Effect) : bool :=
  match e with EffContinueSequence _ _ _ => true | _ => false end.

Definition isTurnStart (e : Effect) : bool :=
  match e with
  | EffStatus text => String.eqb text "AI is listening and jamming back..."
  | _ => false
  end.

Definition modelCalls (s : State) : nat := length (filter isModelCall (effects s)).
Definition turnsStarted (s : State) : nat := length (filter isTurnStart (effects s)).

(** What holds in every state the page can be in. *)
Record Inv (s : State) : Prop := {
  inv_fresh : ∀ t, t ∈ timers s → (timer_id t < nextTimerId s)%nat;
  inv_same_id : ∀ t1 t2, t1 ∈ timers s → t2 ∈ timers s →
                timer_id t1 = timer_id t2 → t1 = t2;
  inv_trigger : ∀ t, t ∈ timers s →
                (callback t = CbTriggerAI ↔ inactivityTimer s = Some (timer_id t));
  inv_inactivity : ∀ i, inactivityTimer s = Some i → (i < nextTimerId s)%nat;
  inv_one_trigger : (length (triggers (timers s)) ≤ 1)%nat;
  inv_visual : ∀ m i, visualTimeouts s !! m = Some i →
               (i < nextTimerId s)%nat ∧
               ∀ t, t ∈ timers s → timer_id t = i → callback t = CbVisualClear m;
  inv_turn : turnsInFlight s = if isAIPlaying s then 1%nat else 0%nat;
  inv_active : isAIPlaying s = true → activeNotes s = [];
  inv_midi : ∀ m, m ∈ activeNotes s → m ∈ MIDI_NUMS;
  inv_keyboard : keyboardListening s = negb (isAIPlaying s);
  inv_disabled : aiEnabled s = false → triggers (timers s) = []
}.

Lemma filter_absorb {A : Type} (P Q : A → Prop)
    `{!∀ x, Decision (P x)} `{!∀ x, Decision (Q x)} (l : list A) :
  (∀ x, x ∈ l → P x → Q x) → filter P (filter Q l) = filter P l.
Proof.
  induction l as [|x l IH]; intros Himp; [reflexivity|].
  assert (IH' : filter P (filter Q l) = filter P l).
  { apply IH. intros y Hy. apply Himp. right. exact Hy. }
  rewrite (filter_cons Q). destruct (decide (Q x)) as [Hq|Hq].
  - rewrite !(filter_cons P). destruct (decide (P x)); rewrite IH'; reflexivity.
  - rewrite IH'. rewrite (filter_cons P). destruct (decide (P x)) as [Hp|Hp]; [|reflexivity].
    exfalso. apply Hq, Himp; [left|exact Hp].
Qed.

Lemma filter_nil_iff {A : Type} (P : A → Prop) `{!∀ x, Decision (P x)} (l : list A) :
  filter P l = [] ↔ ∀ x, x ∈ l → ¬ P x.
Proof.
  split.
  - intros Hnil x Hx Hp.
    assert (Hin : x ∈ filter P l) by (apply list_elem_of_filter; auto).
    rewrite Hnil in Hin. inversion Hin.
  - intros Hall. destruct (filter P l) as [|y k] eqn:E; [reflexivity|].
    assert (Hin : y ∈ filter P l) by (rewrite E; left).
    apply list_elem_of_filter in Hin as [Hp Hy]. exfalso. exact (Hall y Hy Hp).
Qed.

Lemma filter_comm {A : Type} (P Q : A → Prop)
    `{!∀ x, Decision (P x)} `{!∀ x, Decision (Q x)} (l : list A) :
  filter P (filter Q l) = filter Q (filter P l).
Proof.
  induction l as [|x l IH]; [reflexivity|].
  rewrite (filter_cons Q), (filter_cons P).
  destruct (decide (Q x)), (decide (P x));
    rewrite ?(filter_cons P), ?(filter_cons Q);
    repeat (destruct (decide _); try contradiction); rewrite IH; reflexivity.
Qed.

(** [Inv] reads only some of the fields. *)
Lemma Inv_frame (s s' : State) :
  timers s' = timers s → nextTimerId s' = nextTimerId s →
  inactivityTimer s' = inactivityTimer s → visualTimeouts s' = visualTimeouts s →
  awaitingModel s' = awaitingModel s → isAIPlaying s' = isAIPlaying s →
  activeNotes s' = activeNotes s → keyboardListening s' = keyboardListening s →
  aiEnabled s' = aiEnabled s → Inv s → Inv s'.
Proof.
  intros E1 E2 E3 E4 E5 E6 E7 E8 E9 [].
  constructor; unfold turnsInFlight in *;
    rewrite ?E1, ?E2, ?E3, ?E4, ?E5, ?E6, ?E7, ?E8, ?E9; assumption.
Qed.

Lemma Inv_emit (e : Effect) (s : State) : Inv s → Inv (emit e s).
Proof. apply Inv_frame; reflexivity. Qed.

Lemma Inv_set_userNotes (v : list UserNote) (s : State) : Inv s → Inv (set_userNotes v s).
Proof. apply Inv_frame; reflexivity. Qed.

Lemma Inv_set_lastKeyPressed (v : option nat) (s : State) :
  Inv s → Inv (set_lastKeyPressed v s).
Proof. apply Inv_frame; reflexivity. Qed.

Lemma Inv_set_clock (v : Z) (s : State) : Inv s → Inv (set_clock v s).
Proof. apply Inv_frame; reflexivity. Qed.

Lemma Inv_initial : Inv initial.
Proof.
  constructor; simpl; try reflexivity; try discriminate;
    try (intros; match goal with H : _ ∈ [] |- _ => inversion H end).
  lia.
Qed.

Lemma Inv_clearTimeout (i : nat) (s : State) :
  Inv s →
  (∀ t, t ∈ timers s → timer_id t = i → callback t ≠ CbResetTurn) →
  Inv (clearTimeout (Some i) s).
Proof.
  intros [] Hnot. constructor; simpl; try assumption.
  - intros t Ht. apply list_elem_of_filter in Ht as [_ Ht]. auto.
  - intros t1 t2 H1 H2. apply list_elem_of_filter in H1 as [_ H1].
    apply list_elem_of_filter in H2 as [_ H2]. auto.
  - intros t Ht. apply list_elem_of_filter in Ht as [_ Ht]. auto.
  - unfold triggers in *. rewrite filter_comm.
    etransitivity; [apply length_filter|assumption].
  - intros m j Hm. destruct (inv_visual0 m j Hm) as [Hlt Hcb]. split; [exact Hlt|].
    intros t Ht. apply list_elem_of_filter in Ht as [_ Ht]. auto.
  - unfold turnsInFlight in *; simpl. unfold resets in *.
    rewrite filter_absorb; [assumption|].
    intros t Ht Hr Hid. exact (Hnot t Ht Hid Hr).
  - intros Hoff. unfold triggers in *. rewrite filter_comm, inv_disabled0 by exact Hoff.
    reflexivity.
Qed.

(** [clearTimeout(inactivityTimer)] leaves no pending inactivity timer. *)
Lemma clear_inactivity (s : State) :
  Inv s →
  Inv (clearTimeout (inactivityTimer s) s) ∧
  triggers (timers (clearTimeout (inactivityTimer s) s)) = [].
Proof.
  intros HI. destruct (inactivityTimer s) as [i|] eqn:E; simpl.
  - split.
    + apply Inv_clearTimeout; [exact HI|].
      intros t Ht Hid. destruct (inv_trigger s HI t Ht) as [_ Hcb].
      rewrite Hcb by (rewrite E, Hid; reflexivity). discriminate.
    + apply filter_nil_iff. intros t Ht Hcb.
      apply list_elem_of_filter in Ht as [Hne Ht].
      apply (inv_trigger s HI t Ht) in Hcb. rewrite E in Hcb.
      injection Hcb as ->. apply Hne. reflexivity.
  - split; [exact HI|]. apply filter_nil_iff. intros t Ht Hcb.
    apply (inv_trigger s HI t Ht) in Hcb. congruence.
Qed.

Lemma Inv_setTimeout (cb : Callback) (ms : Z) (s : State) :
  Inv s → cb ≠ CbTriggerAI → cb ≠ CbResetTurn → Inv (setTimeout cb ms s).2.
Proof.
  intros [] Hnt Hnr. constructor; simpl; try assumption.
  - intros t Ht. apply elem_of_app in Ht as [Ht|Ht].
    + apply inv_fresh0 in Ht. lia.
    + apply list_elem_of_singleton in Ht as ->. simpl. lia.
  - intros t1 t2 H1 H2 Hid.
    apply elem_of_app in H1 as [H1|H1]; apply elem_of_app in H2 as [H2|H2];
      try (apply list_elem_of_singleton in H1 as ->);
      try (apply list_elem_of_singleton in H2 as ->); simpl in *; auto.
    + apply inv_fresh0 in H1. lia.
    + apply inv_fresh0 in H2. lia.
  - intros t Ht. apply elem_of_app in Ht as [Ht|Ht]; [auto|].
    apply list_elem_of_singleton in Ht as ->. simpl. split; [contradiction|].
    intros Hi. apply inv_inactivity0 in Hi. lia.
  - intros i Hi. apply inv_inactivity0 in Hi. lia.
  - unfold triggers in *. rewrite filter_app, length_app.
    rewrite filter_cons_False by (simpl; exact Hnt). simpl. lia.
  - intros m i Hm. destruct (inv_visual0 m i Hm) as [Hlt Hcb]. split; [lia|].
    intros t Ht Hid. apply elem_of_app in Ht as [Ht|Ht]; [auto|].
    apply list_elem_of_singleton in Ht as ->. simpl in Hid. lia.
  - unfold turnsInFlight in *; simpl. unfold resets in *.
    rewrite filter_app, length_app.
    rewrite filter_cons_False by (simpl; exact Hnr). simpl. lia.
  - intros Hoff. unfold triggers in *. rewrite filter_app, inv_disabled0 by exact Hoff.
    rewrite filter_cons_False by (simpl; exact Hnt). reflexivity.
Qed.

Lemma Inv_arm (s : State) :
  Inv s → aiEnabled s = true → triggers (timers s) = [] → Inv (armInactivityTimer s).
Proof.
  intros [] Hon Hnone. constructor; simpl; try assumption.
  - intros t Ht. apply elem_of_app in Ht as [Ht|Ht].
    + apply inv_fresh0 in Ht. lia.
    + apply list_elem_of_singleton in Ht as ->. simpl. lia.
  - intros t1 t2 H1 H2 Hid.
    apply elem_of_app in H1 as [H1|H1]; apply elem_of_app in H2 as [H2|H2];
      try (apply list_elem_of_singleton in H1 as ->);
      try (apply list_elem_of_singleton in H2 as ->); simpl in *; auto.
    + apply inv_fresh0 in H1. lia.
    + apply inv_fresh0 in H2. lia.
  - intros t Ht. apply elem_of_app in Ht as [Ht|Ht].
    + split.
      * intros Hcb. exfalso. unfold triggers in Hnone.
        exact (proj1 (filter_nil_iff _ _) Hnone t Ht Hcb).
      * intros [= Hid]. apply inv_fresh0 in Ht. lia.
    + apply list_elem_of_singleton in Ht as ->. simpl. split; reflexivity.
  - intros i [= <-]. lia.
  - unfold triggers in *. rewrite filter_app, Hnone. simpl. lia.
  - intros m i Hm. destruct (inv_visual0 m i Hm) as [Hlt Hcb]. split; [lia|].
    intros t Ht Hid. apply elem_of_app in Ht as [Ht|Ht]; [auto|].
    apply list_elem_of_singleton in Ht as ->. simpl in Hid. lia.
  - unfold turnsInFlight in *; simpl. unfold resets in *.
    rewrite filter_app, length_app. simpl. lia.
  - congruence.
Qed.

Lemma Inv_set_aiEnabled (b : bool) (s : State) :
  Inv s → (b = false → triggers (timers s) = []) → Inv (set_aiEnabled b s).
Proof.
  intros [] Hb. constructor; simpl; assumption.
Qed.

Lemma Inv_set_activeNotes (v : list Z) (s : State) :
  Inv s → isAIPlaying s = false → (∀ m, m ∈ v → m ∈ MIDI_NUMS) →
  Inv (set_activeNotes v s).
Proof.
  intros [] Hoff Hv. constructor; simpl; try assumption.
  intros Hon. congruence.
Qed.

Lemma Inv_playNote (index : nat) (now1 now2 : Q) (s : State) :
  Inv s → Inv (playNote index false now1 now2 s).
Proof.
  intros HI. unfold playNote. simpl.
  destruct (isAIPlaying s) eqn:Hplay; [exact HI|].
  destruct (MIDI_NUMS !! index) as [midi|] eqn:Hmidi; [|exact HI].
  apply Inv_set_userNotes.
  match goal with |- Inv (clearTimeout (inactivityTimer ?s1) ?s1) =>
    assert (H1 : Inv s1); [|exact (proj1 (clear_inactivity s1 H1))] end.
  destruct (bool_decide (midi ∈ activeNotes s)); [exact HI|].
  apply Inv_set_activeNotes; [apply Inv_emit; exact HI|exact Hplay|].
  intros m Hm. apply elem_of_app in Hm as [Hm|Hm].
  - exact (inv_midi s HI m Hm).
  - apply list_elem_of_singleton in Hm as ->.
    apply list_elem_of_lookup. exists index. exact Hmidi.
Qed.

Lemma Inv_releaseNote (index : option nat) (s : State) :
  Inv s → Inv (releaseNote index s).
Proof.
  intros HI. unfold releaseNote.
  destruct (isAIPlaying s) eqn:Hplay; [exact HI|]. cbv zeta.
  match goal with
  | |- Inv (if (length (activeNotes ?x) =? 0)%nat && _ then _ else _) => set (s1 := x)
  end.
  assert (H1 : Inv s1).
  { subst s1. destruct (index ≫= (MIDI_NUMS !!.)) as [m|]; [|exact HI].
    destruct (bool_decide (m ∈ activeNotes s)); [|exact HI].
    apply Inv_set_activeNotes; [apply Inv_emit; exact HI|exact Hplay|].
    intros k Hk. apply list_elem_of_filter in Hk as [_ Hk].
    exact (inv_midi s HI k Hk). }
  clearbody s1.
  destruct ((length (activeNotes s1) =? 0)%nat && aiEnabled s1) eqn:Hc; [|exact H1].
  apply andb_true_iff in Hc as [_ Hon].
  destruct (clear_inactivity s1 H1) as [H2 Hnone].
  apply Inv_arm; [exact H2| |exact Hnone].
  destruct (inactivityTimer s1); exact Hon.
Qed.

Lemma clearTimeout_set_aiEnabled (b : bool) (s : State) :
  clearTimeout (inactivityTimer (set_aiEnabled b s)) (set_aiEnabled b s) =
  set_aiEnabled b (clearTimeout (inactivityTimer s) s).
Proof. destruct s as [? ? ? [i|] ? ? ? ? ? ? ? ? ?]; reflexivity. Qed.

Lemma Inv_aiToggle_change (checked : bool) (s : State) :
  Inv s → Inv (aiToggle_change checked s).
Proof.
  intros HI. unfold aiToggle_change. destruct checked; simpl.
  - unfold canArmOnEnable; simpl. rewrite andb_false_r.
    apply Inv_emit, Inv_set_userNotes, Inv_set_aiEnabled; [exact HI|discriminate].
  - apply Inv_emit.
    change (Inv (clearTimeout (inactivityTimer (set_aiEnabled false s))
                              (set_aiEnabled false s))).
    rewrite clearTimeout_set_aiEnabled.
    destruct (clear_inactivity s HI) as [H1 Hnone].
    apply Inv_set_aiEnabled; [exact H1|intros _; exact Hnone].
Qed.

(** A state that is not in an AI turn has no model call and no end-of-turn
    timer pending. *)
Lemma Inv_idle (s : State) :
  Inv s → isAIPlaying s = false → awaitingModel s = false ∧ resets (timers s) = [].
Proof.
  intros HI Hoff. pose proof (inv_turn s HI) as Ht. rewrite Hoff in Ht.
  unfold turnsInFlight in Ht. destruct (awaitingModel s); [lia|].
  split; [reflexivity|]. destruct (resets (timers s)); [reflexivity|simpl in Ht; lia].
Qed.

Lemma Inv_awaiting (s : State) :
  Inv s → awaitingModel s = true → isAIPlaying s = true ∧ resets (timers s) = [].
Proof.
  intros HI Hw. pose proof (inv_turn s HI) as Ht.
  unfold turnsInFlight in Ht. rewrite Hw in Ht.
  destruct (isAIPlaying s); [|lia].
  split; [reflexivity|]. destruct (resets (timers s)); [reflexivity|simpl in Ht; lia].
Qed.

(** The synchronous head of an AI turn: flag, keyboard, status. *)
Definition turnEntry (s : State) : State :=
  setStatus "AI is listening and jamming back..." (disableKeyboard (set_isAIPlaying true s)).

Lemma turnEntry_eq (s : State) :
  turnEntry s =
  set_effects
    (effects s ++ (releaseOf <$> activeNotes s) ++
     [EffStatus "AI is listening and jamming back..."])
    (set_activeNotes [] (set_keyboardListening false (set_isAIPlaying true s))).
Proof.
  unfold turnEntry, disableKeyboard. rewrite releaseAll_eq. destruct s.
  unfold setStatus, emit, set_effects, set_activeNotes, set_keyboardListening,
    set_isAIPlaying; simpl.
  rewrite <- app_assoc. reflexivity.
Qed.

Lemma triggerAIResponse_skip (s : State) :
  aiEnabled s = false ∨ userNotes s = [] ∨ isAIPlaying s = true →
  triggerAIResponse s = s.
Proof.
  unfold triggerAIResponse. intros [H|[H|H]]; rewrite H; simpl;
    rewrite ?orb_true_r; reflexivity.
Qed.

Lemma triggerAIResponse_pass (s : State) :
  aiEnabled s = true → userNotes s ≠ [] → isAIPlaying s = false →
  triggerAIResponse s =
  match quantizeNoteSequence (unquantizedSequence (userNotes s)) 4 with
  | None => catchAIError (turnEntry s)
  | Some q => set_awaitingModel true (emit (EffContinueSequence q 50 (11 # 10)) (turnEntry s))
  end.
Proof.
  intros Hon Hne Hoff. unfold triggerAIResponse. rewrite Hon, Hoff.
  assert (Hlen : (length (userNotes s) =? 0)%nat = false)
    by (destruct (userNotes s); [congruence|reflexivity]).
  rewrite Hlen. cbv zeta. cbn [negb orb].
  change (setStatus "AI is listening and jamming back..."
            (disableKeyboard (set_isAIPlaying true s))) with (turnEntry s).
  replace (userNotes (turnEntry s)) with (userNotes s)
    by (rewrite turnEntry_eq; reflexivity).
  reflexivity.
Qed.

(** The guard of [triggerAIResponse], as a boolean. *)
Definition guardPasses (s : State) : bool :=
  aiEnabled s && negb (length (userNotes s) =? 0)%nat && negb (isAIPlaying s).

Lemma guardPasses_iff (s : State) :
  guardPasses s = true ↔ aiEnabled s = true ∧ userNotes s ≠ [] ∧ isAIPlaying s = false.
Proof.
  unfold guardPasses. rewrite !andb_true_iff, !negb_true_iff. split.
  - intros [[H1 H2] H3]. repeat split; try assumption.
    intros E. rewrite E in H2. discriminate.
  - intros (H1 & H2 & H3). repeat split; try assumption.
    destruct (userNotes s); [congruence|reflexivity].
Qed.

Lemma guardPasses_false (s : State) :
  guardPasses s = false ↔ aiEnabled s = false ∨ userNotes s = [] ∨ isAIPlaying s = true.
Proof.
  unfold guardPasses. destruct (aiEnabled s), (isAIPlaying s), (userNotes s); simpl;
    split; intros H; try reflexivity; try discriminate; auto;
    destruct H as [H|[H|H]]; discriminate.
Qed.

(** Changing only what belongs to the turn keeps the timer part of [Inv]. *)
Lemma Inv_turn_change (s s' : State) :
  Inv s →
  timers s' = timers s → nextTimerId s' = nextTimerId s →
  inactivityTimer s' = inactivityTimer s → visualTimeouts s' = visualTimeouts s →
  aiEnabled s' = aiEnabled s →
  turnsInFlight s' = (if isAIPlaying s' then 1 else 0)%nat →
  (isAIPlaying s' = true → activeNotes s' = []) →
  (∀ m, m ∈ activeNotes s' → m ∈ MIDI_NUMS) →
  keyboardListening s' = negb (isAIPlaying s') →
  Inv s'.
Proof.
  intros [] E1 E2 E3 E4 E5 Ht Ha Hm Hk.
  constructor; rewrite ?E1, ?E2, ?E3, ?E4, ?E5; assumption.
Qed.

Lemma Inv_triggerAIResponse (s : State) : Inv s → Inv (triggerAIResponse s).
Proof.
  intros HI. destruct (guardPasses s) eqn:G.
  - apply guardPasses_iff in G as (Hon & Hne & Hoff).
    rewrite triggerAIResponse_pass by assumption.
    destruct (Inv_idle s HI Hoff) as [Hw Hr].
    destruct (quantizeNoteSequence _ 4); rewrite turnEntry_eq;
      (apply (Inv_turn_change s); [exact HI|try reflexivity..]);
      unfold turnsInFlight; simpl; rewrite ?Hw, ?Hr; try reflexivity;
      try discriminate; intros m Hm; inversion Hm.
  - apply guardPasses_false in G. rewrite triggerAIResponse_skip by exact G. exact HI.
Qed.

Lemma Inv_resumeWithError (s : State) :
  Inv s → awaitingModel s = true → Inv (resumeWithError s).
Proof.
  intros HI Hw. destruct (Inv_awaiting s HI Hw) as [Hon Hr].
  apply (Inv_turn_change s); [exact HI|try reflexivity..];
    unfold turnsInFlight; simpl; rewrite ?Hr; try reflexivity; try discriminate.
  - intros m Hm. exact (inv_midi s HI m Hm).
Qed.

Lemma Inv_scheduleNotes (result : list GenNote) (s : State) :
  Inv s → Inv (foldl scheduleNote s result).
Proof.
  revert s. induction result as [|n result IH]; intros s HI; [exact HI|].
  simpl. apply IH. apply Inv_setTimeout; [exact HI|discriminate..].
Qed.

Lemma resumeWithResult_alt (result : list GenNote) (s : State) :
  resumeWithResult result s =
  set_awaitingModel false
    (setTimeout CbResetTurn (totalDuration result + 500) (foldl scheduleNote s result)).2.
Proof.
  rewrite resumeWithResult_eq, scheduleNote_fold. destruct s.
  unfold setTimeout, set_nextTimerId, set_timers, set_awaitingModel; simpl.
  rewrite <- app_assoc. reflexivity.
Qed.

Lemma Inv_end_of_turn_timer (ms : Z) (s : State) :
  Inv s → awaitingModel s = true →
  Inv (set_awaitingModel false (setTimeout CbResetTurn ms s).2).
Proof.
  intros HI Hw. destruct (Inv_awaiting s HI Hw) as [Hon Hr]. destruct HI.
  constructor; simpl; try assumption.
  - intros t Ht. apply elem_of_app in Ht as [Ht|Ht].
    + apply inv_fresh0 in Ht. lia.
    + apply list_elem_of_singleton in Ht as ->. simpl. lia.
  - intros t1 t2 H1 H2 Hid.
    apply elem_of_app in H1 as [H1|H1]; apply elem_of_app in H2 as [H2|H2];
      try (apply list_elem_of_singleton in H1 as ->);
      try (apply list_elem_of_singleton in H2 as ->); simpl in *; auto.
    + apply inv_fresh0 in H1. lia.
    + apply inv_fresh0 in H2. lia.
  - intros t Ht. apply elem_of_app in Ht as [Ht|Ht]; [auto|].
    apply list_elem_of_singleton in Ht as ->. simpl. split; [discriminate|].
    intros Hi. apply inv_inactivity0 in Hi. lia.
  - intros i Hi. apply inv_inactivity0 in Hi. lia.
  - unfold triggers in *. rewrite filter_app, length_app. simpl. lia.
  - intros m i Hm. destruct (inv_visual0 m i Hm) as [Hlt Hcb]. split; [lia|].
    intros t Ht Hid. apply elem_of_app in Ht as [Ht|Ht]; [auto|].
    apply list_elem_of_singleton in Ht as ->. simpl in Hid. lia.
  - unfold turnsInFlight; simpl. unfold resets in *.
    rewrite filter_app, length_app, Hr, Hon. reflexivity.
  - intros Hoff. unfold triggers in *. rewrite filter_app, inv_disabled0 by exact Hoff.
    reflexivity.
Qed.

Lemma Inv_resumeWithResult (result : list GenNote) (s : State) :
  Inv s → awaitingModel s = true → Inv (resumeWithResult result s).
Proof.
  intros HI Hw. rewrite resumeWithResult_alt.
  apply Inv_end_of_turn_timer; [apply Inv_scheduleNotes; exact HI|].
  rewrite scheduleNote_fold. exact Hw.
Qed.

Lemma Inv_visual_timer (midi : Z) (ms : Z) (s : State) :
  Inv s →
  Inv (let '(timeoutId, s) := setTimeout (CbVisualClear midi) ms s in
       set_visualTimeouts (<[midi := timeoutId]> (visualTimeouts s)) s).
Proof.
  intros HI. pose proof (Inv_setTimeout (CbVisualClear midi) ms s HI) as H2.
  specialize (H2 ltac:(discriminate) ltac:(discriminate)).
  pose proof (inv_fresh s HI) as Hfresh.
  destruct H2. simpl in *. constructor; simpl; try assumption.
  intros m i Hm. destruct (decide (midi = m)) as [->|Hne].
  - rewrite lookup_insert_eq in Hm. injection Hm as <-. split; [lia|].
    intros t Ht Hid. apply elem_of_app in Ht as [Ht|Ht].
    + apply Hfresh in Ht. lia.
    + apply list_elem_of_singleton in Ht as ->. reflexivity.
  - rewrite lookup_insert_ne in Hm by exact Hne. exact (inv_visual0 m i Hm).
Qed.

Lemma Inv_playNoteWithDuration (index : nat) (durationSec : Q) (s : State) :
  Inv s → Inv (playNoteWithDuration index durationSec s).
Proof.
  intros HI. unfold playNoteWithDuration. cbv zeta.
  pose proof (Inv_emit (EffTriggerAttackRelease (NOTES !! index) durationSec) s HI) as H1.
  destruct (MIDI_NUMS !! index) as [midi|]; [|exact H1].
  apply Inv_visual_timer.
  destruct (visualTimeouts _ !! midi) as [old|] eqn:E; [|exact H1].
  apply Inv_clearTimeout; [exact H1|].
  intros t Ht Hid. destruct (inv_visual _ H1 midi old E) as [_ Hcb].
  rewrite (Hcb t Ht Hid). discriminate.
Qed.

Lemma Inv_playGenerated (note : GenNote) (durationSec : Q) (s : State) :
  Inv s → Inv (playGenerated note durationSec s).
Proof.
  intros HI. unfold playGenerated.
  destruct (closestMidi (gen_pitch note)); [|exact HI].
  destruct (indexOf _ MIDI_NUMS); [|exact HI].
  apply Inv_playNoteWithDuration. exact HI.
Qed.

(** Removing a timer by its id removes that timer only. *)
Lemma clearTimeout_fired (t : Timer) (s : State) :
  Inv s → t ∈ timers s →
  ∀ t', t' ∈ timers (clearTimeout (Some (timer_id t)) s) ↔ t' ∈ timers s ∧ t' ≠ t.
Proof.
  intros HI Ht t'. simpl. rewrite list_elem_of_filter. split.
  - intros [Hne Hin]. split; [exact Hin|]. intros ->. apply Hne. reflexivity.
  - intros [Hin Hne]. split; [|exact Hin]. intros Hid.
    apply Hne. exact (inv_same_id s HI t' t Hin Ht Hid).
Qed.

Lemma Inv_fire_reset (t : Timer) (s : State) :
  Inv s → t ∈ timers s → callback t = CbResetTurn →
  Inv (resetTurn (clearTimeout (Some (timer_id t)) s)).
Proof.
  intros HI Ht Hcb.
  assert (Hin : t ∈ resets (timers s)) by (apply list_elem_of_filter; auto).
  pose proof (inv_turn s HI) as Hturn. unfold turnsInFlight in Hturn.
  assert (Hone : resets (timers s) = [t] ∧ awaitingModel s = false).
  { destruct (resets (timers s)) as [|r [|r' rs]] eqn:E; simpl in Hturn.
    - inversion Hin.
    - apply list_elem_of_singleton in Hin as ->.
      destruct (awaitingModel s), (isAIPlaying s); try lia. auto.
    - destruct (awaitingModel s), (isAIPlaying s); lia. }
  destruct Hone as [Hr Hw]. destruct HI.
  constructor; simpl; try assumption; try discriminate; try reflexivity.
  - intros t' Ht'. apply list_elem_of_filter in Ht' as [_ Ht']. auto.
  - intros t1 t2 H1 H2. apply list_elem_of_filter in H1 as [_ H1].
    apply list_elem_of_filter in H2 as [_ H2]. auto.
  - intros t' Ht'. apply list_elem_of_filter in Ht' as [_ Ht']. auto.
  - unfold triggers in *. rewrite filter_comm.
    etransitivity; [apply length_filter|assumption].
  - intros m j Hm. destruct (inv_visual0 m j Hm) as [Hlt Hv]. split; [exact Hlt|].
    intros t' Ht'. apply list_elem_of_filter in Ht' as [_ Ht']. auto.
  - unfold turnsInFlight; simpl. rewrite Hw. unfold resets in *.
    rewrite filter_comm, Hr, filter_cons.
    destruct (decide _) as [Hn|_]; [exfalso; apply Hn|]; reflexivity.
  - intros Hoff. unfold triggers in *. rewrite filter_comm, inv_disabled0 by exact Hoff.
    reflexivity.
Qed.

Lemma findTimer_Some (id : nat) (s : State) (t : Timer) :
  findTimer id s = Some t → t ∈ timers s ∧ timer_id t = id.
Proof.
  unfold findTimer. intros H.
  destruct (list_find _ (timers s)) as [[i t']|] eqn:E; [|discriminate].
  injection H as ->. apply list_find_Some in E as (Hi & Hid & _).
  split; [|exact Hid]. apply list_elem_of_lookup. exists i. exact Hi.
Qed.

Lemma findTimer_of_elem (t : Timer) (s : State) :
  Inv s → t ∈ timers s → findTimer (timer_id t) s = Some t.
Proof.
  intros HI Ht. unfold findTimer.
  destruct (list_find (λ t0, timer_id t0 = timer_id t) (timers s)) as [[i t']|] eqn:E.
  - apply list_find_Some in E as (Hi & Hid & _). simpl. f_equal.
    apply (inv_same_id s HI); [|exact Ht|exact Hid].
    apply list_elem_of_lookup. exists i. exact Hi.
  - exfalso. apply list_find_None in E. rewrite Forall_forall in E.
    exact (E t Ht eq_refl).
Qed.

Lemma Inv_fire (t : Timer) (s : State) :
  Inv s → t ∈ timers s →
  Inv (runCallback (callback t) (clearTimeout (Some (timer_id t)) s)).
Proof.
  intros HI Ht. destruct (decide (callback t = CbResetTurn)) as [Hr|Hr].
  - rewrite Hr. simpl runCallback. apply Inv_fire_reset; assumption.
  - assert (H1 : Inv (clearTimeout (Some (timer_id t)) s)).
    { apply Inv_clearTimeout; [exact HI|]. intros t' Ht' Hid.
      rewrite (inv_same_id s HI t' t Ht' Ht Hid). exact Hr. }
    destruct (callback t) as [|note d| |midi|midi]; simpl runCallback.
    + apply Inv_triggerAIResponse. exact H1.
    + apply Inv_playGenerated. exact H1.
    + contradiction.
    + destruct H1. constructor; simpl in *; try assumption.
      intros m i Hm. apply lookup_delete_Some in Hm as [_ Hm]. eauto.
    + exact H1.
Qed.

Theorem Inv_step (e : Event) (s : State) : Inv s → Inv (step e s).
Proof.
  intros HI. destruct e; simpl.
  - destruct (keyboardListening s); [|exact HI]. unfold handleKeyDown.
    destruct (KEY_MAP !! key); [|exact HI].
    destruct repeat; [exact HI|]. apply Inv_playNote. exact HI.
  - destruct (keyboardListening s); [|exact HI]. unfold handleKeyUp.
    destruct (KEY_MAP !! key); [|exact HI]. apply Inv_releaseNote. exact HI.
  - destruct (isKey index); [|exact HI].
    apply Inv_playNote, Inv_set_lastKeyPressed. exact HI.
  - destruct (isKey index && buttons); [|exact HI].
    apply Inv_playNote, Inv_set_lastKeyPressed, Inv_releaseNote. exact HI.
  - destruct (isKey index); [|exact HI].
    apply Inv_set_lastKeyPressed, Inv_releaseNote. exact HI.
  - destruct (lastKeyPressed s); [|exact HI].
    apply Inv_set_lastKeyPressed, Inv_releaseNote. exact HI.
  - apply Inv_aiToggle_change. exact HI.
  - destruct (findTimer id s) as [t|] eqn:E; [|exact HI].
    destruct (dueTime t <=? clock s); [|exact HI].
    apply findTimer_Some in E as [Ht <-]. apply Inv_fire; assumption.
  - destruct (awaitingModel s) eqn:Hw; [|exact HI].
    apply Inv_resumeWithResult; assumption.
  - destruct (awaitingModel s) eqn:Hw; [|exact HI].
    apply Inv_resumeWithError; assumption.
  - apply Inv_set_clock. exact HI.
Qed.

Theorem Inv_reachable (s : State) : reachable s → Inv s.
Proof.
  induction 1 as [|e s _ IH]; [apply Inv_initial|apply Inv_step; exact IH].
Qed.

Lemma run_app (es1 es2 : list Event) (s : State) :
  run (es1 ++ es2) s = run es2 (run es1 s).
Proof. unfold run. apply foldl_app. Qed.

Lemma reachable_run (es : list Event) (s : State) :
  reachable s → reachable (run es s).
Proof.
  revert s. induction es as [|e es IH]; intros s H; [exact H|].
  simpl. apply IH. constructor. exact H.
Qed.

(** *** What each handler leaves alone *)

Lemma playNote_blocked (index : nat) (now1 now2 : Q) (s : State) :
  isAIPlaying s = true → playNote index false now1 now2 s = s.
Proof. intros H. unfold playNote. rewrite H. reflexivity. Qed.

Lemma releaseNote_blocked (index : option nat) (s : State) :
  isAIPlaying s = true → releaseNote index s = s.
Proof. intros H. unfold releaseNote. rewrite H. reflexivity. Qed.

Lemma modelCalls_emit (e : Effect) (s : State) :
  modelCalls (emit e s) = (modelCalls s + if isModelCall e then 1 else 0)%nat.
Proof.
  unfold modelCalls, emit; simpl. rewrite filter_app, length_app.
  destruct (isModelCall e) eqn:E.
  - rewrite filter_cons_True by (rewrite E; exact I). reflexivity.
  - rewrite filter_cons_False by (rewrite E; exact id). reflexivity.
Qed.

Lemma turnsStarted_emit (e : Effect) (s : State) :
  turnsStarted (emit e s) = (turnsStarted s + if isTurnStart e then 1 else 0)%nat.
Proof.
  unfold turnsStarted, emit; simpl. rewrite filter_app, length_app.
  destruct (isTurnStart e) eqn:E.
  - rewrite filter_cons_True by (rewrite E; exact I). reflexivity.
  - rewrite filter_cons_False by (rewrite E; exact id). reflexivity.
Qed.

(** A handler that belongs to neither end of an AI turn: it leaves the
    turn flags, the clock and the count of model calls and turns alone, and
    creates no end-of-turn timer. *)
Record keepsTurn (s s' : State) : Prop := {
  keeps_playing : isAIPlaying s' = isAIPlaying s;
  keeps_awaiting : awaitingModel s' = awaitingModel s;
  keeps_keyboard : keyboardListening s' = keyboardListening s;
  keeps_clock : clock s' = clock s;
  keeps_calls : modelCalls s' = modelCalls s;
  keeps_starts : turnsStarted s' = turnsStarted s;
  keeps_resets : ∀ t, t ∈ timers s' → callback t = CbResetTurn → t ∈ timers s
}.

Lemma keepsTurn_refl (s : State) : keepsTurn s s.
Proof. constructor; auto. Qed.

Lemma keepsTurn_trans (s1 s2 s3 : State) :
  keepsTurn s1 s2 → keepsTurn s2 s3 → keepsTurn s1 s3.
Proof.
  intros [] []. constructor; try congruence. auto.
Qed.

Lemma keepsTurn_fields (s s' : State) :
  isAIPlaying s' = isAIPlaying s → awaitingModel s' = awaitingModel s →
  keyboardListening s' = keyboardListening s → clock s' = clock s →
  effects s' = effects s → timers s' = timers s → keepsTurn s s'.
Proof.
  intros E1 E2 E3 E4 E5 E6. constructor; unfold modelCalls, turnsStarted;
    rewrite ?E5, ?E6; auto.
Qed.

Lemma keepsTurn_emit (e : Effect) (s : State) :
  isModelCall e = false → isTurnStart e = false → keepsTurn s (emit e s).
Proof.
  intros H1 H2. constructor; try reflexivity.
  - rewrite modelCalls_emit, H1. lia.
  - rewrite turnsStarted_emit, H2. lia.
  - auto.
Qed.

Lemma keepsTurn_clearTimeout (id : option nat) (s : State) :
  keepsTurn s (clearTimeout id s).
Proof.
  destruct id as [i|]; [|apply keepsTurn_refl].
  constructor; try reflexivity. simpl.
  intros t Ht _. apply list_elem_of_filter in Ht as [_ Ht]. exact Ht.
Qed.

Lemma keepsTurn_setTimeout (cb : Callback) (ms : Z) (s : State) :
  cb ≠ CbResetTurn → keepsTurn s (setTimeout cb ms s).2.
Proof.
  intros Hcb. constructor; try reflexivity. simpl.
  intros t Ht Hr. apply elem_of_app in Ht as [Ht|Ht]; [exact Ht|].
  apply list_elem_of_singleton in Ht as ->. contradiction.
Qed.

Lemma keepsTurn_arm (s : State) : keepsTurn s (armInactivityTimer s).
Proof.
  apply (keepsTurn_trans _ (setTimeout CbTriggerAI INACTIVITY_THRESHOLD s).2).
  - apply keepsTurn_setTimeout. discriminate.
  - apply keepsTurn_fields; reflexivity.
Qed.

Lemma keepsTurn_playNote (index : nat) (now1 now2 : Q) (s : State) :
  keepsTurn s (playNote index false now1 now2 s).
Proof.
  unfold playNote. simpl.
  destruct (isAIPlaying s); [apply keepsTurn_refl|].
  destruct (MIDI_NUMS !! index) as [midi|]; [|apply keepsTurn_refl].
  match goal with |- keepsTurn s (set_userNotes _ (clearTimeout _ ?s1)) =>
    apply (keepsTurn_trans _ s1) end.
  - destruct (bool_decide _); [apply keepsTurn_refl|].
    apply (keepsTurn_trans _ (emit (EffTriggerAttack (NOTES !! index)) s));
      [apply keepsTurn_emit; reflexivity|].
    apply keepsTurn_fields; reflexivity.
  - eapply keepsTurn_trans; [apply keepsTurn_clearTimeout|].
    apply keepsTurn_fields; reflexivity.
Qed.

Lemma keepsTurn_releaseNote (index : option nat) (s : State) :
  keepsTurn s (releaseNote index s).
Proof.
  unfold releaseNote. destruct (isAIPlaying s); [apply keepsTurn_refl|]. cbv zeta.
  match goal with
  | |- keepsTurn s (if (length (activeNotes ?x) =? 0)%nat && _ then _ else _) =>
    set (s1 := x)
  end.
  assert (H1 : keepsTurn s s1).
  { subst s1. destruct (index ≫= (MIDI_NUMS !!.)) as [m|]; [|apply keepsTurn_refl].
    destruct (bool_decide _); [|apply keepsTurn_refl].
    apply (keepsTurn_trans _ (emit (EffTriggerRelease (index ≫= (NOTES !!.))) s));
      [apply keepsTurn_emit; reflexivity|].
    apply keepsTurn_fields; reflexivity. }
  clearbody s1. destruct (_ && _); [|exact H1].
  eapply keepsTurn_trans; [exact H1|].
  eapply keepsTurn_trans; [apply keepsTurn_clearTimeout|apply keepsTurn_arm].
Qed.

Lemma aiToggle_change_on (s : State) :
  aiToggle_change true s =
  setStatus "AI is ON. Play a melody then wait for the AI to respond."
    (set_userNotes [] (set_aiEnabled true s)).
Proof.
  unfold aiToggle_change. simpl. unfold canArmOnEnable. simpl.
  rewrite andb_false_r. reflexivity.
Qed.

Lemma keepsTurn_aiToggle_change (checked : bool) (s : State) :
  keepsTurn s (aiToggle_change checked s).
Proof.
  destruct checked.
  - rewrite aiToggle_change_on.
    eapply keepsTurn_trans; [|apply keepsTurn_emit; reflexivity].
    apply keepsTurn_fields; reflexivity.
  - unfold aiToggle_change. simpl.
    eapply keepsTurn_trans;
      [|apply keepsTurn_emit;
        match goal with |- context [if ?b then _ else _] => destruct b end; reflexivity].
    apply (keepsTurn_trans _ (set_aiEnabled false s));
      [apply keepsTurn_fields; reflexivity|].
    apply (keepsTurn_clearTimeout (inactivityTimer s) (set_aiEnabled false s)).
Qed.

Lemma keepsTurn_playNoteWithDuration (index : nat) (d : Q) (s : State) :
  keepsTurn s (playNoteWithDuration index d s).
Proof.
  unfold playNoteWithDuration. cbv zeta.
  pose proof (keepsTurn_emit (EffTriggerAttackRelease (NOTES !! index) d) s
                eq_refl eq_refl) as H1.
  destruct (MIDI_NUMS !! index) as [midi|]; [|exact H1].
  eapply keepsTurn_trans; [exact H1|].
  match goal with |- keepsTurn _ (let '(_, _) := setTimeout _ _ ?x in _) =>
    set (s1 := x) end.
  apply (keepsTurn_trans _ s1).
  - subst s1. destruct (_ !! midi); [apply keepsTurn_clearTimeout|apply keepsTurn_refl].
  - eapply keepsTurn_trans; [apply (keepsTurn_setTimeout (CbVisualClear midi)); discriminate|].
    apply keepsTurn_fields; reflexivity.
Qed.

Lemma keepsTurn_playGenerated (note : GenNote) (d : Q) (s : State) :
  keepsTurn s (playGenerated note d s).
Proof.
  unfold playGenerated.
  destruct (closestMidi _); [|apply keepsTurn_refl].
  destruct (indexOf _ _); [|apply keepsTurn_refl].
  apply keepsTurn_playNoteWithDuration.
Qed.

Ltac split_cases :=
  repeat (simpl; match goal with
                 | |- context [match ?x with _ => _ end] => destruct x
                 end).

Lemma aiEnabled_clearTimeout (id : option nat) (s : State) :
  aiEnabled (clearTimeout id s) = aiEnabled s.
Proof. destruct id; reflexivity. Qed.

Lemma aiEnabled_playNote (index : nat) (isAI : bool) (now1 now2 : Q) (s : State) :
  aiEnabled (playNote index isAI now1 now2 s) = aiEnabled s.
Proof.
  unfold playNote. destruct isAI; split_cases; rewrite ?aiEnabled_clearTimeout; reflexivity.
Qed.

Lemma aiEnabled_releaseNote (index : option nat) (s : State) :
  aiEnabled (releaseNote index s) = aiEnabled s.
Proof.
  unfold releaseNote. split_cases; rewrite ?aiEnabled_clearTimeout; reflexivity.
Qed.

Lemma aiEnabled_playGenerated (note : GenNote) (d : Q) (s : State) :
  aiEnabled (playGenerated note d s) = aiEnabled s.
Proof.
  unfold playGenerated.
  destruct (closestMidi _); [|reflexivity].
  destruct (indexOf _ _); [|reflexivity].
  unfold playNoteWithDuration. split_cases; reflexivity.
Qed.

Lemma aiEnabled_triggerAIResponse (s : State) :
  aiEnabled (triggerAIResponse s) = aiEnabled s.
Proof.
  destruct (guardPasses s) eqn:G.
  - apply guardPasses_iff in G as (Hon & Hne & Hoff).
    rewrite triggerAIResponse_pass by assumption.
    destruct (quantizeNoteSequence _ 4); rewrite turnEntry_eq; reflexivity.
  - apply guardPasses_false in G. rewrite triggerAIResponse_skip by exact G. reflexivity.
Qed.

Lemma aiEnabled_step (e : Event) (s : State) :
  aiEnabled (step e s) =
  match e with EvToggleChange checked => checked | _ => aiEnabled s end.
Proof.
  destruct e; simpl.
  - destruct (keyboardListening s); [|reflexivity]. unfold handleKeyDown.
    destruct (KEY_MAP !! key); [|reflexivity].
    destruct repeat; [reflexivity|apply aiEnabled_playNote].
  - destruct (keyboardListening s); [|reflexivity]. unfold handleKeyUp.
    destruct (KEY_MAP !! key); [|reflexivity]. apply aiEnabled_releaseNote.
  - destruct (isKey index); [|reflexivity]. rewrite aiEnabled_playNote. reflexivity.
  - destruct (isKey index && buttons); [|reflexivity].
    rewrite aiEnabled_playNote. simpl. apply aiEnabled_releaseNote.
  - destruct (isKey index); [|reflexivity]. simpl. apply aiEnabled_releaseNote.
  - destruct (lastKeyPressed s); [|reflexivity]. simpl. apply aiEnabled_releaseNote.
  - destruct checked; [rewrite aiToggle_change_on; reflexivity|].
    unfold aiToggle_change. simpl. apply aiEnabled_clearTimeout.
  - destruct (findTimer id s) as [t|]; [|reflexivity].
    destruct (dueTime t <=? clock s); [|reflexivity].
    destruct (callback t); unfold runCallback;
      rewrite ?aiEnabled_triggerAIResponse, ?aiEnabled_playGenerated; reflexivity.
  - destruct (awaitingModel s); [|reflexivity]. rewrite resumeWithResult_eq. reflexivity.
  - destruct (awaitingModel s); reflexivity.
  - reflexivity.
Qed.

(** Time only moves forward. *)
Lemma clock_triggerAIResponse (s : State) : clock (triggerAIResponse s) = clock s.
Proof.
  destruct (guardPasses s) eqn:G.
  - apply guardPasses_iff in G as (Hon & Hne & Hoff).
    rewrite triggerAIResponse_pass by assumption.
    destruct (quantizeNoteSequence _ 4); rewrite turnEntry_eq; reflexivity.
  - apply guardPasses_false in G. rewrite triggerAIResponse_skip by exact G. reflexivity.
Qed.

Lemma clock_step (e : Event) (s : State) : clock s ≤ clock (step e s).
Proof.
  destruct e; simpl.
  - destruct (keyboardListening s); [|lia]. unfold handleKeyDown.
    destruct (KEY_MAP !! key); [|lia]. destruct repeat; cbn [negb]; [lia|].
    rewrite (keeps_clock _ _ (keepsTurn_playNote _ _ _ _)). lia.
  - destruct (keyboardListening s); [|lia]. unfold handleKeyUp.
    destruct (KEY_MAP !! key); [|lia].
    rewrite (keeps_clock _ _ (keepsTurn_releaseNote _ _)). lia.
  - destruct (isKey index); [|lia].
    rewrite (keeps_clock _ _ (keepsTurn_playNote _ _ _ _)). simpl. lia.
  - destruct (isKey index && buttons); [|lia].
    rewrite (keeps_clock _ _ (keepsTurn_playNote _ _ _ _)). simpl.
    rewrite (keeps_clock _ _ (keepsTurn_releaseNote _ _)). lia.
  - destruct (isKey index); [|lia]. simpl.
    rewrite (keeps_clock _ _ (keepsTurn_releaseNote _ _)). lia.
  - destruct (lastKeyPressed s); [|lia]. simpl.
    rewrite (keeps_clock _ _ (keepsTurn_releaseNote _ _)). lia.
  - rewrite (keeps_clock _ _ (keepsTurn_aiToggle_change _ _)). lia.
  - destruct (findTimer id s) as [t|]; [|lia].
    destruct (dueTime t <=? clock s); [|lia].
    destruct (callback t); unfold runCallback;
      rewrite ?clock_triggerAIResponse, ?(keeps_clock _ _ (keepsTurn_playGenerated _ _ _));
      match goal with |- _ ≤ ?c => change c with (clock s) end; lia.
  - destruct (awaitingModel s); [|lia]. rewrite resumeWithResult_eq. simpl. lia.
  - destruct (awaitingModel s); simpl; lia.
  - lia.
Qed.

Lemma clock_run (es : list Event) (s : State) : clock s ≤ clock (run es s).
Proof.
  revert s. induction es as [|e es IH]; intros s; simpl; [lia|].
  etransitivity; [apply (clock_step e)|apply IH].
Qed.

(** ** The claims *)

(** The 0.5 s that each recorded note is given in the request, and a time
    expressed in such slots. *)
Definition slot : Q := 1 # 2.
Definition inSlots (t : Q) : Q := t / slot.

Lemma inSlots_mul (z : Z) : (inSlots (inject_Z z * (1 # 2)) == inject_Z z)%Q.
Proof. unfold inSlots, slot. field. Qed.

(** C1.  When the inactivity trigger fires on a buffer of N >= 1 recorded
    notes (toggle on, no AI turn under way), the request built from the
    buffer has N notes; note i carries the i-th recorded pitch, starts at
    slot i and ends at slot i + 1 (slots of 0.5 s), has velocity 80; the
    request spans N slots; and, the quantizer having accepted it, its
    quantized form is passed to the model with 50 steps and temperature 1.1. *)
Theorem C1_request_sequence (s : State) (q : QuantizedSequence) :
  guardPasses s = true →
  quantizeNoteSequence (unquantizedSequence (userNotes s)) 4 = Some q →
  let buffer := userNotes s in
  let request := unquantizedSequence buffer in
  (1 ≤ length buffer)%nat ∧
  length (notes request) = length buffer ∧
  (∀ (i : nat) (n : UserNote), buffer !! i = Some n →
     ∃ e, notes request !! i = Some e ∧
          seq_pitch e = pitch n ∧
          (inSlots (seq_startTime e) == inject_Z (Z.of_nat i))%Q ∧
          (inSlots (seq_endTime e) == inject_Z (Z.of_nat i + 1))%Q ∧
          velocity e = 80) ∧
  (inSlots (totalTime request) == inject_Z (Z.of_nat (length buffer)))%Q ∧
  effects (triggerAIResponse s) =
    effects s ++ (releaseOf <$> activeNotes s) ++
    [EffStatus "AI is listening and jamming back...";
     EffContinueSequence q 50 (11 # 10)] ∧
  awaitingModel (triggerAIResponse s) = true.
Proof.
  intros G Hq buffer request.
  apply guardPasses_iff in G as (Hon & Hne & Hoff).
  split; [|split; [|split; [|split; [|split]]]].
  - subst buffer. destruct (userNotes s); [congruence|simpl; lia].
  - subst request. unfold unquantizedSequence; simpl. apply length_imap.
  - intros i n Hi. exists (toSeqNote i n). subst request.
    rewrite unquantizedSequence_lookup, Hi. simpl.
    repeat split; try reflexivity; apply inSlots_mul.
  - subst request. simpl. apply inSlots_mul.
  - rewrite triggerAIResponse_pass by assumption. fold buffer. fold request.
    subst request buffer. rewrite Hq, turnEntry_eq. simpl.
    rewrite <- !app_assoc. reflexivity.
  - rewrite triggerAIResponse_pass by assumption. rewrite Hq. reflexivity.
Qed.

(** C2.  For every generated pitch, the pitch that is played is the entry
    of the playable set 60..77 at the least absolute distance from it, and
    among entries at equal distance the lower one, which the ascending scan
    meets first; a generated note is played on that key.  58 resolves to 60,
    79 to 77, and the midpoint 63.5 of 63 and 64 to 63. *)
Theorem C2_nearest_playable_pitch :
  (∀ p : Q, ∃ m : Z,
     closestMidi p = Some m ∧ m ∈ MIDI_NUMS ∧ firstClosest MIDI_NUMS p m ∧
     (∀ k, k ∈ MIDI_NUMS → (dist m p <= dist k p)%Q) ∧
     (∀ k, k ∈ MIDI_NUMS → (dist k p == dist m p)%Q → m ≤ k)) ∧
  (∀ (note : GenNote) (d : Q) (s : State), ∃ (m : Z) (index : nat),
     closestMidi (gen_pitch note) = Some m ∧ MIDI_NUMS !! index = Some m ∧
     playGenerated note d s = playNoteWithDuration index d s) ∧
  closestMidi (inject_Z 58) = Some 60 ∧
  closestMidi (inject_Z 79) = Some 77 ∧
  closestMidi (127 # 2) = Some 63.
Proof.
  assert (Hmain : ∀ p : Q, ∃ (m : Z) (i : nat),
     closestMidi p = Some m ∧ MIDI_NUMS !! i = Some m ∧ firstClosest MIDI_NUMS p m ∧
     (∀ k, k ∈ MIDI_NUMS → (dist m p <= dist k p)%Q) ∧
     (∀ k, k ∈ MIDI_NUMS → (dist k p == dist m p)%Q → m ≤ k)).
  { intros p. destruct (closestIn_total MIDI_NUMS p) as [m Hm]; [discriminate|].
    pose proof (closestIn_firstClosest _ _ _ Hm) as Hfc.
    destruct Hfc as (i & Hi & Hmin). exists m, i.
    split; [exact Hm|]. split; [exact Hi|]. split; [exists i; auto|]. split.
    - intros k Hk. apply list_elem_of_lookup in Hk as [j Hj].
      exact (proj1 (Hmin j k Hj)).
    - intros k Hk Heq. apply list_elem_of_lookup in Hk as [j Hj].
      pose proof (proj2 (Hmin j k Hj) Heq) as Hle.
      apply MIDI_NUMS_lookup in Hi as [_ ->]. apply MIDI_NUMS_lookup in Hj as [_ ->].
      lia. }
  split; [|split; [|repeat split; reflexivity]].
  - intros p. destruct (Hmain p) as (m & i & Hm & Hi & Hfc & Hmin & Htie).
    exists m. repeat split; try assumption.
    apply list_elem_of_lookup. exists i. exact Hi.
  - intros note d s. destruct (Hmain (gen_pitch note)) as (m & i & Hm & Hi & _).
    exists m, i. split; [exact Hm|]. split; [exact Hi|].
    unfold playGenerated. rewrite Hm, (indexOf_MIDI_NUMS i m Hi). reflexivity.
Qed.

Lemma effects_playNoteWithDuration (index : nat) (d : Q) (s : State) :
  effects (playNoteWithDuration index d s) =
  effects s ++ [EffTriggerAttackRelease (NOTES !! index) d].
Proof. unfold playNoteWithDuration. split_cases; reflexivity. Qed.

Lemma playGenerated_plays (note : GenNote) (d : Q) (s : State) :
  ∃ (m : Z) (index : nat),
    closestMidi (gen_pitch note) = Some m ∧ MIDI_NUMS !! index = Some m ∧
    effects (playGenerated note d s) =
    effects s ++ [EffTriggerAttackRelease (NOTES !! index) d].
Proof.
  destruct (closestIn_total MIDI_NUMS (gen_pitch note)) as [m Hm]; [discriminate|].
  destruct (closestIn_firstClosest _ _ _ Hm) as (i & Hi & _).
  exists m, i. split; [exact Hm|]. split; [exact Hi|].
  unfold playGenerated. fold (closestMidi (gen_pitch note)) in Hm.
  rewrite Hm, (indexOf_MIDI_NUMS i m Hi). apply effects_playNoteWithDuration.
Qed.

Lemma playbackTimers_lookup (firstId : nat) (now : Z) (result : list GenNote)
    (i : nat) (note : GenNote) :
  result !! i = Some note →
  {| timer_id := firstId + i; armedAt := now; delay := startTimeMs note;
     callback := CbPlayGenerated note (durationSec note) |}
  ∈ playbackTimers firstId now result.
Proof.
  intros Hi. apply list_elem_of_lookup. exists i.
  unfold playbackTimers. rewrite list_lookup_imap, Hi. reflexivity.
Qed.

(** C7.  When the model answers, every note of the answer gets a timer armed
    at that moment with delay quantizedStartStep * 125 ms; when the timer
    runs, the synthesiser is asked to play the mapped key for
    (quantizedEndStep - quantizedStartStep) * 125 / 1000 seconds.  With
    steps 2 and 6 the delay is 250 ms and the duration 0.5 s. *)
Theorem C7_playback_offset_duration
    (result : list GenNote) (i : nat) (note : GenNote) (s : State) :
  awaitingModel s = true → result !! i = Some note →
  let s' := step (EvModelResolve result) s in
  let t := {| timer_id := nextTimerId s + i; armedAt := clock s;
              delay := quantizedStartStep note * 125;
              callback := CbPlayGenerated note (durationSec note) |} in
  t ∈ timers s' ∧
  (durationSec note ==
   inject_Z ((quantizedEndStep note - quantizedStartStep note) * 125) / 1000)%Q ∧
  (∀ s2 : State, ∃ (m : Z) (index : nat),
     closestMidi (gen_pitch note) = Some m ∧ MIDI_NUMS !! index = Some m ∧
     effects (runCallback (callback t) s2) =
     effects s2 ++ [EffTriggerAttackRelease (NOTES !! index) (durationSec note)]) ∧
  (quantizedStartStep note = 2 → quantizedEndStep note = 6 →
   delay t = 250 ∧ (durationSec note == 1 # 2)%Q).
Proof.
  intros Hw Hi s' t. split; [|split; [|split]].
  - subst s' t. simpl. rewrite Hw, resumeWithResult_eq. simpl.
    apply elem_of_app. right. apply elem_of_app. left.
    exact (playbackTimers_lookup (nextTimerId s) (clock s) result i note Hi).
  - apply durationSec_spec.
  - intros s2. exact (playGenerated_plays note (durationSec note) s2).
  - intros H2 H6. subst t. simpl. rewrite H2. split; [reflexivity|].
    rewrite durationSec_spec, H2, H6. reflexivity.
Qed.

(** An AI turn in its playback phase that cannot end before [deadline]. *)
Record PlayingUntil (deadline : Z) (s : State) : Prop := {
  pu_playing : isAIPlaying s = true;
  pu_answered : awaitingModel s = false;
  pu_keyboard : keyboardListening s = false;
  pu_deadline : ∀ t, t ∈ timers s → callback t = CbResetTurn → deadline ≤ dueTime t
}.

Lemma PlayingUntil_keeps (deadline : Z) (s s' : State) :
  PlayingUntil deadline s → keepsTurn s s' → PlayingUntil deadline s'.
Proof.
  intros [] []. constructor; try congruence.
  intros t Ht Hcb. auto.
Qed.

Lemma PlayingUntil_step (deadline : Z) (e : Event) (s : State) :
  PlayingUntil deadline s → clock s < deadline → PlayingUntil deadline (step e s).
Proof.
  intros HP Hclock. pose proof (PlayingUntil_keeps deadline s) as Hk.
  destruct e; simpl.
  - rewrite (pu_keyboard _ _ HP). exact HP.
  - rewrite (pu_keyboard _ _ HP). exact HP.
  - destruct (isKey index); [|exact HP]. apply Hk; [exact HP|].
    eapply keepsTurn_trans; [|apply keepsTurn_playNote].
    apply keepsTurn_fields; reflexivity.
  - destruct (isKey index && buttons); [|exact HP]. apply Hk; [exact HP|].
    eapply keepsTurn_trans; [|apply keepsTurn_playNote].
    eapply keepsTurn_trans; [apply keepsTurn_releaseNote|].
    apply keepsTurn_fields; reflexivity.
  - destruct (isKey index); [|exact HP]. apply Hk; [exact HP|].
    eapply keepsTurn_trans; [apply keepsTurn_releaseNote|].
    apply keepsTurn_fields; reflexivity.
  - destruct (lastKeyPressed s); [|exact HP]. apply Hk; [exact HP|].
    eapply keepsTurn_trans; [apply keepsTurn_releaseNote|].
    apply keepsTurn_fields; reflexivity.
  - apply Hk; [exact HP|]. apply keepsTurn_aiToggle_change.
  - destruct (findTimer id s) as [t|] eqn:E; [|exact HP].
    destruct (Z.leb_spec (dueTime t) (clock s)) as [Hdue|_]; [|exact HP].
    apply findTimer_Some in E as [Ht Hid].
    pose proof (keepsTurn_clearTimeout (Some id) s) as Hc.
    destruct (callback t) eqn:Hcb; simpl.
    + rewrite triggerAIResponse_skip.
      * apply Hk; assumption.
      * right. right. simpl. exact (pu_playing _ _ HP).
    + apply Hk; [exact HP|].
      eapply keepsTurn_trans; [exact Hc|apply keepsTurn_playGenerated].
    + pose proof (pu_deadline _ _ HP t Ht Hcb). lia.
    + apply Hk; [exact HP|].
      eapply keepsTurn_trans; [exact Hc|apply keepsTurn_fields; reflexivity].
    + apply Hk; assumption.
  - rewrite (pu_answered _ _ HP). exact HP.
  - rewrite (pu_answered _ _ HP). exact HP.
  - destruct HP. constructor; assumption.
Qed.

Lemma PlayingUntil_run (deadline : Z) (es : list Event) (s : State) :
  PlayingUntil deadline s → clock (run es s) < deadline →
  PlayingUntil deadline (run es s).
Proof.
  revert s. induction es as [|e es IH]; intros s HP Hclock; [exact HP|].
  simpl in *. pose proof (clock_step e s). pose proof (clock_run es (step e s)).
  apply IH; [|exact Hclock]. apply PlayingUntil_step; [exact HP|lia].
Qed.

Lemma resets_playbackTimers (firstId : nat) (now : Z) (result : list GenNote) :
  resets (playbackTimers firstId now result) = [].
Proof.
  apply filter_nil_iff. intros t Ht Hcb.
  apply list_elem_of_lookup in Ht as [i Hi].
  unfold playbackTimers in Hi. rewrite list_lookup_imap in Hi.
  destruct (result !! i); [|discriminate]. injection Hi as <-. discriminate.
Qed.

Lemma totalDuration_spec (result : list GenNote) :
  let total := totalDuration result in
  0 ≤ total ∧
  (∀ note, note ∈ result → quantizedEndStep note * 125 ≤ total) ∧
  (total = 0 ∨ ∃ note, note ∈ result ∧ total = quantizedEndStep note * 125).
Proof. exact (trackDuration_fold result 0). Qed.

(** The state in which the end-of-turn timer runs. *)
Lemma fire_reset (t : Timer) (s : State) :
  Inv s → t ∈ timers s → callback t = CbResetTurn → dueTime t ≤ clock s →
  let s' := step (EvTimer (timer_id t)) s in
  isAIPlaying s' = false ∧ userNotes s' = [] ∧ keyboardListening s' = true ∧
  clock s' = clock s.
Proof.
  intros HI Ht Hcb Hdue. simpl.
  rewrite (findTimer_of_elem t s HI Ht).
  destruct (Z.leb_spec (dueTime t) (clock s)); [|lia].
  rewrite Hcb. repeat split.
Qed.

(** C3 (amended).  When the model answers, the end of the turn is put on a
    timer whose delay is maxEndOffsetMs + 500 ms, maxEndOffsetMs being the
    greatest of 0 and quantizedEndStep * 125 over the answer's notes; it is
    the only such timer.  In every run from there, as long as the clock is
    below that moment the AI turn is still on and the keyboard still off;
    once the moment is reached the timer can run, and then the buffer is
    empty, the turn over and the keyboard back.  An answer without notes has
    maxEndOffsetMs = 0, so its turn ends after 500 ms; a greatest end offset
    of 1000 ms gives 1500 ms. *)
Theorem C3_turn_ends_after_settle (result : list GenNote) (es : list Event) (s : State) :
  reachable s → awaitingModel s = true →
  let total := totalDuration result in
  let s1 := step (EvModelResolve result) s in
  let endTimer := {| timer_id := nextTimerId s + length result; armedAt := clock s;
                     delay := total + 500; callback := CbResetTurn |} in
  (0 ≤ total ∧
   (∀ note, note ∈ result → quantizedEndStep note * 125 ≤ total) ∧
   (total = 0 ∨ ∃ note, note ∈ result ∧ total = quantizedEndStep note * 125)) ∧
  resets (timers s1) = [endTimer] ∧
  dueTime endTimer = clock s + total + 500 ∧
  (clock (run es s1) < clock s + total + 500 →
   isAIPlaying (run es s1) = true ∧ keyboardListening (run es s1) = false) ∧
  (let s2 := run [EvElapse (Z.to_N (total + 500)); EvTimer (timer_id endTimer)] s1 in
   clock s2 = clock s + total + 500 ∧
   isAIPlaying s2 = false ∧ userNotes s2 = [] ∧ keyboardListening s2 = true) ∧
  (result = [] → delay endTimer = 500) ∧
  (total = 1000 → delay endTimer = 1500).
Proof.
  intros Hreach Hw total s1 endTimer.
  pose proof (Inv_reachable s Hreach) as HI.
  destruct (Inv_awaiting s HI Hw) as [Hon Hr].
  pose proof (totalDuration_spec result) as Htot. fold total in Htot.
  pose proof (proj1 Htot) as Hge.
  assert (Hs1 : s1 = resumeWithResult result s) by (subst s1; simpl; rewrite Hw; reflexivity).
  assert (Hresets : resets (timers s1) = [endTimer]).
  { rewrite Hs1, resumeWithResult_eq. simpl. unfold resets in *.
    rewrite !filter_app, Hr. fold (resets (playbackTimers (nextTimerId s) (clock s) result)).
    rewrite resets_playbackTimers. reflexivity. }
  assert (Hdue : dueTime endTimer = clock s + total + 500).
  { unfold dueTime, endTimer; cbn [armedAt delay]. rewrite Z.max_r by lia. lia. }
  assert (HI1 : Inv s1) by (subst s1; apply Inv_step; exact HI).
  assert (Hin : endTimer ∈ timers s1).
  { assert (H : endTimer ∈ resets (timers s1)) by (rewrite Hresets; left).
    apply list_elem_of_filter in H as [_ H]. exact H. }
  split; [exact Htot|]. split; [exact Hresets|]. split; [exact Hdue|].
  split; [|split; [|split]].
  - intros Hclock.
    assert (HP : PlayingUntil (clock s + total + 500) s1).
    { constructor.
      - rewrite Hs1, resumeWithResult_eq. exact Hon.
      - rewrite Hs1, resumeWithResult_eq. reflexivity.
      - rewrite Hs1, resumeWithResult_eq. simpl.
        rewrite (inv_keyboard s HI), Hon. reflexivity.
      - intros t Ht Hcb.
        assert (H : t ∈ resets (timers s1)) by (apply list_elem_of_filter; auto).
        rewrite Hresets in H. apply list_elem_of_singleton in H as ->. lia. }
    pose proof (PlayingUntil_run _ es s1 HP Hclock) as [].
    split; assumption.
  - assert (Hc1 : clock s1 = clock s) by (rewrite Hs1, resumeWithResult_eq; reflexivity).
    set (s1' := step (EvElapse (Z.to_N (total + 500))) s1).
    assert (HI1' : Inv s1') by (apply Inv_step; exact HI1).
    assert (Hc1' : clock s1' = clock s + total + 500).
    { subst s1'. cbn [step set_clock clock]. rewrite Hc1, Z2N.id by lia. lia. }
    destruct (fire_reset endTimer s1' HI1' Hin eq_refl) as (H1 & H2 & H3 & H4); [lia|].
    change (run [EvElapse (Z.to_N (total + 500)); EvTimer (timer_id endTimer)] s1)
      with (step (EvTimer (timer_id endTimer)) s1').
    cbv zeta. rewrite H1, H2, H3, H4, Hc1'. repeat split.
  - intros ->. reflexivity.
  - intros H. simpl. rewrite H. reflexivity.
Qed.

(** The one event that starts an AI turn: a due inactivity timer running
    while the toggle is on, the buffer not empty and no turn under way. *)
Definition triggerFires (e : Event) (s : State) : Prop :=
  ∃ (id : nat) (t : Timer),
    e = EvTimer id ∧ findTimer id s = Some t ∧ callback t = CbTriggerAI ∧
    dueTime t ≤ clock s ∧
    aiEnabled s = true ∧ userNotes s ≠ [] ∧ isAIPlaying s = false.

(** Every other event starts no turn and calls no model. *)
Definition startsNothing (e : Event) (s : State) : Prop :=
  (isAIPlaying (step e s) = true → isAIPlaying s = true) ∧
  modelCalls (step e s) = modelCalls s ∧
  turnsStarted (step e s) = turnsStarted s.

Lemma startsNothing_keeps (e : Event) (s : State) :
  keepsTurn s (step e s) → startsNothing e s.
Proof.
  intros []. split; [congruence|]. split; assumption.
Qed.

Lemma counts_emit (e : Effect) (s : State) :
  isModelCall e = false → isTurnStart e = false →
  modelCalls (emit e s) = modelCalls s ∧ turnsStarted (emit e s) = turnsStarted s.
Proof.
  intros H1 H2. rewrite modelCalls_emit, turnsStarted_emit, H1, H2. lia.
Qed.

Lemma counts_resetTurn (s : State) :
  modelCalls (resetTurn s) = modelCalls s ∧ turnsStarted (resetTurn s) = turnsStarted s.
Proof.
  unfold resetTurn, setStatus. cbv zeta.
  set (s0 := enableKeyboard (set_isAIPlaying false (set_userNotes [] s))).
  change (modelCalls s) with (modelCalls s0).
  change (turnsStarted s) with (turnsStarted s0).
  destruct (aiEnabled s0); apply counts_emit; reflexivity.
Qed.

Lemma counts_catchAIError (s : State) :
  modelCalls (catchAIError s) = modelCalls s ∧
  turnsStarted (catchAIError s) = turnsStarted s.
Proof.
  unfold catchAIError, setStatus. cbv zeta.
  set (s0 := enableKeyboard (set_userNotes []
               (set_isAIPlaying false (emit EffConsoleError s)))).
  destruct (counts_emit (EffStatus "AI encountered an error. Try again!") s0
              eq_refl eq_refl) as [-> ->].
  change (modelCalls s0) with (modelCalls (emit EffConsoleError s)).
  change (turnsStarted s0) with (turnsStarted (emit EffConsoleError s)).
  apply counts_emit; reflexivity.
Qed.

Lemma step_timer (id : nat) (t : Timer) (s : State) :
  findTimer id s = Some t → dueTime t ≤ clock s →
  step (EvTimer id) s = runCallback (callback t) (clearTimeout (Some id) s).
Proof.
  intros E Hdue. cbn [step]. rewrite E.
  destruct (Z.leb_spec (dueTime t) (clock s)); [reflexivity|lia].
Qed.

Lemma step_timer_idle (id : nat) (s : State) :
  (∀ t, findTimer id s = Some t → clock s < dueTime t) → step (EvTimer id) s = s.
Proof.
  intros H. cbn [step]. destruct (findTimer id s) as [t|]; [|reflexivity].
  specialize (H t eq_refl). destruct (Z.leb_spec (dueTime t) (clock s)); [lia|reflexivity].
Qed.

Lemma keepsTurn_input (e : Event) (s : State) :
  match e with
  | EvTimer _ | EvModelResolve _ | EvModelReject | EvElapse _ => True
  | _ => keepsTurn s (step e s)
  end.
Proof.
  destruct e; try exact I; cbn [step].
  - destruct (keyboardListening s); [|apply keepsTurn_refl]. unfold handleKeyDown.
    destruct (KEY_MAP !! key); [|apply keepsTurn_refl].
    destruct repeat; [apply keepsTurn_refl|apply keepsTurn_playNote].
  - destruct (keyboardListening s); [|apply keepsTurn_refl]. unfold handleKeyUp.
    destruct (KEY_MAP !! key); [|apply keepsTurn_refl]. apply keepsTurn_releaseNote.
  - destruct (isKey index); [|apply keepsTurn_refl].
    eapply keepsTurn_trans; [|apply keepsTurn_playNote].
    apply keepsTurn_fields; reflexivity.
  - destruct (isKey index && buttons); [|apply keepsTurn_refl].
    eapply keepsTurn_trans; [|apply keepsTurn_playNote].
    eapply keepsTurn_trans; [apply keepsTurn_releaseNote|].
    apply keepsTurn_fields; reflexivity.
  - destruct (isKey index); [|apply keepsTurn_refl].
    eapply keepsTurn_trans; [apply keepsTurn_releaseNote|].
    apply keepsTurn_fields; reflexivity.
  - destruct (lastKeyPressed s); [|apply keepsTurn_refl].
    eapply keepsTurn_trans; [apply keepsTurn_releaseNote|].
    apply keepsTurn_fields; reflexivity.
  - apply keepsTurn_aiToggle_change.
Qed.

Lemma runCallback_trigger (s : State) : runCallback CbTriggerAI s = triggerAIResponse s.
Proof. reflexivity. Qed.

Lemma runCallback_play (note : GenNote) (d : Q) (s : State) :
  runCallback (CbPlayGenerated note d) s = playGenerated note d s.
Proof. reflexivity. Qed.

Lemma runCallback_reset (s : State) : runCallback CbResetTurn s = resetTurn s.
Proof. reflexivity. Qed.

Lemma step_cases_timer (id : nat) (s : State) :
  triggerFires (EvTimer id) s ∨ startsNothing (EvTimer id) s.
Proof.
  destruct (findTimer id s) as [t|] eqn:E.
  2: { right. apply startsNothing_keeps. rewrite step_timer_idle; [apply keepsTurn_refl|].
       intros t Ht. congruence. }
  destruct (Z.le_gt_cases (dueTime t) (clock s)) as [Hdue|Hdue].
  2: { right. apply startsNothing_keeps. rewrite step_timer_idle; [apply keepsTurn_refl|].
       intros t' Ht'. assert (t' = t) as -> by congruence. lia. }
  pose proof (keepsTurn_clearTimeout (Some id) s) as Hc.
  pose proof (step_timer id t s E Hdue) as Hstep.
  destruct (callback t) as [|note d| |midi|midi] eqn:Hcb.
  - rewrite runCallback_trigger in Hstep.
    destruct (guardPasses (clearTimeout (Some id) s)) eqn:G.
    + left. apply guardPasses_iff in G as (Hon & Hne & Hoff).
      exists id, t. repeat split; assumption.
    + right. apply startsNothing_keeps. rewrite Hstep.
      apply guardPasses_false in G. rewrite triggerAIResponse_skip by exact G.
      exact Hc.
  - rewrite runCallback_play in Hstep.
    right. apply startsNothing_keeps. rewrite Hstep.
    eapply keepsTurn_trans; [exact Hc|apply keepsTurn_playGenerated].
  - rewrite runCallback_reset in Hstep.
    right. unfold startsNothing. rewrite Hstep.
    destruct (counts_resetTurn (clearTimeout (Some id) s)) as [-> ->].
    split; [discriminate|]. split; reflexivity.
  - right. apply startsNothing_keeps. rewrite Hstep.
    eapply keepsTurn_trans; [exact Hc|apply keepsTurn_fields; reflexivity].
  - right. apply startsNothing_keeps. rewrite Hstep. exact Hc.
Qed.

Lemma step_cases (e : Event) (s : State) : triggerFires e s ∨ startsNothing e s.
Proof.
  pose proof (keepsTurn_input e s) as Hin.
  destruct e; try (right; apply startsNothing_keeps; exact Hin).
  - apply step_cases_timer.
  - right. unfold startsNothing. cbn [step].
    destruct (awaitingModel s); [|repeat split; auto].
    rewrite resumeWithResult_eq. split; [auto|]. split; reflexivity.
  - right. unfold startsNothing. cbn [step].
    destruct (awaitingModel s); [|repeat split; auto]. unfold resumeWithError.
    destruct (counts_catchAIError (set_awaitingModel false s)) as [-> ->].
    split; [discriminate|]. split; reflexivity.
  - right. unfold startsNothing. repeat split; auto.
Qed.

(** C4.  In every state the page can reach at most one AI turn is under
    way, and [isAIPlaying] says whether one is.  If the toggle is off, the
    buffer empty or a turn already under way, [triggerAIResponse] returns
    the state as it found it, so a due inactivity timer that runs then only
    leaves the queue.  An event that starts a turn, calls the model or
    announces a turn is a due inactivity timer met with the toggle on, a
    non-empty buffer and no turn under way. *)
Theorem C4_single_ai_turn (e : Event) (s : State) :
  reachable s →
  (turnsInFlight s ≤ 1)%nat ∧
  (isAIPlaying s = true ↔ turnsInFlight s = 1%nat) ∧
  (aiEnabled s = false ∨ userNotes s = [] ∨ isAIPlaying s = true →
   triggerAIResponse s = s ∧
   ∀ id t, findTimer id s = Some t → callback t = CbTriggerAI →
     step (EvTimer id) s = s ∨ step (EvTimer id) s = clearTimeout (Some id) s) ∧
  (isAIPlaying s = false → isAIPlaying (step e s) = true → triggerFires e s) ∧
  (modelCalls (step e s) ≠ modelCalls s ∨ turnsStarted (step e s) ≠ turnsStarted s →
   triggerFires e s).
Proof.
  intros Hreach. pose proof (Inv_reachable s Hreach) as HI.
  pose proof (inv_turn s HI) as Hturn.
  split; [destruct (isAIPlaying s); lia|].
  split; [destruct (isAIPlaying s); split; intros; try lia; try congruence|].
  split; [|split].
  - intros Hskip. split; [apply triggerAIResponse_skip; exact Hskip|].
    intros id t E Hcb.
    destruct (Z.le_gt_cases (dueTime t) (clock s)) as [Hdue|Hdue].
    + right. rewrite (step_timer id t s E Hdue), Hcb, runCallback_trigger.
      apply triggerAIResponse_skip. exact Hskip.
    + left. apply step_timer_idle. intros t' E'.
      assert (t' = t) as -> by congruence. lia.
  - intros Hoff Hon. destruct (step_cases e s) as [H|[H _]]; [exact H|].
    apply H in Hon. congruence.
  - intros Hne. destruct (step_cases e s) as [H|(_ & H1 & H2)]; [exact H|].
    destruct Hne; congruence.
Qed.

Lemma modelCalls_turnEntry (s : State) : modelCalls (turnEntry s) = modelCalls s.
Proof.
  unfold modelCalls. rewrite turnEntry_eq. cbn [effects set_effects].
  rewrite !filter_app, !length_app.
  replace (filter isModelCall (releaseOf <$> activeNotes s)) with (@nil Effect).
  - simpl. lia.
  - symmetry. apply filter_nil_iff. intros x Hx.
    apply list_elem_of_fmap in Hx as (m & -> & _). exact id.
Qed.

(** An event that ends an AI turn leaves the buffer empty and the keyboard
    listening. *)
Lemma ends_turn (e : Event) (s : State) :
  isAIPlaying s = true → isAIPlaying (step e s) = false →
  userNotes (step e s) = [] ∧ keyboardListening (step e s) = true.
Proof.
  intros Hon Hoff. pose proof (keepsTurn_input e s) as Hin.
  destruct e;
    try (rewrite (keeps_playing _ _ Hin) in Hoff; congruence).
  - destruct (findTimer id s) as [t|] eqn:E.
    2: { rewrite step_timer_idle in Hoff; [congruence|]. intros t Ht. congruence. }
    destruct (Z.le_gt_cases (dueTime t) (clock s)) as [Hdue|Hdue].
    2: { rewrite step_timer_idle in Hoff; [congruence|].
         intros t' Ht'. assert (t' = t) as -> by congruence. lia. }
    pose proof (keepsTurn_clearTimeout (Some id) s) as Hc.
    rewrite (step_timer id t s E Hdue) in *.
    destruct (callback t) as [|note d| |midi|midi].
    + rewrite runCallback_trigger, triggerAIResponse_skip in Hoff.
      * rewrite (keeps_playing _ _ Hc) in Hoff. congruence.
      * right. right. rewrite (keeps_playing _ _ Hc). exact Hon.
    + rewrite runCallback_play in Hoff.
      rewrite (keeps_playing _ _ (keepsTurn_playGenerated _ _ _)) in Hoff.
      rewrite (keeps_playing _ _ Hc) in Hoff. congruence.
    + split; reflexivity.
    + change (isAIPlaying s = false) in Hoff. congruence.
    + change (isAIPlaying s = false) in Hoff. congruence.
  - cbn [step] in *. destruct (awaitingModel s); [|congruence].
    rewrite resumeWithResult_eq in Hoff. change (isAIPlaying s = false) in Hoff.
    congruence.
  - cbn [step] in *. destruct (awaitingModel s); [|congruence]. split; reflexivity.
  - change (isAIPlaying s = false) in Hoff. congruence.
Qed.

(** C5.  When the model call is rejected the same step ends the turn: no
    timer is created, the clock has not moved, the buffer is empty, the
    keyboard is back and no turn is under way; the same holds when the
    quantizer throws before the call, and then the model is not called.
    Whatever event ends an AI turn leaves the buffer empty and the keyboard
    listening. *)
Theorem C5_failure_returns_to_human (e : Event) (s : State) :
  reachable s →
  (awaitingModel s = true →
   let s' := step EvModelReject s in
   isAIPlaying s' = false ∧ awaitingModel s' = false ∧ turnsInFlight s' = 0%nat ∧
   userNotes s' = [] ∧ keyboardListening s' = true ∧
   timers s' = timers s ∧ clock s' = clock s) ∧
  (guardPasses s = true →
   quantizeNoteSequence (unquantizedSequence (userNotes s)) 4 = None →
   let s' := triggerAIResponse s in
   isAIPlaying s' = false ∧ awaitingModel s' = false ∧ turnsInFlight s' = 0%nat ∧
   userNotes s' = [] ∧ keyboardListening s' = true ∧
   timers s' = timers s ∧ clock s' = clock s ∧ modelCalls s' = modelCalls s) ∧
  (isAIPlaying s = true → isAIPlaying (step e s) = false →
   userNotes (step e s) = [] ∧ keyboardListening (step e s) = true).
Proof.
  intros Hreach. pose proof (Inv_reachable s Hreach) as HI.
  split; [|split].
  - intros Hw. destruct (Inv_awaiting s HI Hw) as [_ Hr].
    cbn [step]. rewrite Hw. cbv zeta. unfold turnsInFlight.
    change (timers (resumeWithError s)) with (timers s). rewrite Hr.
    repeat split.
  - intros G Hnone. apply guardPasses_iff in G as (Hon & Hne & Hoff).
    destruct (Inv_idle s HI Hoff) as [Hw Hr].
    cbv zeta. rewrite triggerAIResponse_pass, Hnone by assumption.
    destruct (counts_catchAIError (turnEntry s)) as [Hcalls _].
    rewrite Hcalls, modelCalls_turnEntry. unfold turnsInFlight.
    rewrite turnEntry_eq.
    change (timers (catchAIError _)) with (timers s).
    change (awaitingModel (catchAIError _)) with (awaitingModel s).
    rewrite Hr, Hw. repeat split.
  - apply ends_turn.
Qed.

Lemma disabled_step (e : Event) (s : State) :
  aiEnabled s = false → e ≠ EvToggleChange true →
  aiEnabled (step e s) = false ∧ startsNothing e s.
Proof.
  intros Hoff Hne. split.
  - rewrite aiEnabled_step. destruct e; try exact Hoff.
    destruct checked; congruence.
  - destruct (step_cases e s) as [(id & t & _ & _ & _ & _ & Hon & _)|H]; [congruence|exact H].
Qed.

Lemma disabled_run (es : list Event) (s : State) :
  aiEnabled s = false → Forall (λ e, e ≠ EvToggleChange true) es →
  aiEnabled (run es s) = false ∧
  modelCalls (run es s) = modelCalls s ∧
  turnsStarted (run es s) = turnsStarted s ∧
  (isAIPlaying s = false → isAIPlaying (run es s) = false).
Proof.
  revert s. induction es as [|e es IH]; intros s Hoff Hall; [auto|].
  apply Forall_cons in Hall as [He Hall].
  destruct (disabled_step e s Hoff He) as (Hoff' & Hplay & Hcalls & Hstarts).
  destruct (IH (step e s) Hoff' Hall) as (H1 & H2 & H3 & H4).
  cbn [run foldl] in *. fold (run es (step e s)).
  split; [exact H1|]. split; [congruence|]. split; [congruence|].
  intros Hidle. apply H4. destruct (isAIPlaying (step e s)); [|reflexivity].
  rewrite Hplay in Hidle by reflexivity. discriminate.
Qed.

(** The state in which a generated note's timer runs. *)
Lemma fire_play (t : Timer) (note : GenNote) (d : Q) (s : State) :
  Inv s → t ∈ timers s → callback t = CbPlayGenerated note d → dueTime t ≤ clock s →
  ∃ (m : Z) (index : nat),
    closestMidi (gen_pitch note) = Some m ∧ MIDI_NUMS !! index = Some m ∧
    effects (step (EvTimer (timer_id t)) s) =
    effects s ++ [EffTriggerAttackRelease (NOTES !! index) d].
Proof.
  intros HI Ht Hcb Hdue.
  rewrite (step_timer (timer_id t) t s (findTimer_of_elem t s HI Ht) Hdue).
  rewrite Hcb, runCallback_play.
  exact (playGenerated_plays note d (clearTimeout (Some (timer_id t)) s)).
Qed.

Lemma timers_toggle_off (s : State) :
  timers (step (EvToggleChange false) s) = timers (clearTimeout (inactivityTimer s) s).
Proof. destruct s as [? ? ? [i|] ? ? ? ? ? ? ? ? ?]; reflexivity. Qed.

(** C6.  Switching the toggle off changes neither the turn flags nor any
    timer other than the inactivity timer, which it cancels.  In every run
    from there that does not switch the toggle back on, the toggle stays
    off, the model is not called and no turn is started, whatever is played
    meanwhile; if no turn was under way none is afterwards.  Timers of the
    turn in flight still run when due: a note's timer plays its note, the
    end-of-turn timer ends the turn. *)
Theorem C6_disable_finishes_turn_then_stops (es : list Event) (s : State) :
  reachable s → Forall (λ e, e ≠ EvToggleChange true) es →
  let s' := step (EvToggleChange false) s in
  let s2 := run es s' in
  (isAIPlaying s' = isAIPlaying s ∧ awaitingModel s' = awaitingModel s ∧
   aiEnabled s' = false ∧ triggers (timers s') = [] ∧
   ∀ t, t ∈ timers s → callback t ≠ CbTriggerAI → t ∈ timers s') ∧
  (aiEnabled s2 = false ∧ modelCalls s2 = modelCalls s' ∧
   turnsStarted s2 = turnsStarted s' ∧
   (isAIPlaying s' = false → isAIPlaying s2 = false)) ∧
  (∀ t note d, t ∈ timers s2 → callback t = CbPlayGenerated note d →
     dueTime t ≤ clock s2 →
     ∃ (m : Z) (index : nat),
       closestMidi (gen_pitch note) = Some m ∧ MIDI_NUMS !! index = Some m ∧
       effects (step (EvTimer (timer_id t)) s2) =
       effects s2 ++ [EffTriggerAttackRelease (NOTES !! index) d]) ∧
  (∀ t, t ∈ timers s2 → callback t = CbResetTurn → dueTime t ≤ clock s2 →
     let s3 := step (EvTimer (timer_id t)) s2 in
     isAIPlaying s3 = false ∧ userNotes s3 = [] ∧ keyboardListening s3 = true).
Proof.
  intros Hreach Hall s' s2. pose proof (Inv_reachable s Hreach) as HI.
  assert (HI' : Inv s') by (apply Inv_step; exact HI).
  assert (Hoff : aiEnabled s' = false) by (subst s'; rewrite aiEnabled_step; reflexivity).
  assert (HI2 : Inv s2).
  { apply Inv_reachable. subst s2 s'. apply reachable_run. constructor. exact Hreach. }
  pose proof (keepsTurn_aiToggle_change false s) as Hk.
  split; [|split; [|split]].
  - split; [exact (keeps_playing _ _ Hk)|]. split; [exact (keeps_awaiting _ _ Hk)|].
    split; [exact Hoff|]. split; [exact (inv_disabled s' HI' Hoff)|].
    intros t Ht Hcb. unfold s'. rewrite (timers_toggle_off s).
    destruct (inactivityTimer s) as [i|] eqn:E; [|exact Ht].
    apply list_elem_of_filter. split; [|exact Ht].
    intros Hid. apply Hcb. apply (inv_trigger s HI t Ht). rewrite E, Hid. reflexivity.
  - exact (disabled_run es s' Hoff Hall).
  - intros t note d Ht Hcb Hdue. exact (fire_play t note d s2 HI2 Ht Hcb Hdue).
  - intros t Ht Hcb Hdue.
    destruct (fire_reset t s2 HI2 Ht Hcb Hdue) as (H1 & H2 & H3 & _).
    cbv zeta. auto.
Qed.

Lemma releaseOf_name (m : Z) :
  m ∈ MIDI_NUMS →
  ∃ (index : nat) (name : string),
    MIDI_NUMS !! index = Some m ∧ NOTES !! index = Some name ∧
    releaseOf m = EffTriggerRelease (Some name).
Proof.
  intros Hm. apply list_elem_of_lookup in Hm as [i Hi].
  pose proof (proj1 (MIDI_NUMS_lookup i m) Hi) as [Hlt _].
  destruct (NOTES_lookup i Hlt) as [name Hname].
  exists i, name. split; [exact Hi|]. split; [exact Hname|].
  unfold releaseOf. rewrite (indexOf_MIDI_NUMS i m Hi). cbn [mbind option_bind].
  rewrite Hname. reflexivity.
Qed.

(** C8.  In every reachable state with an AI turn under way the set of
    sustained notes is empty.  When [triggerAIResponse] starts a turn, the
    first thing it emits is one release call per sustained pitch, by the
    name of that pitch's key and in the order the keys were pressed; it
    leaves the set empty and has created no timer by then. *)
Theorem C8_active_notes_released (s : State) :
  reachable s →
  (isAIPlaying s = true → activeNotes s = []) ∧
  (∀ m, m ∈ activeNotes s →
     ∃ (index : nat) (name : string),
       MIDI_NUMS !! index = Some m ∧ NOTES !! index = Some name ∧
       releaseOf m = EffTriggerRelease (Some name)) ∧
  (guardPasses s = true →
   let s' := triggerAIResponse s in
   (∃ rest, effects s' = effects s ++ (releaseOf <$> activeNotes s) ++ rest) ∧
   activeNotes s' = [] ∧ timers s' = timers s ∧ nextTimerId s' = nextTimerId s).
Proof.
  intros Hreach. pose proof (Inv_reachable s Hreach) as HI.
  split; [exact (inv_active s HI)|]. split.
  - intros m Hm. apply releaseOf_name. exact (inv_midi s HI m Hm).
  - intros G. apply guardPasses_iff in G as (Hon & Hne & Hoff).
    cbv zeta. rewrite triggerAIResponse_pass by assumption.
    destruct (quantizeNoteSequence _ 4) as [q|]; rewrite turnEntry_eq.
    + split; [|repeat split].
      exists [EffStatus "AI is listening and jamming back...";
              EffContinueSequence q 50 (11 # 10)].
      cbn [effects set_awaitingModel emit set_effects].
      rewrite <- !app_assoc. reflexivity.
    + split; [|repeat split].
      exists [EffStatus "AI is listening and jamming back..."; EffConsoleError;
              EffStatus "AI encountered an error. Try again!"].
      unfold catchAIError, setStatus, emit.
      cbn [effects set_effects enableKeyboard set_keyboardListening set_userNotes
           set_isAIPlaying].
      rewrite <- !app_assoc. reflexivity.
Qed.

Lemma one_trigger (s : State) : reachable s → (length (triggers (timers s)) ≤ 1)%nat.
Proof. intros H. exact (inv_one_trigger s (Inv_reachable s H)). Qed.

(** The timer armed by a note-off in state [s]. *)
Definition inactivityTimerOf (s : State) : Timer :=
  {| timer_id := nextTimerId s; armedAt := clock s;
     delay := INACTIVITY_THRESHOLD; callback := CbTriggerAI |}.

(** [releaseNote] outside an AI turn, by what is left held afterwards. *)
Lemma releaseNote_timers (index : option nat) (s : State) :
  Inv s → isAIPlaying s = false →
  let s' := releaseNote index s in
  (activeNotes s' = [] → aiEnabled s = true →
   timers s' = timers (clearTimeout (inactivityTimer s) s) ++ [inactivityTimerOf s] ∧
   inactivityTimer s' = Some (nextTimerId s)) ∧
  (activeNotes s' ≠ [] ∨ aiEnabled s = false →
   timers s' = timers s ∧ inactivityTimer s' = inactivityTimer s).
Proof.
  intros HI Hoff. cbv zeta. unfold releaseNote. rewrite Hoff. cbv zeta.
  match goal with
  | |- context [if (length (activeNotes ?x) =? 0)%nat && _ then _ else _] => set (s1 := x)
  end.
  assert (H1 : timers s1 = timers s ∧ inactivityTimer s1 = inactivityTimer s ∧
               aiEnabled s1 = aiEnabled s ∧ nextTimerId s1 = nextTimerId s ∧
               clock s1 = clock s).
  { subst s1. destruct (index ≫= (MIDI_NUMS !!.)) as [m|]; [|repeat split].
    destruct (bool_decide _); repeat split. }
  destruct H1 as (Ht & Hi & He & Hn & Hc). clearbody s1.
  assert (Hact : ∀ x, activeNotes (armInactivityTimer (clearTimeout (inactivityTimer s1) x))
                      = activeNotes x)
    by (intros x; destruct (inactivityTimer s1); reflexivity).
  destruct (activeNotes s1) as [|k l] eqn:Ea; cbn [length Nat.eqb andb].
  - rewrite He. destruct (aiEnabled s) eqn:Hon.
    + split.
      * intros _ _. rewrite Hi. unfold inactivityTimerOf. rewrite <- Hn, <- Hc.
        destruct (inactivityTimer s); cbn; rewrite <- ?Ht; split; reflexivity.
      * intros [Hne|Hf]; [|discriminate]. rewrite Hact, Ea in Hne. congruence.
    + split; [intros _ Hf; discriminate|]. intros _. split; assumption.
  - split; [intros Hnil; rewrite Ea in Hnil; discriminate|].
    intros _. split; assumption.
Qed.

(** C9 (amended).  A note-off during an AI turn does nothing.  Otherwise it
    arms the 2000 ms inactivity timer exactly when no key is left held and
    the toggle is on, whether or not a note has been recorded: the pending
    inactivity timer, if any, is cancelled, the new one is the only one
    pending, and timers of other kinds are untouched; in the other case no
    timer changes.  In every reachable state at most one inactivity timer
    is pending.  An inactivity timer that runs on an empty buffer leaves the
    state as it is. *)
Theorem C9_release_arms_timer (index : option nat) (s : State) :
  reachable s →
  let s' := releaseNote index s in
  (isAIPlaying s = true → s' = s) ∧
  (isAIPlaying s = false → activeNotes s' = [] → aiEnabled s = true →
   triggers (timers s') = [inactivityTimerOf s] ∧
   delay (inactivityTimerOf s) = 2000 ∧
   inactivityTimer s' = Some (nextTimerId s) ∧
   ∀ t, callback t ≠ CbTriggerAI → (t ∈ timers s' ↔ t ∈ timers s)) ∧
  (isAIPlaying s = false → activeNotes s' ≠ [] ∨ aiEnabled s = false →
   timers s' = timers s ∧ inactivityTimer s' = inactivityTimer s) ∧
  (length (triggers (timers s)) ≤ 1)%nat ∧
  (length (triggers (timers s')) ≤ 1)%nat ∧
  (userNotes s = [] → triggerAIResponse s = s).
Proof.
  intros Hreach s'. pose proof (Inv_reachable s Hreach) as HI.
  split; [intros Hon; apply releaseNote_blocked; exact Hon|].
  split; [|split; [|split; [|split]]].
  - intros Hoff Hnil Hon.
    destruct (releaseNote_timers index s HI Hoff) as [Harm _].
    destruct (Harm Hnil Hon) as [Ht Hi]. fold s' in Ht, Hi.
    destruct (clear_inactivity s HI) as [_ Hnone].
    split; [|split; [reflexivity|split; [exact Hi|]]].
    + rewrite Ht. unfold triggers in *. rewrite filter_app, Hnone. reflexivity.
    + intros t Hcb. rewrite Ht, elem_of_app, list_elem_of_singleton. split.
      * intros [Hin|Heq]; [|subst t; contradiction].
        destruct (inactivityTimer s); [|exact Hin].
        apply list_elem_of_filter in Hin as [_ Hin]. exact Hin.
      * intros Hin. left. destruct (inactivityTimer s) as [i|] eqn:E; [|exact Hin].
        apply list_elem_of_filter. split; [|exact Hin].
        intros Hid. apply Hcb. apply (inv_trigger s HI t Hin). rewrite E, Hid. reflexivity.
  - intros Hoff Hcase.
    destruct (releaseNote_timers index s HI Hoff) as [_ Hkeep]. exact (Hkeep Hcase).
  - exact (inv_one_trigger s HI).
  - apply inv_one_trigger. apply Inv_releaseNote. exact HI.
  - intros Hnil. apply triggerAIResponse_skip. right. left. exact Hnil.
Qed.

(** C10.  The toggle's handler, run with the box checked, is: switch the
    flag on, empty the buffer, set the status text.  The test that guards
    its arming branch is false in the state where it is evaluated, so the
    handler creates no timer and leaves [inactivityTimer] alone; and when
    the toggle was off before, no inactivity timer is pending afterwards. *)
Theorem C10_enable_clears_buffer (s : State) :
  reachable s →
  let s' := step (EvToggleChange true) s in
  let tested := setStatus "AI is ON. Play a melody then wait for the AI to respond."
                  (set_userNotes [] (set_aiEnabled true s)) in
  canArmOnEnable tested = false ∧
  s' = tested ∧
  aiEnabled s' = true ∧ userNotes s' = [] ∧
  timers s' = timers s ∧ nextTimerId s' = nextTimerId s ∧
  inactivityTimer s' = inactivityTimer s ∧
  (aiEnabled s = false → triggers (timers s') = []).
Proof.
  intros Hreach s' tested. pose proof (Inv_reachable s Hreach) as HI.
  assert (Hs' : s' = tested) by (subst s' tested; cbn [step]; apply aiToggle_change_on).
  split.
  { subst tested. unfold canArmOnEnable. cbn. apply andb_false_r. }
  split; [exact Hs'|]. rewrite Hs'. subst tested.
  repeat split. intros Hoff. exact (inv_disabled s HI Hoff).
Qed.

End JamBuddy.

(** ** Worked scenarios

    The scenarios run the page with [exampleQuantizer] in place of
    Magenta's quantizer. *)

(** "a" pressed and released, 2 s of silence, the inactivity timer runs:
    the model has been called and has not answered yet. *)
Definition awaitingAnswer : @State (list (Z * Z * Z)) :=
  run exampleQuantizer
    [EvKeyDown "a" false 0%Q 0%Q; EvKeyUp "a"; EvElapse 2000; EvTimer 1] initial.

(** The answer of the spec's scenario: two notes of four steps each. *)
Definition twoNotes : list GenNote :=
  [{| gen_pitch := inject_Z 62; quantizedStartStep := 0; quantizedEndStep := 4 |};
   {| gen_pitch := inject_Z 65; quantizedStartStep := 4; quantizedEndStep := 8 |}].

(** "a" and "d" played, then 2 s of silence: the timer is due. *)
Definition timerDue : @State (list (Z * Z * Z)) :=
  run exampleQuantizer
    [EvKeyDown "a" false 0%Q 0%Q; EvKeyUp "a";
     EvKeyDown "d" false 1%Q 1%Q; EvKeyUp "d"; EvElapse 2000] initial.

(** "a" is held while the toggle goes off and on again: a key is down and
    the buffer is empty. *)
Definition heldWithEmptyBuffer : @State (list (Z * Z * Z)) :=
  run exampleQuantizer
    [EvKeyDown "a" false 0%Q 0%Q; EvToggleChange false; EvToggleChange true] initial.

Lemma C1_request_sequence_witness :
  guardPasses timerDue = true ∧
  exampleQuantizer (unquantizedSequence (userNotes timerDue)) 4
    = Some [(60, 0, 4); (64, 4, 8)] ∧
  length (notes (unquantizedSequence (userNotes timerDue))) = 2%nat ∧
  effects (triggerAIResponse exampleQuantizer timerDue) =
    effects timerDue ++
    [EffStatus "AI is listening and jamming back...";
     EffContinueSequence [(60, 0, 4); (64, 4, 8)] 50 (11 # 10)].
Proof.
  assert (G : guardPasses timerDue = true) by (vm_compute; reflexivity).
  assert (Hq : exampleQuantizer (unquantizedSequence (userNotes timerDue)) 4
               = Some [(60, 0, 4); (64, 4, 8)]) by (vm_compute; reflexivity).
  destruct (C1_request_sequence exampleQuantizer timerDue _ G Hq)
    as (_ & Hlen & _ & _ & Heff & _).
  split; [exact G|]. split; [exact Hq|]. split; [exact Hlen|]. exact Heff.
Defined.

Lemma C7_playback_offset_duration_witness :
  awaitingModel awaitingAnswer = true ∧
  twoNotes !! 1%nat =
    Some {| gen_pitch := inject_Z 65; quantizedStartStep := 4; quantizedEndStep := 8 |} ∧
  {| timer_id := 3; armedAt := 2000; delay := 500;
     callback := CbPlayGenerated
       {| gen_pitch := inject_Z 65; quantizedStartStep := 4; quantizedEndStep := 8 |}
       (500 # 1000) |}
  ∈ timers (step exampleQuantizer (EvModelResolve twoNotes) awaitingAnswer).
Proof.
  assert (Hw : awaitingModel awaitingAnswer = true) by (vm_compute; reflexivity).
  assert (Hi : twoNotes !! 1%nat =
    Some {| gen_pitch := inject_Z 65; quantizedStartStep := 4; quantizedEndStep := 8 |})
    by reflexivity.
  split; [exact Hw|]. split; [exact Hi|].
  exact (proj1 (C7_playback_offset_duration exampleQuantizer twoNotes 1 _
                  awaitingAnswer Hw Hi)).
Defined.

Lemma C3_turn_ends_after_settle_witness :
  reachable exampleQuantizer awaitingAnswer ∧ awaitingModel awaitingAnswer = true ∧
  totalDuration twoNotes = 1000 ∧
  let s1 := step exampleQuantizer (EvModelResolve twoNotes) awaitingAnswer in
  isAIPlaying (run exampleQuantizer [EvElapse 1499; EvTimer 4] s1) = true ∧
  isAIPlaying (run exampleQuantizer [EvElapse 1500; EvTimer 4] s1) = false.
Proof.
  assert (Hr : reachable exampleQuantizer awaitingAnswer)
    by (apply reachable_run, reachable_initial).
  assert (Hw : awaitingModel awaitingAnswer = true) by (vm_compute; reflexivity).
  split; [exact Hr|]. split; [exact Hw|]. split; [reflexivity|].
  destruct (C3_turn_ends_after_settle exampleQuantizer twoNotes
              [EvElapse 1499; EvTimer 4] awaitingAnswer Hr Hw)
    as (_ & _ & _ & Hbefore & Hat & _).
  split.
  - apply Hbefore. vm_compute. reflexivity.
  - exact (proj1 (proj2 Hat)).
Defined.

(** C3 as stated fails: on an answer without notes the turn is not ended at
    once; the end-of-turn timer waits 500 ms and cannot run before. *)
Lemma C3_counterexample :
  let s1 := step exampleQuantizer (EvModelResolve []) awaitingAnswer in
  reachable exampleQuantizer awaitingAnswer ∧ awaitingModel awaitingAnswer = true ∧
  isAIPlaying s1 = true ∧ keyboardListening s1 = false ∧
  timers s1 = [{| timer_id := 2; armedAt := 2000; delay := 500;
                  callback := CbResetTurn |}] ∧
  step exampleQuantizer (EvTimer 2) s1 = s1 ∧
  isAIPlaying (run exampleQuantizer [EvElapse 499; EvTimer 2] s1) = true.
Proof.
  split; [apply reachable_run, reachable_initial|].
  vm_compute. repeat split; reflexivity.
Qed.

Lemma C4_single_ai_turn_witness :
  reachable exampleQuantizer awaitingAnswer ∧
  isAIPlaying awaitingAnswer = true ∧
  (turnsInFlight awaitingAnswer ≤ 1)%nat ∧
  triggerAIResponse exampleQuantizer awaitingAnswer = awaitingAnswer.
Proof.
  assert (Hr : reachable exampleQuantizer awaitingAnswer)
    by (apply reachable_run, reachable_initial).
  assert (Hon : isAIPlaying awaitingAnswer = true) by (vm_compute; reflexivity).
  destruct (C4_single_ai_turn exampleQuantizer (EvTimer 1) awaitingAnswer Hr)
    as (Hle & _ & Hskip & _).
  split; [exact Hr|]. split; [exact Hon|]. split; [exact Hle|].
  exact (proj1 (Hskip (or_intror (or_intror Hon)))).
Defined.

Lemma C5_failure_returns_to_human_witness :
  reachable exampleQuantizer awaitingAnswer ∧ awaitingModel awaitingAnswer = true ∧
  let s' := step exampleQuantizer EvModelReject awaitingAnswer in
  isAIPlaying s' = false ∧ userNotes s' = [] ∧ keyboardListening s' = true ∧
  timers s' = timers awaitingAnswer.
Proof.
  assert (Hr : reachable exampleQuantizer awaitingAnswer)
    by (apply reachable_run, reachable_initial).
  assert (Hw : awaitingModel awaitingAnswer = true) by (vm_compute; reflexivity).
  destruct (C5_failure_returns_to_human exampleQuantizer EvModelReject
              awaitingAnswer Hr) as (Hrej & _ & _).
  destruct (Hrej Hw) as (H1 & _ & _ & H2 & H3 & H4 & _).
  split; [exact Hr|]. split; [exact Hw|]. cbv zeta. auto.
Defined.

Lemma C6_disable_finishes_turn_then_stops_witness :
  let playing := step exampleQuantizer (EvModelResolve twoNotes) awaitingAnswer in
  let later := [EvElapse 1500; EvTimer 4; EvKeyDown "a" false 9%Q 9%Q; EvKeyUp "a";
                EvElapse 5000] in
  let s' := step exampleQuantizer (EvToggleChange false) playing in
  let s2 := run exampleQuantizer later s' in
  reachable exampleQuantizer playing ∧
  Forall (λ e, e ≠ EvToggleChange true) later ∧
  isAIPlaying s' = true ∧ length (timers s') = 3%nat ∧
  length (userNotes s2) = 1%nat ∧ isAIPlaying s2 = false ∧
  modelCalls s2 = 1%nat ∧ turnsStarted s2 = 1%nat ∧ triggers (timers s2) = [].
Proof.
  intros playing later s' s2.
  assert (Hr : reachable exampleQuantizer playing).
  { subst playing. constructor. apply reachable_run, reachable_initial. }
  assert (Hall : Forall (λ e, e ≠ EvToggleChange true) later).
  { subst later. repeat constructor; discriminate. }
  destruct (C6_disable_finishes_turn_then_stops exampleQuantizer later playing Hr Hall)
    as ((Hp & _) & (_ & Hcalls & Hstarts & _) & _).
  fold s' in Hp, Hcalls, Hstarts. fold s2 in Hcalls, Hstarts.
  split; [exact Hr|]. split; [exact Hall|].
  split; [rewrite Hp; vm_compute; reflexivity|].
  split; [vm_compute; reflexivity|]. split; [vm_compute; reflexivity|].
  split; [vm_compute; reflexivity|].
  split; [rewrite Hcalls; vm_compute; reflexivity|].
  split; [rewrite Hstarts; vm_compute; reflexivity|].
  vm_compute. reflexivity.
Defined.

Lemma C8_active_notes_released_witness :
  let held := run exampleQuantizer
                [EvKeyDown "a" false 0%Q 0%Q; EvKeyDown "d" false 1%Q 1%Q] initial in
  reachable exampleQuantizer held ∧
  activeNotes held = [60; 64] ∧ guardPasses held = true ∧
  ∃ rest, effects (triggerAIResponse exampleQuantizer held) =
          effects held ++
          [EffTriggerRelease (Some "C4"); EffTriggerRelease (Some "E4")] ++ rest.
Proof.
  intros held.
  assert (Hr : reachable exampleQuantizer held) by (apply reachable_run, reachable_initial).
  assert (G : guardPasses held = true) by (vm_compute; reflexivity).
  destruct (C8_active_notes_released exampleQuantizer held Hr) as (_ & _ & Hentry).
  destruct (Hentry G) as ((rest & Heff) & _).
  split; [exact Hr|]. split; [reflexivity|]. split; [exact G|].
  exists rest. exact Heff.
Defined.

Lemma C9_release_arms_timer_witness :
  reachable exampleQuantizer heldWithEmptyBuffer ∧
  isAIPlaying heldWithEmptyBuffer = false ∧ aiEnabled heldWithEmptyBuffer = true ∧
  activeNotes (releaseNote (Some 0%nat) heldWithEmptyBuffer) = [] ∧
  triggers (timers (releaseNote (Some 0%nat) heldWithEmptyBuffer)) =
    [inactivityTimerOf heldWithEmptyBuffer].
Proof.
  assert (Hr : reachable exampleQuantizer heldWithEmptyBuffer)
    by (apply reachable_run, reachable_initial).
  assert (Hoff : isAIPlaying heldWithEmptyBuffer = false) by (vm_compute; reflexivity).
  assert (Hon : aiEnabled heldWithEmptyBuffer = true) by (vm_compute; reflexivity).
  assert (Hnil : activeNotes (releaseNote (Some 0%nat) heldWithEmptyBuffer) = [])
    by (vm_compute; reflexivity).
  destruct (C9_release_arms_timer exampleQuantizer (Some 0%nat) heldWithEmptyBuffer Hr)
    as (_ & Harm & _).
  split; [exact Hr|]. split; [exact Hoff|]. split; [exact Hon|]. split; [exact Hnil|].
  exact (proj1 (Harm Hoff Hnil Hon)).
Defined.

(** C9 as stated fails: "a" is held with an empty buffer; releasing it
    leaves no key held and a buffer that is still empty, and the 2000 ms
    inactivity timer is armed all the same. *)
Lemma C9_counterexample :
  let s' := step exampleQuantizer (EvKeyUp "a") heldWithEmptyBuffer in
  reachable exampleQuantizer heldWithEmptyBuffer ∧
  aiEnabled heldWithEmptyBuffer = true ∧
  activeNotes heldWithEmptyBuffer = [60] ∧ userNotes heldWithEmptyBuffer = [] ∧
  timers heldWithEmptyBuffer = [] ∧
  activeNotes s' = [] ∧ userNotes s' = [] ∧
  timers s' = [{| timer_id := 1; armedAt := 0; delay := 2000;
                  callback := CbTriggerAI |}].
Proof.
  split; [apply reachable_run, reachable_initial|].
  vm_compute. repeat split; reflexivity.
Qed.

Lemma C10_enable_clears_buffer_witness :
  let off := run exampleQuantizer
               [EvKeyDown "a" false 0%Q 0%Q; EvKeyUp "a"; EvToggleChange false;
                EvKeyDown "d" false 1%Q 1%Q; EvKeyUp "d"] initial in
  let s' := step exampleQuantizer (EvToggleChange true) off in
  reachable exampleQuantizer off ∧ aiEnabled off = false ∧
  length (userNotes off) = 2%nat ∧
  userNotes s' = [] ∧ timers s' = timers off ∧ triggers (timers s') = [].
Proof.
  intros off s'.
  assert (Hr : reachable exampleQuantizer off) by (apply reachable_run, reachable_initial).
  assert (Hoff : aiEnabled off = false) by (vm_compute; reflexivity).
  destruct (C10_enable_clears_buffer exampleQuantizer off Hr)
    as (_ & _ & _ & Hnil & Ht & _ & _ & Hnone).
  fold s' in Hnil, Ht, Hnone.
  split; [exact Hr|]. split; [exact Hoff|]. split; [vm_compute; reflexivity|].
  split; [exact Hnil|]. split; [exact Ht|]. exact (Hnone Hoff).
Defined.

From Stdlib Require Import Lqa.

(** * More of [script.js]: what the handlers keep and never do *)

Section MoreProperties.

Context {QuantizedSequence : Type}.
Variable quantizeNoteSequence : NoteSequence → Z → option QuantizedSequence.

Local Abbreviation State := (@State QuantizedSequence).
Local Abbreviation Effect := (@Effect QuantizedSequence).
Local Abbreviation step' := (step quantizeNoteSequence).
Local Abbreviation run' := (run quantizeNoteSequence).
Local Abbreviation reachable' := (reachable quantizeNoteSequence).
Local Abbreviation triggerAIResponse' := (triggerAIResponse quantizeNoteSequence).
Local Abbreviation runCallback' := (runCallback quantizeNoteSequence).

(** ** The handlers, field by field *)

(** The entry [playNote] pushes on [userNotes]. *)
Definition recorded (midi : Z) (now1 now2 : Q) : UserNote :=
  {| pitch := midi; startTime := now1; endTime := now2 + (1 # 2) |}.

(** [playNote] outside an AI turn, on an existing key. *)
Lemma playNote_eq (index : nat) (midi : Z) (now1 now2 : Q) (s : State) :
  isAIPlaying s = false → MIDI_NUMS !! index = Some midi →
  playNote index false now1 now2 s =
  let s1 := if bool_decide (midi ∈ activeNotes s) then s
            else set_activeNotes (activeNotes s ++ [midi])
                   (emit (EffTriggerAttack (NOTES !! index)) s) in
  set_userNotes (userNotes s ++ [recorded midi now1 now2])
    (clearTimeout (inactivityTimer s) s1).
Proof.
  intros Hoff Hm. unfold playNote. rewrite Hoff, Hm. cbn [negb andb]. cbv zeta.
  destruct (bool_decide (midi ∈ activeNotes s));
    cbn [inactivityTimer set_activeNotes emit set_effects];
    destruct (inactivityTimer s); reflexivity.
Qed.

Lemma playNote_skip (index : nat) (now1 now2 : Q) (s : State) :
  isAIPlaying s = true ∨ MIDI_NUMS !! index = None →
  playNote index false now1 now2 s = s.
Proof.
  intros [H|H]; unfold playNote; cbn [negb andb].
  - rewrite H. reflexivity.
  - destruct (isAIPlaying s); [reflexivity|]. rewrite H. reflexivity.
Qed.

(** The state [releaseNote] has reached before it looks at the timer. *)
Definition released (index : option nat) (s : State) : State :=
  match index ≫= (MIDI_NUMS !!.) with
  | Some m =>
    if bool_decide (m ∈ activeNotes s)
    then set_activeNotes (filter (λ k, k ≠ m) (activeNotes s))
           (emit (EffTriggerRelease (index ≫= (NOTES !!.))) s)
    else s
  | None => s
  end.

Lemma releaseNote_eq (index : option nat) (s : State) :
  isAIPlaying s = false →
  releaseNote index s =
  let s1 := released index s in
  if (length (activeNotes s1) =? 0)%nat && aiEnabled s1
  then armInactivityTimer (clearTimeout (inactivityTimer s1) s1)
  else s1.
Proof. intros Hoff. unfold releaseNote. rewrite Hoff. reflexivity. Qed.

Lemma released_fields (index : option nat) (s : State) :
  let s1 := released index s in
  timers s1 = timers s ∧ inactivityTimer s1 = inactivityTimer s ∧
  aiEnabled s1 = aiEnabled s ∧ nextTimerId s1 = nextTimerId s ∧
  clock s1 = clock s ∧ userNotes s1 = userNotes s ∧
  isAIPlaying s1 = isAIPlaying s ∧ visualTimeouts s1 = visualTimeouts s.
Proof.
  cbv zeta. unfold released.
  destruct (index ≫= (MIDI_NUMS !!.)) as [m|]; [|repeat split].
  destruct (bool_decide _); repeat split.
Qed.

(** What arming after a cancel leaves alone. *)
Lemma rearm_fields (s : State) :
  let s' := armInactivityTimer (clearTimeout (inactivityTimer s) s) in
  activeNotes s' = activeNotes s ∧ userNotes s' = userNotes s ∧
  effects s' = effects s ∧ clock s' = clock s ∧
  visualTimeouts s' = visualTimeouts s ∧ isAIPlaying s' = isAIPlaying s ∧
  aiEnabled s' = aiEnabled s ∧
  timers s' = timers (clearTimeout (inactivityTimer s) s) ++ [inactivityTimerOf s].
Proof. cbv zeta. destruct (inactivityTimer s); repeat split. Qed.

Lemma clearTimeout_fields (id : option nat) (s : State) :
  let s' := clearTimeout id s in
  activeNotes s' = activeNotes s ∧ userNotes s' = userNotes s ∧
  effects s' = effects s ∧ clock s' = clock s ∧
  visualTimeouts s' = visualTimeouts s ∧ isAIPlaying s' = isAIPlaying s ∧
  aiEnabled s' = aiEnabled s ∧ nextTimerId s' = nextTimerId s ∧
  inactivityTimer s' = inactivityTimer s.
Proof. cbv zeta. destruct id; repeat split. Qed.

(** [playNoteWithDuration] on an existing key. *)
Lemma playNoteWithDuration_eq (index : nat) (midi : Z) (d : Q) (s : State) :
  MIDI_NUMS !! index = Some midi →
  playNoteWithDuration index d s =
  let s1 := emit (EffTriggerAttackRelease (NOTES !! index) d) s in
  let s2 := clearTimeout (visualTimeouts s !! midi) s1 in
  set_visualTimeouts (<[midi := nextTimerId s]> (visualTimeouts s))
    (setTimeout (CbVisualClear midi) (Qfloor (d * 1000)) s2).2.
Proof.
  intros Hm. unfold playNoteWithDuration. rewrite Hm. cbv zeta.
  change (visualTimeouts (emit (EffTriggerAttackRelease (NOTES !! index) d) s))
    with (visualTimeouts s).
  destruct (visualTimeouts s !! midi); reflexivity.
Qed.

(** The closure of a generated note always finds a key. *)
Lemma playGenerated_eq (note : GenNote) (d : Q) (s : State) :
  ∃ (index : nat) (midi : Z),
    closestMidi (gen_pitch note) = Some midi ∧ MIDI_NUMS !! index = Some midi ∧
    playGenerated note d s = playNoteWithDuration index d s.
Proof.
  destruct (closestIn_total MIDI_NUMS (gen_pitch note)) as [m Hm]; [discriminate|].
  destruct (closestIn_firstClosest _ _ _ Hm) as (i & Hi & _).
  exists i, m. split; [exact Hm|]. split; [exact Hi|].
  unfold playGenerated. fold (closestMidi (gen_pitch note)) in Hm.
  rewrite Hm, (indexOf_MIDI_NUMS i m Hi). reflexivity.
Qed.

(** ** Every event as a few handler calls *)

(** What a human event does: at most one [releaseNote], then at most one
    assignment to [lastKeyPressed], then at most one [playNote]. *)
Definition humanStep (release : option (option nat)) (last : option (option nat))
    (play : option (nat * Q * Q)) (s : State) : State :=
  let s := match release with Some index => releaseNote index s | None => s end in
  let s := match last with Some v => set_lastKeyPressed v s | None => s end in
  match play with
  | Some (index, now1, now2) => playNote index false now1 now2 s
  | None => s
  end.

Definition isHuman (e : Event) : bool :=
  match e with
  | EvKeyDown _ _ _ _ | EvKeyUp _ | EvPointerDown _ _ _ | EvPointerEnter _ _ _ _
  | EvPointerUp _ | EvWindowPointerUp => true
  | _ => false
  end.

Lemma human_shape (e : Event) (s : State) :
  isHuman e = true →
  ∃ release last play, step' e s = humanStep release last play s.
Proof.
  intros He. destruct e; try discriminate; cbn [step].
  - destruct (keyboardListening s); [|exists None, None, None; reflexivity].
    unfold handleKeyDown. destruct (KEY_MAP !! key) as [i|];
      [|exists None, None, None; reflexivity].
    destruct repeat; [exists None, None, None; reflexivity|].
    exists None, None, (Some (i, now1, now2)). reflexivity.
  - destruct (keyboardListening s); [|exists None, None, None; reflexivity].
    unfold handleKeyUp. destruct (KEY_MAP !! key) as [i|];
      [|exists None, None, None; reflexivity].
    exists (Some (Some i)), None, None. reflexivity.
  - destruct (isKey index); [|exists None, None, None; reflexivity].
    exists None, (Some (Some index)), (Some (index, now1, now2)). reflexivity.
  - destruct (isKey index && buttons); [|exists None, None, None; reflexivity].
    exists (Some (lastKeyPressed s)), (Some (Some index)), (Some (index, now1, now2)).
    reflexivity.
  - destruct (isKey index); [|exists None, None, None; reflexivity].
    exists (Some (Some index)), (Some None), None. reflexivity.
  - destruct (lastKeyPressed s) as [i|]; [|exists None, None, None; reflexivity].
    exists (Some (Some i)), (Some None), None. reflexivity.
Qed.

(** A rule for invariants: a property kept by each handler call, from states
    that satisfy [Inv], is kept by every event. *)
Lemma invariant_rule (P : State → Prop) :
  (∀ s index now1 now2, Inv s → P s → P (playNote index false now1 now2 s)) →
  (∀ s index, Inv s → P s → P (releaseNote index s)) →
  (∀ s v, Inv s → P s → P (set_lastKeyPressed v s)) →
  (∀ s checked, Inv s → P s → P (aiToggle_change checked s)) →
  (∀ s t, Inv s → P s → t ∈ timers s → dueTime t ≤ clock s →
     P (runCallback' (callback t) (clearTimeout (Some (timer_id t)) s))) →
  (∀ s result, Inv s → P s → awaitingModel s = true → P (resumeWithResult result s)) →
  (∀ s, Inv s → P s → awaitingModel s = true → P (resumeWithError s)) →
  (∀ s ms, Inv s → P s → P (set_clock (clock s + Z.of_N ms) s)) →
  ∀ e s, Inv s → P s → P (step' e s).
Proof.
  intros Hplay Hrel Hlast Htog Hfire Hres Hrej Hclk e s HI HP.
  destruct (isHuman e) eqn:He.
  - destruct (human_shape e s He) as (release & last & play & ->).
    unfold humanStep.
    set (s1 := match release with Some index => releaseNote index s | None => s end).
    assert (H1 : Inv s1 ∧ P s1).
    { subst s1. destruct release; [|auto].
      split; [apply Inv_releaseNote; exact HI|apply Hrel; assumption]. }
    clearbody s1. destruct H1 as [HI1 HP1]. cbv zeta.
    set (s2 := match last with Some v => set_lastKeyPressed v s1 | None => s1 end).
    assert (H2 : Inv s2 ∧ P s2).
    { subst s2. destruct last; [|auto].
      split; [apply Inv_set_lastKeyPressed; exact HI1|apply Hlast; assumption]. }
    clearbody s2. destruct H2 as [HI2 HP2].
    destruct play as [[[i n1] n2]|]; [|exact HP2]. apply Hplay; assumption.
  - destruct e; try discriminate; cbn [step].
    + apply Htog; assumption.
    + destruct (findTimer id s) as [t|] eqn:E; [|exact HP].
      destruct (Z.leb_spec (dueTime t) (clock s)) as [Hdue|_]; [|exact HP].
      apply findTimer_Some in E as [Ht <-]. apply Hfire; assumption.
    + destruct (awaitingModel s) eqn:Hw; [|exact HP]. apply Hres; assumption.
    + destruct (awaitingModel s) eqn:Hw; [|exact HP]. apply Hrej; assumption.
    + apply Hclk; assumption.
Qed.

Lemma invariant_reachable (P : State → Prop) :
  P initial →
  (∀ e s, Inv s → P s → P (step' e s)) →
  ∀ s, reachable' s → P s.
Proof.
  intros Hinit Hstep s Hr.
  assert (H : Inv s ∧ P s); [|exact (proj2 H)].
  induction Hr as [|e s _ [HI HP]]; [split; [apply Inv_initial|exact Hinit]|].
  split; [apply Inv_step; exact HI|apply Hstep; assumption].
Qed.

(** ** Where inactivity timers come from *)

(** Timers of [s'] that run [triggerAIResponse] were pending in [s] or are
    the one a note-off arms in [s]; and time has not gone back. *)
Definition armsOnly (s s' : State) : Prop :=
  clock s ≤ clock s' ∧
  ∀ t, t ∈ timers s' → callback t = CbTriggerAI → t ∈ timers s ∨ t = inactivityTimerOf s.

Lemma armsOnly_subset (s s' : State) :
  clock s ≤ clock s' → (∀ t, t ∈ timers s' → callback t = CbTriggerAI → t ∈ timers s) →
  armsOnly s s'.
Proof. intros Hc H. split; [exact Hc|]. intros t Ht Hcb. left. auto. Qed.

Lemma elem_clearTimeout (id : option nat) (t : Timer) (s : State) :
  t ∈ timers (clearTimeout id s) → t ∈ timers s.
Proof.
  destruct id as [i|]; [|auto]. cbn. intros H.
  apply list_elem_of_filter in H as [_ H]. exact H.
Qed.

Lemma timers_playNote (index : nat) (midi : Z) (now1 now2 : Q) (s : State) :
  isAIPlaying s = false → MIDI_NUMS !! index = Some midi →
  timers (playNote index false now1 now2 s) = timers (clearTimeout (inactivityTimer s) s).
Proof.
  intros Hoff Hm. rewrite (playNote_eq index midi now1 now2 s Hoff Hm). cbv zeta.
  destruct (bool_decide _), (inactivityTimer s); reflexivity.
Qed.

(** A recorded note leaves no inactivity timer pending. *)
Lemma playNote_cancels (index : nat) (midi : Z) (now1 now2 : Q) (s : State) :
  Inv s → isAIPlaying s = false → MIDI_NUMS !! index = Some midi →
  triggers (timers (playNote index false now1 now2 s)) = [].
Proof.
  intros HI Hoff Hm. rewrite (timers_playNote index midi now1 now2 s Hoff Hm).
  exact (proj2 (clear_inactivity s HI)).
Qed.

Lemma playNote_cases (index : nat) (now1 now2 : Q) (s : State) :
  playNote index false now1 now2 s = s ∨
  (isAIPlaying s = false ∧ ∃ midi, MIDI_NUMS !! index = Some midi).
Proof.
  destruct (isAIPlaying s) eqn:Hp; [left; apply playNote_skip; auto|].
  destruct (MIDI_NUMS !! index) as [midi|] eqn:Hm; [right; eauto|].
  left. apply playNote_skip. auto.
Qed.

Lemma armsOnly_refl (s : State) : armsOnly s s.
Proof. apply armsOnly_subset; [lia|auto]. Qed.

Lemma armsOnly_playNote (index : nat) (now1 now2 : Q) (s : State) :
  armsOnly s (playNote index false now1 now2 s).
Proof.
  destruct (playNote_cases index now1 now2 s) as [->|(Hoff & midi & Hm)];
    [apply armsOnly_refl|].
  apply armsOnly_subset.
  - rewrite (keeps_clock _ _ (keepsTurn_playNote index now1 now2 s)). lia.
  - intros t Ht _. rewrite (timers_playNote index midi now1 now2 s Hoff Hm) in Ht.
    exact (elem_clearTimeout _ t s Ht).
Qed.

Lemma releaseNote_cases (index : option nat) (s : State) :
  Inv s →
  let s' := releaseNote index s in
  (isAIPlaying s = true ∧ s' = s) ∨
  (isAIPlaying s = false ∧ activeNotes s' = [] ∧ aiEnabled s = true ∧
   timers s' = timers (clearTimeout (inactivityTimer s) s) ++ [inactivityTimerOf s]) ∨
  (isAIPlaying s = false ∧ (activeNotes s' ≠ [] ∨ aiEnabled s = false) ∧
   timers s' = timers s).
Proof.
  intros HI. cbv zeta.
  destruct (isAIPlaying s) eqn:Hp;
    [left; split; [reflexivity|apply releaseNote_blocked; exact Hp]|].
  right. destruct (releaseNote_timers index s HI Hp) as [Harm Hkeep].
  cbv zeta in Harm, Hkeep.
  destruct (list_eq_nil_dec (activeNotes (releaseNote index s))) as [Ea|Ea].
  - destruct (aiEnabled s) eqn:Hon.
    + left. destruct (Harm Ea eq_refl) as [Ht _]. auto.
    + right. destruct (Hkeep (or_intror eq_refl)) as [Ht _]. auto.
  - right. destruct (Hkeep (or_introl Ea)) as [Ht _]. auto.
Qed.

Lemma armsOnly_releaseNote (index : option nat) (s : State) :
  Inv s → armsOnly s (releaseNote index s).
Proof.
  intros HI. split.
  - rewrite (keeps_clock _ _ (keepsTurn_releaseNote index s)). lia.
  - intros t Ht Hcb.
    destruct (releaseNote_cases index s HI) as [[_ Hs]|[(_ & _ & _ & Heq)|(_ & _ & Heq)]].
    + rewrite Hs in Ht. auto.
    + rewrite Heq in Ht. apply elem_of_app in Ht as [Ht|Ht].
      * left. exact (elem_clearTimeout _ t s Ht).
      * right. apply list_elem_of_singleton in Ht. exact Ht.
    + rewrite Heq in Ht. auto.
Qed.

Lemma timers_toggle (checked : bool) (s : State) :
  timers (aiToggle_change checked s) =
  if checked then timers s else timers (clearTimeout (inactivityTimer s) s).
Proof.
  destruct checked; [rewrite aiToggle_change_on; reflexivity|].
  exact (timers_toggle_off quantizeNoteSequence s).
Qed.

Lemma armsOnly_toggle (checked : bool) (s : State) :
  armsOnly s (aiToggle_change checked s).
Proof.
  apply armsOnly_subset.
  - rewrite (keeps_clock _ _ (keepsTurn_aiToggle_change checked s)). lia.
  - intros t Ht _. rewrite timers_toggle in Ht. destruct checked; [exact Ht|].
    exact (elem_clearTimeout _ t s Ht).
Qed.

Lemma timers_triggerAIResponse (s : State) :
  timers (triggerAIResponse' s) = timers s.
Proof.
  destruct (guardPasses s) eqn:G.
  - apply guardPasses_iff in G as (Hon & Hne & Hoff).
    rewrite triggerAIResponse_pass by assumption.
    destruct (quantizeNoteSequence _ 4); rewrite turnEntry_eq; reflexivity.
  - apply guardPasses_false in G. rewrite triggerAIResponse_skip by exact G. reflexivity.
Qed.

(** Timers after a generated note has been played: the old ones, less the
    key's earlier highlight timer, plus the new highlight timer. *)
Lemma timers_playGenerated (note : GenNote) (d : Q) (s : State) :
  ∃ midi : Z, midi ∈ MIDI_NUMS ∧
    timers (playGenerated note d s) =
    timers (clearTimeout (visualTimeouts s !! midi) s) ++
    [{| timer_id := nextTimerId s; armedAt := clock s;
        delay := Qfloor (d * 1000); callback := CbVisualClear midi |}] ∧
    visualTimeouts (playGenerated note d s) = <[midi := nextTimerId s]> (visualTimeouts s) ∧
    nextTimerId (playGenerated note d s) = S (nextTimerId s).
Proof.
  destruct (playGenerated_eq note d s) as (index & midi & _ & Hm & ->).
  exists midi. split; [apply list_elem_of_lookup; eauto|].
  rewrite (playNoteWithDuration_eq index midi d s Hm). cbv zeta.
  destruct (visualTimeouts s !! midi); repeat split.
Qed.

Lemma armsOnly_fire (t : Timer) (s : State) :
  armsOnly s (runCallback' (callback t) (clearTimeout (Some (timer_id t)) s)).
Proof.
  set (s0 := clearTimeout (Some (timer_id t)) s).
  assert (H0 : ∀ t', t' ∈ timers s0 → t' ∈ timers s)
    by (intros t'; apply elem_clearTimeout).
  destruct (callback t) as [|note d| |midi|midi].
  - rewrite runCallback_trigger. apply armsOnly_subset.
    + rewrite clock_triggerAIResponse. cbn. lia.
    + intros t' Ht' _. rewrite timers_triggerAIResponse in Ht'. auto.
  - rewrite runCallback_play. apply armsOnly_subset.
    + rewrite (keeps_clock _ _ (keepsTurn_playGenerated note d s0)). cbn. lia.
    + intros t' Ht' Hcb.
      destruct (timers_playGenerated note d s0) as (midi & _ & Heq & _).
      rewrite Heq in Ht'. apply elem_of_app in Ht' as [Ht'|Ht'].
      * apply H0. exact (elem_clearTimeout _ t' s0 Ht').
      * apply list_elem_of_singleton in Ht'. subst t'. discriminate.
  - rewrite runCallback_reset. apply armsOnly_subset; [cbn; lia|].
    intros t' Ht' _. apply H0. exact Ht'.
  - apply armsOnly_subset; [cbn; lia|]. intros t' Ht' _. apply H0. exact Ht'.
  - apply armsOnly_subset; [cbn; lia|]. intros t' Ht' _. apply H0. exact Ht'.
Qed.

Lemma armsOnly_resume (result : list GenNote) (s : State) :
  armsOnly s (resumeWithResult result s).
Proof.
  rewrite resumeWithResult_eq. apply armsOnly_subset; [cbn; lia|].
  intros t Ht Hcb. cbn in Ht. apply elem_of_app in Ht as [Ht|Ht]; [exact Ht|].
  apply elem_of_app in Ht as [Ht|Ht].
  - apply list_elem_of_lookup in Ht as [i Hi]. unfold playbackTimers in Hi.
    rewrite list_lookup_imap in Hi. destruct (result !! i); [|discriminate].
    injection Hi as <-. discriminate.
  - apply list_elem_of_singleton in Ht. subst t. discriminate.
Qed.

(** ** Fields the handlers leave alone *)

Lemma released_idle (index : option nat) (s : State) :
  activeNotes s = [] → released index s = s.
Proof.
  intros Hnil. unfold released. rewrite Hnil.
  destruct (index ≫= (MIDI_NUMS !!.)); reflexivity.
Qed.

Lemma releaseNote_fields (index : option nat) (s : State) :
  let s' := releaseNote index s in
  userNotes s' = userNotes s ∧ visualTimeouts s' = visualTimeouts s ∧
  (activeNotes s = [] → activeNotes s' = [] ∧ effects s' = effects s).
Proof.
  cbv zeta. destruct (isAIPlaying s) eqn:Hp.
  { rewrite releaseNote_blocked by exact Hp. auto. }
  rewrite (releaseNote_eq index s Hp). cbv zeta.
  destruct (released_fields index s) as (_ & _ & _ & _ & _ & Hu & _ & Hv).
  destruct (rearm_fields (released index s)) as (Ha & Hu' & He & _ & Hv' & _).
  destruct (_ && _).
  - rewrite Hu', Hv', Ha, He, Hu, Hv. split; [reflexivity|]. split; [reflexivity|].
    intros Hnil. rewrite (released_idle index s Hnil). auto.
  - rewrite Hu, Hv. split; [reflexivity|]. split; [reflexivity|].
    intros Hnil. rewrite (released_idle index s Hnil). auto.
Qed.

Lemma toggle_fields (checked : bool) (s : State) :
  let s' := aiToggle_change checked s in
  activeNotes s' = activeNotes s ∧ visualTimeouts s' = visualTimeouts s ∧
  userNotes s' = (if checked then [] else userNotes s).
Proof.
  cbv zeta. destruct checked.
  - rewrite aiToggle_change_on. repeat split.
  - unfold aiToggle_change. cbn [negb aiEnabled set_aiEnabled].
    destruct s as [? ? ? [i|] ? ? ? ? ? ? ? ? ?]; repeat split.
Qed.

Lemma playGenerated_fields (note : GenNote) (d : Q) (s : State) :
  let s' := playGenerated note d s in
  activeNotes s' = activeNotes s ∧ userNotes s' = userNotes s ∧
  inactivityTimer s' = inactivityTimer s ∧ aiEnabled s' = aiEnabled s.
Proof.
  cbv zeta. destruct (playGenerated_eq note d s) as (index & midi & _ & Hm & ->).
  rewrite (playNoteWithDuration_eq index midi d s Hm). cbv zeta.
  destruct (visualTimeouts s !! midi); repeat split.
Qed.

Lemma set_lastKeyPressed_same (s : State) : set_lastKeyPressed (lastKeyPressed s) s = s.
Proof. destruct s; reflexivity. Qed.

Lemma set_lastKeyPressed_twice (v w : option nat) (s : State) :
  set_lastKeyPressed v (set_lastKeyPressed w s) = set_lastKeyPressed v s.
Proof. reflexivity. Qed.

(** ** The recorded buffer *)







(** X3.  During an AI turn a key or pointer event changes nothing but
    [lastKeyPressed]; a keyboard event changes nothing at all. *)
Theorem human_input_ignored_during_ai_turn (e : Event) (s : State) :
  reachable' s → isAIPlaying s = true → isHuman e = true →
  (∃ v, step' e s = set_lastKeyPressed v s) ∧
  (∀ key repeat now1 now2, e = EvKeyDown key repeat now1 now2 → step' e s = s) ∧
  (∀ key, e = EvKeyUp key → step' e s = s).
Proof.
  intros Hr Hon He. pose proof (Inv_reachable _ s Hr) as HI.
  assert (Hk : keyboardListening s = false) by (rewrite (inv_keyboard s HI), Hon; reflexivity).
  split; [|split].
  - destruct (human_shape e s He) as (release & last & play & ->).
    unfold humanStep.
    replace (match release with Some index => releaseNote index s | None => s end)
      with s by (destruct release; [rewrite releaseNote_blocked by exact Hon|]; reflexivity).
    cbv zeta. destruct last as [v|].
    + exists v. destruct play as [[[i n1] n2]|]; [|reflexivity].
      apply playNote_blocked. exact Hon.
    + exists (lastKeyPressed s). rewrite set_lastKeyPressed_same.
      destruct play as [[[i n1] n2]|]; [|reflexivity].
      apply playNote_blocked. exact Hon.
  - intros key repeat n1 n2 ->. cbn [step]. rewrite Hk. reflexivity.
  - intros key ->. cbn [step]. rewrite Hk. reflexivity.
Qed.

(** ** The inactivity timer and the keys *)

(** While an inactivity timer is pending no key is held and no AI turn is
    under way; the timer waits 2000 ms and was not armed in the future. *)
Definition Calm (s : State) : Prop :=
  ∀ t, t ∈ timers s → callback t = CbTriggerAI →
    activeNotes s = [] ∧ isAIPlaying s = false ∧
    delay t = INACTIVITY_THRESHOLD ∧ armedAt t ≤ clock s.

Lemma Calm_from (s s' : State) :
  armsOnly s s' → Calm s →
  (∀ t, t ∈ timers s' → callback t = CbTriggerAI →
     activeNotes s' = [] ∧ isAIPlaying s' = false) →
  Calm s'.
Proof.
  intros [Hc Harm] HC Hidle t Ht Hcb.
  destruct (Hidle t Ht Hcb) as [Ha Hp]. split; [exact Ha|]. split; [exact Hp|].
  destruct (Harm t Ht Hcb) as [Hold|Heq].
  - destruct (HC t Hold Hcb) as (_ & _ & Hd & Hat). split; [exact Hd|lia].
  - subst t. split; [reflexivity|exact Hc].
Qed.

Lemma no_trigger (s : State) (t : Timer) :
  triggers (timers s) = [] → t ∈ timers s → callback t = CbTriggerAI → False.
Proof.
  intros Hnil Ht Hcb. unfold triggers in Hnil.
  exact (proj1 (filter_nil_iff _ _) Hnil t Ht Hcb).
Qed.

(** Running the pending inactivity timer leaves none pending. *)
Lemma fired_trigger_clears (t : Timer) (s : State) :
  Inv s → t ∈ timers s → callback t = CbTriggerAI →
  triggers (timers (clearTimeout (Some (timer_id t)) s)) = [].
Proof.
  intros HI Ht Hcb. apply filter_nil_iff. intros t' Ht' Hcb'.
  apply list_elem_of_filter in Ht' as [Hne Ht'].
  apply (inv_trigger s HI t Ht) in Hcb. apply (inv_trigger s HI t' Ht') in Hcb'.
  apply Hne. congruence.
Qed.

Lemma Calm_playNote (index : nat) (now1 now2 : Q) (s : State) :
  Inv s → Calm s → Calm (playNote index false now1 now2 s).
Proof.
  intros HI HC.
  destruct (playNote_cases index now1 now2 s) as [->|(Hoff & midi & Hm)]; [exact HC|].
  intros t Ht Hcb. exfalso.
  exact (no_trigger _ t (playNote_cancels index midi now1 now2 s HI Hoff Hm) Ht Hcb).
Qed.

Lemma Calm_releaseNote (index : option nat) (s : State) :
  Inv s → Calm s → Calm (releaseNote index s).
Proof.
  intros HI HC. apply (Calm_from s); [apply armsOnly_releaseNote; exact HI|exact HC|].
  intros t Ht Hcb.
  destruct (releaseNote_cases index s HI) as [[_ Hs]|[(Hoff & Ha & _)|(Hoff & _ & Heq)]].
  - rewrite Hs in *. destruct (HC t Ht Hcb) as (H1 & H2 & _). auto.
  - split; [exact Ha|].
    rewrite (keeps_playing _ _ (keepsTurn_releaseNote index s)). exact Hoff.
  - rewrite Heq in Ht. destruct (HC t Ht Hcb) as (H1 & H2 & _).
    split; [exact (proj1 (proj2 (proj2 (releaseNote_fields index s)) H1))|].
    rewrite (keeps_playing _ _ (keepsTurn_releaseNote index s)). exact H2.
Qed.

Lemma Calm_fire (t : Timer) (s : State) :
  Inv s → Calm s → t ∈ timers s →
  Calm (runCallback' (callback t) (clearTimeout (Some (timer_id t)) s)).
Proof.
  intros HI HC Ht. apply (Calm_from s); [apply armsOnly_fire|exact HC|].
  pose proof (armsOnly_fire t s) as [_ Harm].
  set (s0 := clearTimeout (Some (timer_id t)) s) in *.
  intros t' Ht' Hcb'.
  assert (Hold : t' ∈ timers s).
  { destruct (Harm t' Ht' Hcb') as [H|H]; [exact H|]. exfalso.
    subst t'. destruct (callback t) as [|note d| |midi|midi] eqn:Hcb.
    - rewrite runCallback_trigger, timers_triggerAIResponse in Ht'.
      apply elem_clearTimeout in Ht'. apply (inv_fresh s HI) in Ht'. cbn in Ht'. lia.
    - rewrite runCallback_play in Ht'.
      destruct (timers_playGenerated note d s0) as (midi & _ & Heq & _).
      rewrite Heq in Ht'. apply elem_of_app in Ht' as [Ht'|Ht'].
      + apply elem_clearTimeout, elem_clearTimeout in Ht'.
        apply (inv_fresh s HI) in Ht'. cbn in Ht'. lia.
      + apply list_elem_of_singleton in Ht'. discriminate.
    - apply (elem_clearTimeout (Some (timer_id t))) in Ht'.
      apply (inv_fresh s HI) in Ht'. cbn in Ht'. lia.
    - apply (elem_clearTimeout (Some (timer_id t))) in Ht'.
      apply (inv_fresh s HI) in Ht'. cbn in Ht'. lia.
    - apply (elem_clearTimeout (Some (timer_id t))) in Ht'.
      apply (inv_fresh s HI) in Ht'. cbn in Ht'. lia. }
  destruct (HC t' Hold Hcb') as (Ha & Hp & _).
  destruct (callback t) as [|note d| |midi|midi] eqn:Hcb.
  - exfalso. rewrite runCallback_trigger, timers_triggerAIResponse in Ht'.
    exact (no_trigger s0 t' (fired_trigger_clears t s HI Ht Hcb) Ht' Hcb').
  - rewrite runCallback_play.
    destruct (playGenerated_fields note d s0) as (-> & _).
    rewrite (keeps_playing _ _ (keepsTurn_playGenerated note d s0)). auto.
  - split; [exact Ha|reflexivity].
  - auto.
  - auto.
Qed.

Lemma Calm_step (e : Event) (s : State) : Inv s → Calm s → Calm (step' e s).
Proof.
  revert e s. apply invariant_rule.
  - intros s index n1 n2. apply Calm_playNote.
  - intros s index. apply Calm_releaseNote.
  - intros s v _ HC. exact HC.
  - intros s checked HI HC t Ht Hcb.
    rewrite timers_toggle in Ht.
    assert (Hold : t ∈ timers s)
      by (destruct checked; [exact Ht|exact (elem_clearTimeout _ t s Ht)]).
    destruct (HC t Hold Hcb) as (Ha & Hp & Hd & Hat).
    destruct (toggle_fields checked s) as (-> & _).
    rewrite (keeps_playing _ _ (keepsTurn_aiToggle_change checked s)).
    rewrite (keeps_clock _ _ (keepsTurn_aiToggle_change checked s)). auto.
  - intros s t HI HC Ht _. apply Calm_fire; assumption.
  - intros s result HI HC Hw t Ht Hcb. exfalso.
    destruct (armsOnly_resume result s) as [_ Harm].
    destruct (Harm t Ht Hcb) as [Hold|Heq].
    + destruct (HC t Hold Hcb) as (_ & Hp & _).
      destruct (Inv_awaiting s HI Hw) as [Hon _]. congruence.
    + subst t. rewrite resumeWithResult_eq in Ht. cbn in Ht.
      apply elem_of_app in Ht as [Ht|Ht].
      * apply (inv_fresh s HI) in Ht. cbn in Ht. lia.
      * apply elem_of_app in Ht as [Ht|Ht].
        -- apply list_elem_of_lookup in Ht as [i Hi]. unfold playbackTimers in Hi.
           rewrite list_lookup_imap in Hi. destruct (result !! i); discriminate.
        -- apply list_elem_of_singleton in Ht. discriminate.
  - intros s HI HC Hw t Ht Hcb.
    destruct (HC t Ht Hcb) as (Ha & _ & Hd & Hat). auto.
  - intros s ms _ HC t Ht Hcb.
    destruct (HC t Ht Hcb) as (Ha & Hp & Hd & Hat). cbn. repeat split; auto. lia.
Qed.

Lemma Calm_reachable (s : State) : reachable' s → Calm s.
Proof.
  apply invariant_reachable; [|apply Calm_step].
  intros t Ht. inversion Ht.
Qed.

(** X4.  In every reachable state, a pending inactivity timer means: no key is
    held, no AI turn is under way, the timer's delay is 2000 ms, and it is
    the only one pending. *)
Theorem inactivity_timer_means_idle (t : Timer) (s : State) :
  reachable' s → t ∈ timers s → callback t = CbTriggerAI →
  activeNotes s = [] ∧ isAIPlaying s = false ∧ awaitingModel s = false ∧
  delay t = 2000 ∧ armedAt t ≤ clock s ∧ triggers (timers s) = [t] ∧
  inactivityTimer s = Some (timer_id t).
Proof.
  intros Hr Ht Hcb. pose proof (Inv_reachable _ s Hr) as HI.
  destruct (Calm_reachable s Hr t Ht Hcb) as (Ha & Hp & Hd & Hat).
  split; [exact Ha|]. split; [exact Hp|].
  split; [exact (proj1 (Inv_idle s HI Hp))|]. split; [exact Hd|]. split; [exact Hat|].
  split; [|exact (proj1 (inv_trigger s HI t Ht) Hcb)].
  assert (Hin : t ∈ triggers (timers s)) by (apply list_elem_of_filter; auto).
  pose proof (inv_one_trigger s HI) as Hone.
  destruct (triggers (timers s)) as [|x [|y l]]; [inversion Hin| |cbn in Hone; lia].
  apply list_elem_of_singleton in Hin. subst x. reflexivity.
Qed.

(** X5.  When an AI turn starts no key is held, so entering the turn releases
    nothing: the turn's first calls are the status text and the model call. *)
Theorem reply_cuts_no_held_note (e : Event) (s : State) (q : QuantizedSequence) :
  reachable' s → triggerFires e s →
  quantizeNoteSequence (unquantizedSequence (userNotes s)) 4 = Some q →
  activeNotes s = [] ∧
  effects (step' e s) =
    effects s ++ [EffStatus "AI is listening and jamming back...";
                  EffContinueSequence q 50 (11 # 10)] ∧
  isAIPlaying (step' e s) = true ∧ awaitingModel (step' e s) = true.
Proof.
  intros Hr (id & t & -> & E & Hcb & Hdue & Hon & Hne & Hoff) Hq.
  apply findTimer_Some in E as [Ht Hid]. subst id.
  destruct (Calm_reachable s Hr t Ht Hcb) as (Ha & _).
  pose proof (Inv_reachable _ s Hr) as HI.
  rewrite (step_timer _ (timer_id t) t s (findTimer_of_elem t s HI Ht) Hdue).
  rewrite Hcb, runCallback_trigger.
  rewrite triggerAIResponse_pass by assumption.
  change (userNotes (clearTimeout (Some (timer_id t)) s)) with (userNotes s).
  rewrite Hq, turnEntry_eq. cbn. rewrite Ha. cbn.
  rewrite <- app_assoc. auto.
Qed.

(** ** Two seconds of silence *)

(** The guards an input event has to pass before a handler is called. *)
Definition handled (e : Event) (s : State) : bool :=
  match e with
  | EvKeyDown key repeat _ _ =>
    keyboardListening s && bool_decide (is_Some (KEY_MAP !! key)) && negb repeat
  | EvKeyUp key => keyboardListening s && bool_decide (is_Some (KEY_MAP !! key))
  | EvPointerDown index _ _ => isKey index
  | EvPointerEnter index buttons _ _ => isKey index && buttons
  | EvPointerUp index => isKey index
  | EvWindowPointerUp => bool_decide (is_Some (lastKeyPressed s))
  | _ => false
  end.

(** Every inactivity timer pending in [s] was armed at [since] or later. *)
Definition ArmedSince (since : Z) (s : State) : Prop :=
  since ≤ clock s ∧
  ∀ t, t ∈ timers s → callback t = CbTriggerAI → since ≤ armedAt t.

Lemma ArmedSince_from (since : Z) (s s' : State) :
  armsOnly s s' → ArmedSince since s → ArmedSince since s'.
Proof.
  intros [Hc Harm] [Hs Hall]. split; [lia|].
  intros t Ht Hcb. destruct (Harm t Ht Hcb) as [Hold|Heq]; [auto|subst t; exact Hs].
Qed.

Lemma ArmedSince_step (since : Z) (e : Event) (s : State) :
  Inv s → ArmedSince since s → ArmedSince since (step' e s).
Proof.
  revert e s. apply invariant_rule.
  - intros s i n1 n2 _. apply ArmedSince_from, armsOnly_playNote.
  - intros s i HI. apply ArmedSince_from, armsOnly_releaseNote. exact HI.
  - intros s v _ H. exact H.
  - intros s b _. apply ArmedSince_from, armsOnly_toggle.
  - intros s t _ H _ _. revert H. apply ArmedSince_from, armsOnly_fire.
  - intros s r _ H _. revert H. apply ArmedSince_from, armsOnly_resume.
  - intros s _ H _. exact H.
  - intros s ms _ [Hs Hall]. split; [cbn; lia|exact Hall].
Qed.

Lemma ArmedSince_run (since : Z) (es : list Event) (s : State) :
  Inv s → ArmedSince since s → ArmedSince since (run' es s).
Proof.
  revert s. induction es as [|e es IH]; intros s HI H; [exact H|].
  cbn. apply IH; [apply Inv_step; exact HI|apply ArmedSince_step; assumption].
Qed.

(** Every key of [KEY_MAP] stands for one of the 18 piano keys. *)
Lemma KEY_MAP_valid (key : string) (index : nat) :
  KEY_MAP !! key = Some index → (index < 18)%nat.
Proof.
  intros H.
  assert (HF : map_Forall (λ (_ : string) (i : nat), (i < 18)%nat) KEY_MAP).
  { apply (bool_decide_unpack _). vm_compute. reflexivity. }
  exact (HF key index H).
Qed.

Lemma isKey_valid (index : nat) : isKey index = true → is_Some (MIDI_NUMS !! index).
Proof.
  unfold isKey. intros H. apply Nat.ltb_lt in H. apply lookup_lt_is_Some. exact H.
Qed.

(** A handled event ends in a [playNote] on an existing key, or is a
    [releaseNote] followed at most by an assignment. *)
Lemma handled_shape (e : Event) (s : State) :
  handled e s = true →
  (∃ release last index now1 now2,
     is_Some (MIDI_NUMS !! index) ∧
     step' e s = humanStep release last (Some (index, now1, now2)) s) ∨
  (∃ index last, step' e s = humanStep (Some index) last None s).
Proof.
  intros Hh. destruct e; try discriminate; cbn [handled] in Hh; cbn [step].
  - apply andb_true_iff in Hh as [Hh Hrep]. apply andb_true_iff in Hh as [Hk Hkey].
    apply bool_decide_eq_true in Hkey as [i Hi]. apply negb_true_iff in Hrep.
    left. exists None, None, i, now1, now2. split.
    + apply lookup_lt_is_Some. exact (KEY_MAP_valid key i Hi).
    + rewrite Hk. unfold handleKeyDown. rewrite Hi, Hrep. reflexivity.
  - apply andb_true_iff in Hh as [Hk Hkey].
    apply bool_decide_eq_true in Hkey as [i Hi].
    right. exists (Some i), None. rewrite Hk. unfold handleKeyUp. rewrite Hi. reflexivity.
  - left. exists None, (Some (Some index)), index, now1, now2.
    split; [apply isKey_valid; exact Hh|]. rewrite Hh. reflexivity.
  - left. exists (Some (lastKeyPressed s)), (Some (Some index)), index, now1, now2.
    apply andb_true_iff in Hh as [Hkey Hb].
    split; [apply isKey_valid; exact Hkey|]. rewrite Hkey, Hb. reflexivity.
  - right. exists (Some index), (Some None). rewrite Hh. reflexivity.
  - apply bool_decide_eq_true in Hh as [i Hi].
    right. exists (Some i), (Some None). rewrite Hi. reflexivity.
Qed.

Lemma ArmedSince_no_trigger (s : State) :
  (∀ t, t ∈ timers s → callback t = CbTriggerAI → False) → ArmedSince (clock s) s.
Proof. intros H. split; [lia|]. intros t Ht Hcb. destruct (H t Ht Hcb). Qed.

Lemma ArmedSince_fields (since : Z) (s s' : State) :
  timers s' = timers s → clock s' = clock s → ArmedSince since s → ArmedSince since s'.
Proof. intros Ht Hc [H1 H2]. split; rewrite ?Ht, ?Hc; assumption. Qed.

(** After a note-off, pending inactivity timers date from that note-off. *)
Lemma quiet_after_release (index : option nat) (s : State) :
  Inv s → Calm s → ArmedSince (clock s) (releaseNote index s).
Proof.
  intros HI HC.
  pose proof (Calm_releaseNote index s HI HC) as HC'.
  pose proof (keeps_clock _ _ (keepsTurn_releaseNote index s)) as Hclk.
  split; [lia|]. intros t Ht Hcb.
  destruct (releaseNote_cases index s HI)
    as [[Hon Hs]|[(_ & _ & _ & Heq)|(_ & Hcase & Heq)]].
  - exfalso. rewrite Hs in Ht. destruct (HC t Ht Hcb) as (_ & Hf & _). congruence.
  - rewrite Heq in Ht. apply elem_of_app in Ht as [Ht|Ht].
    + exfalso. exact (no_trigger _ t (proj2 (clear_inactivity s HI)) Ht Hcb).
    + apply list_elem_of_singleton in Ht. subst t. cbn. lia.
  - exfalso. destruct (HC' t Ht Hcb) as (Ha & _). destruct Hcase as [Hne|Hoff].
    + contradiction.
    + rewrite Heq in Ht. exact (no_trigger s t (inv_disabled s HI Hoff) Ht Hcb).
Qed.

(** After a handled input event, pending inactivity timers date from it. *)
Lemma quiet_after_handled (e : Event) (s : State) :
  Inv s → Calm s → handled e s = true → ArmedSince (clock s) (step' e s).
Proof.
  intros HI HC Hh.
  destruct (handled_shape e s Hh)
    as [(release & last & i & n1 & n2 & [midi Hm] & ->)|(index & last & ->)];
    unfold humanStep.
  - set (s1 := match release with Some index => releaseNote index s | None => s end).
    assert (H1 : Inv s1 ∧ Calm s1 ∧ clock s1 = clock s).
    { subst s1. destruct release as [index|]; [|auto].
      split; [apply Inv_releaseNote; exact HI|].
      split; [apply Calm_releaseNote; assumption|].
      exact (keeps_clock _ _ (keepsTurn_releaseNote index s)). }
    clearbody s1. cbv zeta.
    set (s2 := match last with Some v => set_lastKeyPressed v s1 | None => s1 end).
    assert (H2 : Inv s2 ∧ Calm s2 ∧ clock s2 = clock s).
    { subst s2. destruct H1 as (HI1 & HC1 & Hc1). destruct last; [|auto].
      split; [apply Inv_set_lastKeyPressed; exact HI1|]. split; [exact HC1|exact Hc1]. }
    clearbody s2. destruct H2 as (HI2 & HC2 & Hc2).
    rewrite <- Hc2. destruct (isAIPlaying s2) eqn:Hp.
    + rewrite playNote_blocked by exact Hp. apply ArmedSince_no_trigger.
      intros t Ht Hcb. destruct (HC2 t Ht Hcb) as (_ & Hf & _). congruence.
    + pose proof (keeps_clock _ _ (keepsTurn_playNote i n1 n2 s2)) as Hclk.
      rewrite <- Hclk. apply ArmedSince_no_trigger. intros t.
      exact (no_trigger _ t (playNote_cancels i midi n1 n2 s2 HI2 Hp Hm)).
  - cbv zeta. pose proof (quiet_after_release index s HI HC) as Hq.
    destruct last; [|exact Hq].
    revert Hq. apply ArmedSince_fields; reflexivity.
Qed.

(** X6.  After an input event that reached its handler, no AI turn starts during
    the next 2000 ms, whatever happens in between. *)
Theorem reply_after_two_seconds_of_silence
    (e1 e2 : Event) (between : list Event) (s0 : State) :
  reachable' s0 → handled e1 s0 = true →
  triggerFires e2 (run' between (step' e1 s0)) →
  clock s0 + 2000 ≤ clock (run' between (step' e1 s0)).
Proof.
  intros Hr Hh (id & t & _ & E & Hcb & Hdue & _).
  pose proof (Inv_reachable _ s0 Hr) as HI.
  assert (Hr1 : reachable' (step' e1 s0)) by (constructor; exact Hr).
  assert (Hr2 : reachable' (run' between (step' e1 s0))) by (apply reachable_run; exact Hr1).
  pose proof (quiet_after_handled e1 s0 HI (Calm_reachable s0 Hr) Hh) as Hq.
  pose proof (ArmedSince_run _ between _ (Inv_reachable _ _ Hr1) Hq) as [_ Hsince].
  apply findTimer_Some in E as [Ht _].
  destruct (Calm_reachable _ Hr2 t Ht Hcb) as (_ & _ & Hd & _).
  specialize (Hsince t Ht Hcb). unfold dueTime in Hdue. rewrite Hd in Hdue.
  unfold INACTIVITY_THRESHOLD in Hdue. lia.
Qed.

(** ** Calls to the synthesiser *)

(** A call that names one of the 18 keys' notes, for the calls that are
    neither [triggerAttack] nor [triggerRelease]. *)
Definition otherCall (e : Effect) : Prop :=
  match e with
  | EffTriggerAttack _ | EffTriggerRelease _ => False
  | EffTriggerAttackRelease note _ | EffTriggerAttackRelease8n note =>
    ∃ name, note = Some name ∧ name ∈ NOTES
  | _ => True
  end.

(** What one handler call does to the synthesiser and to [activeNotes]:
    nothing that attacks or releases; or one attack, of a key that was not
    held, which is then held; or one release, of a key that was held, which
    is then free. *)
Inductive synthStep (s s' : State) : Prop :=
| SynthOther (new : list Effect) :
    effects s' = effects s ++ new → Forall otherCall new →
    activeNotes s' = activeNotes s → synthStep s s'
| SynthAttack (index : nat) (midi : Z) (name : string) :
    MIDI_NUMS !! index = Some midi → NOTES !! index = Some name →
    midi ∉ activeNotes s →
    effects s' = effects s ++ [EffTriggerAttack (Some name)] →
    activeNotes s' = activeNotes s ++ [midi] → synthStep s s'
| SynthRelease (index : nat) (midi : Z) (name : string) :
    MIDI_NUMS !! index = Some midi → NOTES !! index = Some name →
    midi ∈ activeNotes s →
    effects s' = effects s ++ [EffTriggerRelease (Some name)] →
    activeNotes s' = filter (λ k, k ≠ midi) (activeNotes s) → synthStep s s'.

Lemma synthStep_same (s s' : State) :
  effects s' = effects s → activeNotes s' = activeNotes s → synthStep s s'.
Proof.
  intros He Ha. apply (SynthOther s s' []); [rewrite app_nil_r; exact He|constructor|exact Ha].
Qed.

Lemma key_name (index : nat) (midi : Z) :
  MIDI_NUMS !! index = Some midi → ∃ name, NOTES !! index = Some name ∧ name ∈ NOTES.
Proof.
  intros Hm. apply MIDI_NUMS_lookup in Hm as [Hlt _].
  destruct (NOTES_lookup index Hlt) as [name Hn]. exists name. split; [exact Hn|].
  apply list_elem_of_lookup. eauto.
Qed.

Lemma synthStep_playNote (index : nat) (now1 now2 : Q) (s : State) :
  synthStep s (playNote index false now1 now2 s).
Proof.
  destruct (playNote_cases index now1 now2 s) as [->|(Hoff & midi & Hm)];
    [apply synthStep_same; reflexivity|].
  destruct (key_name index midi Hm) as (name & Hn & _).
  rewrite (playNote_eq index midi now1 now2 s Hoff Hm). cbv zeta.
  destruct (bool_decide (midi ∈ activeNotes s)) eqn:Hb.
  - apply synthStep_same; destruct (inactivityTimer s); reflexivity.
  - apply bool_decide_eq_false in Hb.
    apply (SynthAttack _ _ index midi name Hm Hn Hb);
      rewrite <- ?Hn; destruct (inactivityTimer s); reflexivity.
Qed.

Lemma synthStep_released (index : option nat) (s : State) :
  synthStep s (released index s).
Proof.
  unfold released. destruct index as [i|]; [|apply synthStep_same; reflexivity].
  cbn [mbind option_bind].
  destruct (MIDI_NUMS !! i) as [m|] eqn:Hm; [|apply synthStep_same; reflexivity].
  destruct (key_name i m Hm) as (name & Hn & _).
  destruct (bool_decide (m ∈ activeNotes s)) eqn:Hb; [|apply synthStep_same; reflexivity].
  apply bool_decide_eq_true in Hb.
  apply (SynthRelease _ _ i m name Hm Hn Hb); rewrite <- ?Hn; reflexivity.
Qed.

Lemma synthStep_fields (s s1 s' : State) :
  synthStep s s1 → effects s' = effects s1 → activeNotes s' = activeNotes s1 →
  synthStep s s'.
Proof.
  intros H He Ha. destruct H as [new H1 H2 H3|i m n H1 H2 H3 H4 H5|i m n H1 H2 H3 H4 H5].
  - apply (SynthOther _ _ new); congruence.
  - apply (SynthAttack _ _ i m n); congruence.
  - apply (SynthRelease _ _ i m n); congruence.
Qed.

Lemma synthStep_releaseNote (index : option nat) (s : State) :
  synthStep s (releaseNote index s).
Proof.
  destruct (isAIPlaying s) eqn:Hp.
  { rewrite releaseNote_blocked by exact Hp. apply synthStep_same; reflexivity. }
  rewrite (releaseNote_eq index s Hp). cbv zeta.
  destruct (rearm_fields (released index s)) as (Ha & _ & He & _).
  destruct (_ && _); [|apply synthStep_released].
  exact (synthStep_fields _ _ _ (synthStep_released index s) He Ha).
Qed.

Lemma synthStep_status (text : string) (s s' : State) :
  effects s' = effects s ++ [EffStatus text] → activeNotes s' = activeNotes s →
  synthStep s s'.
Proof.
  intros He Ha. apply (SynthOther _ _ [EffStatus text]); [exact He| |exact Ha].
  repeat constructor.
Qed.

Lemma synthStep_toggle (checked : bool) (s : State) :
  synthStep s (aiToggle_change checked s).
Proof.
  destruct checked.
  - rewrite aiToggle_change_on. eapply synthStep_status; reflexivity.
  - unfold aiToggle_change. cbn [negb aiEnabled set_aiEnabled].
    eapply synthStep_status; destruct s as [? ? ? [i|] ? ? ? ? ? ? ? ? ?]; reflexivity.
Qed.

Lemma synthStep_fire (t : Timer) (s : State) :
  Inv s → Calm s → t ∈ timers s →
  synthStep s (runCallback' (callback t) (clearTimeout (Some (timer_id t)) s)).
Proof.
  intros HI HC Ht. set (s0 := clearTimeout (Some (timer_id t)) s).
  destruct (callback t) as [|note d| |midi|midi] eqn:Hcb.
  - rewrite runCallback_trigger. destruct (HC t Ht Hcb) as (Ha & _).
    destruct (guardPasses s0) eqn:G.
    + apply guardPasses_iff in G as (Hon & Hne & Hoff).
      rewrite triggerAIResponse_pass by assumption.
      destruct (quantizeNoteSequence _ 4) as [q|]; rewrite turnEntry_eq.
      * apply (SynthOther _ _ [EffStatus "AI is listening and jamming back...";
                                EffContinueSequence q 50 (11 # 10)]).
        -- cbn. rewrite Ha. cbn. rewrite <- app_assoc. reflexivity.
        -- repeat constructor.
        -- cbn. rewrite Ha. reflexivity.
      * apply (SynthOther _ _ [EffStatus "AI is listening and jamming back...";
                                EffConsoleError;
                                EffStatus "AI encountered an error. Try again!"]).
        -- cbn. rewrite Ha. cbn. rewrite <- !app_assoc. reflexivity.
        -- repeat constructor.
        -- cbn. rewrite Ha. reflexivity.
    + apply guardPasses_false in G. rewrite triggerAIResponse_skip by exact G.
      apply synthStep_same; reflexivity.
  - rewrite runCallback_play.
    destruct (playGenerated_plays note d s0) as (m & index & _ & Hm & He).
    destruct (key_name index m Hm) as (name & Hn & Hin).
    apply (SynthOther _ _ [EffTriggerAttackRelease (NOTES !! index) d]).
    + exact He.
    + repeat constructor. exists name. auto.
    + exact (proj1 (playGenerated_fields note d s0)).
  - rewrite runCallback_reset. unfold resetTurn. cbv zeta.
    eapply synthStep_status; reflexivity.
  - apply synthStep_same; reflexivity.
  - apply synthStep_same; reflexivity.
Qed.

Lemma synthStep_resume (result : list GenNote) (s : State) :
  synthStep s (resumeWithResult result s).
Proof. rewrite resumeWithResult_eq. apply synthStep_same; reflexivity. Qed.

Lemma synthStep_reject (s : State) : synthStep s (resumeWithError s).
Proof.
  apply (SynthOther _ _ [EffConsoleError; EffStatus "AI encountered an error. Try again!"]).
  - cbn. rewrite <- app_assoc. reflexivity.
  - repeat constructor.
  - reflexivity.
Qed.

(** A rule for invariants about the synthesiser: what every [synthStep]
    keeps holds in every reachable state. *)
Lemma synth_invariant (P : State → Prop) :
  P initial → (∀ s s', synthStep s s' → P s → P s') → ∀ s, reachable' s → P s.
Proof.
  intros Hinit Hkeep s Hr.
  assert (H : Calm s ∧ P s); [|exact (proj2 H)].
  revert s Hr. apply invariant_reachable.
  { split; [intros t Ht; inversion Ht|exact Hinit]. }
  intros e s HI [HC HP]. split; [apply Calm_step; assumption|].
  revert e s HI HC HP.
  assert (Hrule : ∀ e s, Inv s → Calm s ∧ P s → Calm (step' e s) ∧ P (step' e s)).
  { apply invariant_rule.
    - intros s i n1 n2 HI [HC HP]. split; [apply Calm_playNote; assumption|].
      exact (Hkeep _ _ (synthStep_playNote i n1 n2 s) HP).
    - intros s i HI [HC HP]. split; [apply Calm_releaseNote; assumption|].
      exact (Hkeep _ _ (synthStep_releaseNote i s) HP).
    - intros s v HI [HC HP]. split; [exact HC|].
      apply (Hkeep s); [apply synthStep_same; reflexivity|exact HP].
    - intros s b HI [HC HP].
      split; [exact (Calm_step (EvToggleChange b) s HI HC)|].
      exact (Hkeep _ _ (synthStep_toggle b s) HP).
    - intros s t HI [HC HP] Ht Hdue. split; [apply Calm_fire; assumption|].
      exact (Hkeep _ _ (synthStep_fire t s HI HC Ht) HP).
    - intros s r HI [HC HP] Hw. split.
      + pose proof (Calm_step (EvModelResolve r) s HI HC) as H.
        cbn [step] in H. rewrite Hw in H. exact H.
      + exact (Hkeep _ _ (synthStep_resume r s) HP).
    - intros s HI [HC HP] Hw. split.
      + pose proof (Calm_step EvModelReject s HI HC) as H.
        cbn [step] in H. rewrite Hw in H. exact H.
      + exact (Hkeep _ _ (synthStep_reject s) HP).
    - intros s ms HI [HC HP]. split; [exact (Calm_step (EvElapse ms) s HI HC)|].
      apply (Hkeep s); [apply synthStep_same; reflexivity|exact HP]. }
  intros e s HI HC HP. exact (proj2 (Hrule e s HI (conj HC HP))).
Qed.

Definition isAttackOf (name : string) (e : Effect) : bool :=
  match e with EffTriggerAttack (Some n) => String.eqb n name | _ => false end.

Definition isReleaseOf (name : string) (e : Effect) : bool :=
  match e with EffTriggerRelease (Some n) => String.eqb n name | _ => false end.

(** [triggerAttack] and [triggerRelease] calls made so far for a note. *)
Definition attacks (name : string) (s : State) : nat :=
  length (filter (isAttackOf name) (effects s)).

Definition releases (name : string) (s : State) : nat :=
  length (filter (isReleaseOf name) (effects s)).

Definition heldNow (midi : Z) (s : State) : nat :=
  if bool_decide (midi ∈ activeNotes s) then 1%nat else 0%nat.

(** Each key has been attacked once more than released if it is held, and
    as often as released if not; no key is held twice. *)
Definition Balanced (s : State) : Prop :=
  NoDup (activeNotes s) ∧
  ∀ index midi name, MIDI_NUMS !! index = Some midi → NOTES !! index = Some name →
    attacks name s = (releases name s + heldNow midi s)%nat.

Lemma count_snoc (f : Effect → bool) (l : list Effect) (e : Effect) :
  length (filter f (l ++ [e])) = (length (filter f l) + if f e then 1 else 0)%nat.
Proof.
  rewrite filter_app, length_app. destruct (f e) eqn:E.
  - rewrite filter_cons_True by (rewrite E; exact I). reflexivity.
  - rewrite filter_cons_False by (rewrite E; exact id). reflexivity.
Qed.

Lemma count_other (f : Effect → bool) (l new : list Effect) :
  Forall (λ e, f e = false) new → length (filter f (l ++ new)) = length (filter f l).
Proof.
  intros H. rewrite filter_app, length_app.
  replace (filter f new) with (@nil Effect); [cbn; lia|].
  symmetry. apply filter_nil_iff. intros e He Hf.
  rewrite Forall_forall in H. rewrite (H e He) in Hf. exact Hf.
Qed.

Lemma otherCall_counts (name : string) (new : list Effect) :
  Forall otherCall new →
  Forall (λ e, isAttackOf name e = false) new ∧
  Forall (λ e, isReleaseOf name e = false) new.
Proof.
  intros H. split; eapply Forall_impl; try exact H;
    intros e He; destruct e; try reflexivity; destruct He.
Qed.

Lemma NOTES_NoDup : NoDup NOTES.
Proof. apply (bool_decide_unpack _). vm_compute. reflexivity. Qed.

Lemma NOTES_inj (i j : nat) (name : string) :
  NOTES !! i = Some name → NOTES !! j = Some name → i = j.
Proof. apply NoDup_lookup, NOTES_NoDup. Qed.

Lemma MIDI_NUMS_inj (i j : nat) (midi : Z) :
  MIDI_NUMS !! i = Some midi → MIDI_NUMS !! j = Some midi → i = j.
Proof.
  intros Hi Hj. apply MIDI_NUMS_lookup in Hi as [_ Hi].
  apply MIDI_NUMS_lookup in Hj as [_ Hj]. lia.
Qed.

Lemma MIDI_NUMS_fun (i : nat) (m1 m2 : Z) :
  MIDI_NUMS !! i = Some m1 → MIDI_NUMS !! i = Some m2 → m1 = m2.
Proof. congruence. Qed.

Lemma Balanced_synthStep (s s' : State) : synthStep s s' → Balanced s → Balanced s'.
Proof.
  intros Hstep [Hnd Hbal].
  destruct Hstep as [new He Hnew Ha|i0 m0 n0 Hm0 Hn0 Hout He Ha|i0 m0 n0 Hm0 Hn0 Hin He Ha].
  - split; [rewrite Ha; exact Hnd|]. intros i m name Hm Hn.
    destruct (otherCall_counts name new Hnew) as [H1 H2].
    unfold attacks, releases, heldNow. rewrite He, Ha, !count_other by assumption.
    exact (Hbal i m name Hm Hn).
  - split.
    { rewrite Ha. apply NoDup_app. split; [exact Hnd|]. split; [|apply NoDup_singleton].
      intros x Hx Hx'. apply list_elem_of_singleton in Hx'. subst x. contradiction. }
    intros i m name Hm Hn. specialize (Hbal i m name Hm Hn).
    unfold attacks, releases, heldNow in *. rewrite He, Ha, !count_snoc.
    cbn [isAttackOf isReleaseOf]. destruct (decide (i = i0)) as [->|Hne].
    + assert (m = m0) as -> by congruence. assert (name = n0) as -> by congruence.
      rewrite String.eqb_refl.
      rewrite bool_decide_eq_false_2 in Hbal by exact Hout.
      rewrite bool_decide_eq_true_2 by (apply elem_of_app; right; left). lia.
    + assert (Hname : String.eqb n0 name = false).
      { apply String.eqb_neq. intros ->. apply Hne. exact (NOTES_inj _ _ _ Hn Hn0). }
      rewrite Hname.
      assert (Hiff : m ∈ activeNotes s ++ [m0] ↔ m ∈ activeNotes s).
      { rewrite elem_of_app, list_elem_of_singleton. split; [|auto].
        intros [H|Heq]; [exact H|]. subst m. exfalso. apply Hne.
        exact (MIDI_NUMS_inj _ _ _ Hm Hm0). }
      rewrite (bool_decide_ext _ _ Hiff). lia.
  - split; [rewrite Ha; apply NoDup_filter; exact Hnd|].
    intros i m name Hm Hn. specialize (Hbal i m name Hm Hn).
    unfold attacks, releases, heldNow in *. rewrite He, Ha, !count_snoc.
    cbn [isAttackOf isReleaseOf]. destruct (decide (i = i0)) as [->|Hne].
    + assert (m = m0) as -> by congruence. assert (name = n0) as -> by congruence.
      rewrite String.eqb_refl.
      rewrite bool_decide_eq_true_2 in Hbal by exact Hin.
      rewrite bool_decide_eq_false_2; [lia|].
      intros H. apply list_elem_of_filter in H as [H _]. apply H. reflexivity.
    + assert (Hname : String.eqb n0 name = false).
      { apply String.eqb_neq. intros ->. apply Hne. exact (NOTES_inj _ _ _ Hn Hn0). }
      rewrite Hname.
      assert (Hiff : m ∈ filter (λ k, k ≠ m0) (activeNotes s) ↔ m ∈ activeNotes s).
      { rewrite list_elem_of_filter. split; [intros [_ H]; exact H|].
        intros H. split; [|exact H]. intros ->. apply Hne.
        exact (MIDI_NUMS_inj _ _ _ Hm Hm0). }
      rewrite (bool_decide_ext _ _ Hiff). lia.
Qed.

Lemma Balanced_reachable (s : State) : reachable' s → Balanced s.
Proof.
  apply synth_invariant; [|exact Balanced_synthStep].
  split; [constructor|]. intros i m name _ _. reflexivity.
Qed.

(** X7.  For every key, [triggerAttack] has been called once more than
    [triggerRelease] if the key is held and as often if it is not; so no
    sustained note is left sounding once its key is up, and none sounds
    during an AI turn. *)
Theorem sustained_notes_balance (index : nat) (midi : Z) (name : string) (s : State) :
  reachable' s → MIDI_NUMS !! index = Some midi → NOTES !! index = Some name →
  attacks name s = (releases name s + heldNow midi s)%nat ∧
  (midi ∉ activeNotes s → attacks name s = releases name s) ∧
  (isAIPlaying s = true → attacks name s = releases name s).
Proof.
  intros Hr Hm Hn. destruct (Balanced_reachable s Hr) as [_ Hbal].
  specialize (Hbal index midi name Hm Hn). split; [exact Hbal|].
  assert (Hfree : midi ∉ activeNotes s → attacks name s = releases name s).
  { intros Hout. unfold heldNow in Hbal.
    rewrite bool_decide_eq_false_2 in Hbal by exact Hout. lia. }
  split; [exact Hfree|]. intros Hon. apply Hfree.
  rewrite (inv_active s (Inv_reachable _ s Hr) Hon). intros H. inversion H.
Qed.




(** ** Highlight timers *)

(** [visualTimeouts] is the map of the pending highlight timers: a pending
    timer that clears key [m] is the one recorded for [m], and every
    recorded id is the id of a pending timer. *)
Definition Visual (s : State) : Prop :=
  (∀ t m, t ∈ timers s → callback t = CbVisualClear m →
     visualTimeouts s !! m = Some (timer_id t)) ∧
  (∀ m i, visualTimeouts s !! m = Some i → ∃ t, t ∈ timers s ∧ timer_id t = i).

Lemma Visual_keep (s s' : State) :
  Visual s → visualTimeouts s' = visualTimeouts s →
  (∀ t m, t ∈ timers s' → callback t = CbVisualClear m → t ∈ timers s) →
  (∀ t m, t ∈ timers s → callback t = CbVisualClear m → t ∈ timers s') →
  Inv s → Visual s'.
Proof.
  intros [H1 H2] Hv Hsub Hkeep HI. split.
  - intros t m Ht Hcb. rewrite Hv. apply H1; [eapply Hsub; eauto|exact Hcb].
  - intros m i Hm. rewrite Hv in Hm. destruct (H2 m i Hm) as (t & Ht & Hid).
    exists t. split; [|exact Hid]. apply (Hkeep t m Ht).
    exact (proj2 (inv_visual s HI m i Hm) t Ht Hid).
Qed.

Lemma clear_inactivity_keeps (t : Timer) (s : State) :
  Inv s → t ∈ timers s → callback t ≠ CbTriggerAI →
  t ∈ timers (clearTimeout (inactivityTimer s) s).
Proof.
  intros HI Ht Hcb. destruct (inactivityTimer s) as [i|] eqn:E; [|exact Ht].
  apply list_elem_of_filter. split; [|exact Ht].
  intros Hid. apply Hcb. apply (inv_trigger s HI t Ht). rewrite E, Hid. reflexivity.
Qed.

Lemma Visual_playNote (index : nat) (now1 now2 : Q) (s : State) :
  Inv s → Visual s → Visual (playNote index false now1 now2 s).
Proof.
  intros HI HV.
  destruct (playNote_cases index now1 now2 s) as [->|(Hoff & midi & Hm)]; [exact HV|].
  apply (Visual_keep s); [exact HV| | | |exact HI].
  - rewrite (playNote_eq index midi now1 now2 s Hoff Hm). cbv zeta.
    destruct (bool_decide _), (inactivityTimer s); reflexivity.
  - intros t m Ht _. rewrite (timers_playNote index midi now1 now2 s Hoff Hm) in Ht.
    exact (elem_clearTimeout _ t s Ht).
  - intros t m Ht Hcb. rewrite (timers_playNote index midi now1 now2 s Hoff Hm).
    apply clear_inactivity_keeps; [exact HI|exact Ht|]. rewrite Hcb. discriminate.
Qed.

Lemma Visual_releaseNote (index : option nat) (s : State) :
  Inv s → Visual s → Visual (releaseNote index s).
Proof.
  intros HI HV. apply (Visual_keep s); [exact HV| | | |exact HI].
  - exact (proj1 (proj2 (releaseNote_fields index s))).
  - intros t m Ht Hcb.
    destruct (releaseNote_cases index s HI) as [[_ Hs]|[(_ & _ & _ & Heq)|(_ & _ & Heq)]].
    + rewrite Hs in Ht. exact Ht.
    + rewrite Heq in Ht. apply elem_of_app in Ht as [Ht|Ht].
      * exact (elem_clearTimeout _ t s Ht).
      * apply list_elem_of_singleton in Ht. subst t. discriminate.
    + rewrite Heq in Ht. exact Ht.
  - intros t m Ht Hcb.
    destruct (releaseNote_cases index s HI) as [[_ Hs]|[(_ & _ & _ & Heq)|(_ & _ & Heq)]].
    + rewrite Hs. exact Ht.
    + rewrite Heq. apply elem_of_app. left.
      apply clear_inactivity_keeps; [exact HI|exact Ht|]. rewrite Hcb. discriminate.
    + rewrite Heq. exact Ht.
Qed.

Lemma Visual_toggle (checked : bool) (s : State) :
  Inv s → Visual s → Visual (aiToggle_change checked s).
Proof.
  intros HI HV. apply (Visual_keep s); [exact HV| | | |exact HI].
  - exact (proj1 (proj2 (toggle_fields checked s))).
  - intros t m Ht _. rewrite timers_toggle in Ht.
    destruct checked; [exact Ht|exact (elem_clearTimeout _ t s Ht)].
  - intros t m Ht Hcb. rewrite timers_toggle. destruct checked; [exact Ht|].
    apply clear_inactivity_keeps; [exact HI|exact Ht|]. rewrite Hcb. discriminate.
Qed.

Lemma visualTimeouts_triggerAIResponse (s : State) :
  visualTimeouts (triggerAIResponse' s) = visualTimeouts s.
Proof.
  destruct (guardPasses s) eqn:G.
  - apply guardPasses_iff in G as (Hon & Hne & Hoff).
    rewrite triggerAIResponse_pass by assumption.
    destruct (quantizeNoteSequence _ 4); rewrite turnEntry_eq; reflexivity.
  - apply guardPasses_false in G. rewrite triggerAIResponse_skip by exact G. reflexivity.
Qed.

Lemma Visual_fire (t0 : Timer) (s : State) :
  Inv s → Visual s → t0 ∈ timers s →
  Visual (runCallback' (callback t0) (clearTimeout (Some (timer_id t0)) s)).
Proof.
  intros HI HV Ht0. pose proof (clearTimeout_fired t0 s HI Ht0) as Hfired.
  set (s0 := clearTimeout (Some (timer_id t0)) s) in *.
  assert (Hother : ∀ s', visualTimeouts s' = visualTimeouts s → timers s' = timers s0 →
                         (∀ m, callback t0 ≠ CbVisualClear m) → Visual s').
  { intros s' Hv Ht Hcb0. apply (Visual_keep s); [exact HV|exact Hv| | |exact HI].
    - intros t m H _. rewrite Ht in H. exact (proj1 (proj1 (Hfired t) H)).
    - intros t m H Hcb. rewrite Ht. apply Hfired. split; [exact H|].
      intros ->. exact (Hcb0 m Hcb). }
  destruct HV as [H1 H2].
  destruct (callback t0) as [|note d| |midi0|midi0] eqn:Hcb0.
  - rewrite runCallback_trigger. apply Hother; [|apply timers_triggerAIResponse|discriminate].
    exact (visualTimeouts_triggerAIResponse s0).
  - rewrite runCallback_play.
    destruct (timers_playGenerated note d s0) as (midi & _ & Ht & Hv & _).
    change (visualTimeouts s0) with (visualTimeouts s) in *.
    change (nextTimerId s0) with (nextTimerId s) in *.
    split.
    + intros t m Hin Hcb. rewrite Ht in Hin. rewrite Hv.
      apply elem_of_app in Hin as [Hin|Hin].
      * assert (Hs0 : t ∈ timers s0) by exact (elem_clearTimeout _ t s0 Hin).
        pose proof (proj1 (proj1 (Hfired t) Hs0)) as Hs.
        pose proof (H1 t m Hs Hcb) as Hm.
        destruct (decide (midi = m)) as [->|Hne].
        -- exfalso. rewrite Hm in Hin. cbn in Hin.
           apply list_elem_of_filter in Hin as [Hid _]. apply Hid. reflexivity.
        -- rewrite lookup_insert_ne by exact Hne. exact Hm.
      * apply list_elem_of_singleton in Hin. subst t. injection Hcb as <-.
        rewrite lookup_insert_eq. reflexivity.
    + intros m i Hm. rewrite Hv in Hm. rewrite Ht.
      destruct (decide (midi = m)) as [->|Hne].
      * rewrite lookup_insert_eq in Hm. injection Hm as <-.
        eexists. split; [apply elem_of_app; right; left|reflexivity].
      * rewrite lookup_insert_ne in Hm by exact Hne.
        destruct (H2 m i Hm) as (t & Hin & Hid).
        pose proof (proj2 (inv_visual s HI m i Hm) t Hin Hid) as Hcb.
        exists t. split; [|exact Hid]. apply elem_of_app. left.
        assert (Hs0 : t ∈ timers s0).
        { apply Hfired. split; [exact Hin|]. intros ->. congruence. }
        destruct (visualTimeouts s !! midi) as [old|] eqn:Eold; [|exact Hs0].
        apply list_elem_of_filter. split; [|exact Hs0].
        intros Hold. pose proof (proj2 (inv_visual s HI midi old Eold) t Hin Hold).
        congruence.
  - rewrite runCallback_reset. apply Hother; [reflexivity|reflexivity|discriminate].
  - split.
    + intros t m Hin Hcb.
      pose proof (proj1 (Hfired t) Hin) as [Hs Hne].
      pose proof (H1 t m Hs Hcb) as Hm.
      change (visualTimeouts (runCallback' (CbVisualClear midi0) s0))
        with (delete midi0 (visualTimeouts s)).
      destruct (decide (midi0 = m)) as [->|Hmne].
      * exfalso. apply Hne. apply (inv_same_id s HI t t0 Hs Ht0).
        pose proof (H1 t0 m Ht0 Hcb0). congruence.
      * rewrite lookup_delete_ne by exact Hmne. exact Hm.
    + intros m i Hm.
      change (visualTimeouts (runCallback' (CbVisualClear midi0) s0))
        with (delete midi0 (visualTimeouts s)) in Hm.
      apply lookup_delete_Some in Hm as [Hmne Hm].
      destruct (H2 m i Hm) as (t & Hin & Hid).
      pose proof (proj2 (inv_visual s HI m i Hm) t Hin Hid) as Hcb.
      exists t. split; [|exact Hid].
      change (t ∈ timers s0). apply Hfired. split; [exact Hin|]. intros ->. congruence.
  - apply Hother; [reflexivity|reflexivity|discriminate].
Qed.

Lemma Visual_step (e : Event) (s : State) : Inv s → Visual s → Visual (step' e s).
Proof.
  revert e s. apply invariant_rule.
  - intros s i n1 n2. apply Visual_playNote.
  - intros s i. apply Visual_releaseNote.
  - intros s v _ H. exact H.
  - intros s b. apply Visual_toggle.
  - intros s t HI HV Ht _. apply Visual_fire; assumption.
  - intros s r HI HV _. rewrite resumeWithResult_eq.
    apply (Visual_keep s); [exact HV|reflexivity| | |exact HI].
    + intros t m Ht Hcb. cbn in Ht. apply elem_of_app in Ht as [Ht|Ht]; [exact Ht|].
      exfalso. apply elem_of_app in Ht as [Ht|Ht].
      * apply list_elem_of_lookup in Ht as [i Hi]. unfold playbackTimers in Hi.
        rewrite list_lookup_imap in Hi. destruct (r !! i); [|discriminate].
        injection Hi as <-. discriminate.
      * apply list_elem_of_singleton in Ht. subst t. discriminate.
    + intros t m Ht _. cbn. apply elem_of_app. left. exact Ht.
  - intros s _ HV _. exact HV.
  - intros s ms _ HV. exact HV.
Qed.

Lemma Visual_reachable (s : State) : reachable' s → Visual s.
Proof.
  apply invariant_reachable; [|apply Visual_step]. split.
  - intros t m Ht. inversion Ht.
  - intros m i Hm. unfold initial in Hm. cbn [visualTimeouts] in Hm.
    rewrite lookup_empty in Hm. discriminate.
Qed.

(** X9.  [visualTimeouts] holds exactly the pending highlight timers, one per key
    at most: playing a note on a key whose highlight is still pending
    replaces that timer. *)
Theorem one_highlight_timer_per_key (midi : Z) (s : State) :
  reachable' s →
  (∀ i, visualTimeouts s !! midi = Some i ↔
        ∃ t, t ∈ timers s ∧ timer_id t = i ∧ callback t = CbVisualClear midi) ∧
  (∀ t1 t2, t1 ∈ timers s → t2 ∈ timers s →
     callback t1 = CbVisualClear midi → callback t2 = CbVisualClear midi → t1 = t2).
Proof.
  intros Hr. pose proof (Inv_reachable _ s Hr) as HI.
  destruct (Visual_reachable s Hr) as [H1 H2]. split.
  - intros i. split.
    + intros Hm. destruct (H2 midi i Hm) as (t & Ht & Hid).
      exists t. split; [exact Ht|]. split; [exact Hid|].
      exact (proj2 (inv_visual s HI midi i Hm) t Ht Hid).
    + intros (t & Ht & <- & Hcb). exact (H1 t midi Ht Hcb).
  - intros t1 t2 Ht1 Ht2 Hc1 Hc2. apply (inv_same_id s HI t1 t2 Ht1 Ht2).
    pose proof (H1 t1 midi Ht1 Hc1). pose proof (H1 t2 midi Ht2 Hc2). congruence.
Qed.

(** ** The end of an AI turn *)

(** X10.  The keyboard listens exactly outside an AI turn.  During a turn either
    the model call is outstanding, or exactly one end-of-turn timer is
    pending; once that timer is due, running it gives the keyboard back and
    empties the buffer.  So a turn never leaves the keyboard switched off. *)
Theorem keyboard_returns_after_turn (s : State) :
  reachable' s →
  keyboardListening s = negb (isAIPlaying s) ∧
  (isAIPlaying s = true →
   (awaitingModel s = true ∧ resets (timers s) = []) ∨
   (awaitingModel s = false ∧ ∃ t, resets (timers s) = [t] ∧
      ∀ ms : N, dueTime t ≤ clock s + Z.of_N ms →
        let s' := run' [EvElapse ms; EvTimer (timer_id t)] s in
        isAIPlaying s' = false ∧ keyboardListening s' = true ∧ userNotes s' = [])).
Proof.
  intros Hr. pose proof (Inv_reachable _ s Hr) as HI.
  split; [exact (inv_keyboard s HI)|]. intros Hon.
  pose proof (inv_turn s HI) as Hturn. rewrite Hon in Hturn. unfold turnsInFlight in Hturn.
  destruct (awaitingModel s).
  - left. split; [reflexivity|]. destruct (resets (timers s)); [reflexivity|].
    cbn in Hturn. lia.
  - right. split; [reflexivity|].
    destruct (resets (timers s)) as [|t [|t' l]] eqn:E; cbn in Hturn; try lia.
    exists t. split; [reflexivity|]. intros ms Hdue.
    assert (Hin : t ∈ resets (timers s)) by (rewrite E; left).
    apply list_elem_of_filter in Hin as [Hcb Ht].
    set (s1 := step' (EvElapse ms) s).
    assert (HI1 : Inv s1) by (apply Inv_step; exact HI).
    destruct (fire_reset quantizeNoteSequence t s1 HI1 Ht Hcb Hdue) as (H1 & H2 & H3 & _).
    cbv zeta. change (run' [EvElapse ms; EvTimer (timer_id t)] s)
      with (step' (EvTimer (timer_id t)) s1).
    auto.
Qed.

(** ** The pitch mapping at the edges of the keyboard *)

Lemma closestMidi_least (p : Q) :
  ∃ m, closestMidi p = Some m ∧ 60 ≤ m ≤ 77 ∧
       ∀ k, 60 ≤ k ≤ 77 → (dist m p <= dist k p)%Q.
Proof.
  destruct (closestIn_total MIDI_NUMS p) as [m Hm]; [discriminate|].
  destruct (closestIn_firstClosest _ _ _ Hm) as (i & Hi & Hmin).
  exists m. split; [exact Hm|]. split.
  - apply MIDI_NUMS_elem, list_elem_of_lookup. exists i. exact Hi.
  - intros k Hk. apply MIDI_NUMS_elem, list_elem_of_lookup in Hk as [j Hj].
    exact (proj1 (Hmin j k Hj)).
Qed.

Lemma dist_bounds (m : Z) (p : Q) :
  (inject_Z m - p <= dist m p)%Q ∧ (p - inject_Z m <= dist m p)%Q.
Proof.
  split; [apply Qle_Qabs|].
  pose proof (Qle_Qabs (- (inject_Z m - p))) as H. rewrite Qabs_opp in H.
  unfold dist. lra.
Qed.

Lemma dist_zero (k : Z) (p : Q) : (p == inject_Z k)%Q → (dist k p == 0)%Q.
Proof. intros Hp. unfold dist. rewrite Qabs_pos; lra. Qed.

(** X11.  The pitch mapping never leaves the keyboard: a generated pitch at or
    below 60 is played as 60, one at or above 77 as 77, and a pitch that is
    a key's own pitch is played on that key. *)
Theorem pitch_mapping_clamps_and_fixes (p : Q) :
  ∃ m, closestMidi p = Some m ∧ 60 ≤ m ≤ 77 ∧
    ((p <= inject_Z 60)%Q → m = 60) ∧ ((inject_Z 77 <= p)%Q → m = 77) ∧
    (∀ k, 60 ≤ k ≤ 77 → (p == inject_Z k)%Q → m = k).
Proof.
  destruct (closestMidi_least p) as (m & Hm & Hrange & Hle).
  destruct (dist_bounds m p) as [Hup Hdown].
  exists m. split; [exact Hm|]. split; [exact Hrange|]. split; [|split].
  - intros Hp. specialize (Hle 60 ltac:(lia)).
    assert (Hd : (dist 60 p == inject_Z 60 - p)%Q) by (apply Qabs_pos; lra).
    assert (Hq : (inject_Z m <= inject_Z 60)%Q) by lra.
    rewrite <- Zle_Qle in Hq. lia.
  - intros Hp. specialize (Hle 77 ltac:(lia)).
    assert (Hd : (dist 77 p == p - inject_Z 77)%Q).
    { unfold dist. rewrite <- Qabs_opp. rewrite Qabs_pos; lra. }
    assert (Hq : (inject_Z 77 <= inject_Z m)%Q) by lra.
    rewrite <- Zle_Qle in Hq. lia.
  - intros k Hk Hp. specialize (Hle k Hk).
    pose proof (dist_zero k p Hp) as Hd.
    assert (Hq1 : (inject_Z m <= inject_Z k)%Q) by lra.
    assert (Hq2 : (inject_Z k <= inject_Z m)%Q) by lra.
    rewrite <- Zle_Qle in Hq1, Hq2. lia.
Qed.

(** X12.  A generated note whose pitch is the pitch of key [index] is played on
    that very key: [indexOf] finds the key the pitch came from, and the
    [index !== -1] guard never skips a note. *)
Theorem echoed_pitch_plays_same_key
    (index : nat) (midi : Z) (note : GenNote) (d : Q) (s : State) :
  MIDI_NUMS !! index = Some midi → (gen_pitch note == inject_Z midi)%Q →
  playGenerated note d s = playNoteWithDuration index d s ∧
  effects (playGenerated note d s) =
    effects s ++ [EffTriggerAttackRelease (NOTES !! index) d].
Proof.
  intros Hm Hp.
  destruct (closestMidi_least (gen_pitch note)) as (m & Hc & _ & Hle).
  assert (Hk : 60 ≤ midi ≤ 77).
  { apply MIDI_NUMS_elem, list_elem_of_lookup. exists index. exact Hm. }
  assert (Heqm : m = midi).
  { specialize (Hle midi Hk). pose proof (dist_zero midi _ Hp) as Hd.
    destruct (dist_bounds m (gen_pitch note)) as [Hup Hdown].
    assert (Hq1 : (inject_Z m <= inject_Z midi)%Q) by lra.
    assert (Hq2 : (inject_Z midi <= inject_Z m)%Q) by lra.
    rewrite <- Zle_Qle in Hq1, Hq2. lia. }
  subst m.
  assert (Heq : playGenerated note d s = playNoteWithDuration index d s).
  { unfold playGenerated. rewrite Hc, (indexOf_MIDI_NUMS index midi Hm). reflexivity. }
  split; [exact Heq|]. rewrite Heq. apply effects_playNoteWithDuration.
Qed.

End MoreProperties.

(** * The properties above on the example session *)

(** The first note of the answer [twoNotes] has just been played by the AI:
    its key is lit for 500 ms. *)
Definition firstNotePlayed : @State (list (Z * Z * Z)) :=
  run exampleQuantizer [EvModelResolve twoNotes; EvTimer 2] awaitingAnswer.


Lemma human_input_ignored_during_ai_turn_witness :
  let e := EvKeyDown "d" false 3%Q 3%Q in
  reachable exampleQuantizer awaitingAnswer ∧ isAIPlaying awaitingAnswer = true ∧
  isHuman e = true ∧ step exampleQuantizer e awaitingAnswer = awaitingAnswer.
Proof.
  intros e.
  assert (Hr : reachable exampleQuantizer awaitingAnswer)
    by (apply reachable_run, reachable_initial).
  assert (Hon : isAIPlaying awaitingAnswer = true) by (vm_compute; reflexivity).
  destruct (human_input_ignored_during_ai_turn exampleQuantizer e awaitingAnswer
              Hr Hon eq_refl) as (_ & Hkey & _).
  split; [exact Hr|]. split; [exact Hon|]. split; [reflexivity|].
  exact (Hkey "d"%string false 3%Q 3%Q eq_refl).
Defined.

Lemma inactivity_timer_means_idle_witness :
  let t := {| timer_id := 2; armedAt := 0; delay := 2000; callback := CbTriggerAI |} in
  reachable exampleQuantizer timerDue ∧ t ∈ timers timerDue ∧
  callback t = CbTriggerAI ∧
  activeNotes timerDue = [] ∧ isAIPlaying timerDue = false ∧
  awaitingModel timerDue = false ∧ triggers (timers timerDue) = [t] ∧
  inactivityTimer timerDue = Some 2%nat.
Proof.
  intros t.
  assert (Hr : reachable exampleQuantizer timerDue)
    by (apply reachable_run, reachable_initial).
  assert (Ht : t ∈ timers timerDue).
  { apply list_elem_of_lookup. exists 0%nat. vm_compute. reflexivity. }
  destruct (inactivity_timer_means_idle exampleQuantizer t timerDue Hr Ht eq_refl)
    as (H1 & H2 & H3 & _ & _ & H4 & H5).
  split; [exact Hr|]. split; [exact Ht|]. split; [reflexivity|].
  split; [exact H1|]. split; [exact H2|]. split; [exact H3|]. split; [exact H4|].
  exact H5.
Defined.

Lemma reply_cuts_no_held_note_witness :
  reachable exampleQuantizer timerDue ∧ triggerFires (EvTimer 2) timerDue ∧
  exampleQuantizer (unquantizedSequence (userNotes timerDue)) 4
    = Some [(60, 0, 4); (64, 4, 8)] ∧
  activeNotes timerDue = [] ∧
  effects (step exampleQuantizer (EvTimer 2) timerDue) =
    effects timerDue ++
    [EffStatus "AI is listening and jamming back...";
     EffContinueSequence [(60, 0, 4); (64, 4, 8)] 50 (11 # 10)].
Proof.
  assert (Hr : reachable exampleQuantizer timerDue)
    by (apply reachable_run, reachable_initial).
  assert (Hf : triggerFires (EvTimer 2) timerDue).
  { exists 2%nat, {| timer_id := 2; armedAt := 0; delay := 2000;
                    callback := CbTriggerAI |}.
    split; [reflexivity|]. split; [vm_compute; reflexivity|].
    split; [reflexivity|]. split; [vm_compute; discriminate|].
    split; [vm_compute; reflexivity|]. split; [vm_compute; discriminate|].
    vm_compute. reflexivity. }
  assert (Hq : exampleQuantizer (unquantizedSequence (userNotes timerDue)) 4
               = Some [(60, 0, 4); (64, 4, 8)]) by (vm_compute; reflexivity).
  destruct (reply_cuts_no_held_note exampleQuantizer (EvTimer 2) timerDue _ Hr Hf Hq)
    as (Hnone & Heff & _).
  split; [exact Hr|]. split; [exact Hf|]. split; [exact Hq|].
  split; [exact Hnone|]. exact Heff.
Defined.

Lemma reply_after_two_seconds_of_silence_witness :
  let e1 := EvKeyDown "a" false 0%Q 0%Q in
  let between := [EvKeyUp "a"; EvElapse 2000] in
  let s0 : @State (list (Z * Z * Z)) := initial in
  let s := run exampleQuantizer between (step exampleQuantizer e1 s0) in
  reachable exampleQuantizer s0 ∧ handled e1 s0 = true ∧
  triggerFires (EvTimer 1) s ∧ clock s0 + 2000 ≤ clock s.
Proof.
  intros e1 between s0 s.
  assert (Hr : reachable exampleQuantizer s0) by apply reachable_initial.
  assert (Hh : handled e1 s0 = true) by (vm_compute; reflexivity).
  assert (Hf : triggerFires (EvTimer 1) s).
  { exists 1%nat, {| timer_id := 1; armedAt := 0; delay := 2000;
                    callback := CbTriggerAI |}.
    split; [reflexivity|]. split; [vm_compute; reflexivity|].
    split; [reflexivity|]. split; [vm_compute; discriminate|].
    split; [vm_compute; reflexivity|]. split; [vm_compute; discriminate|].
    vm_compute. reflexivity. }
  split; [exact Hr|]. split; [exact Hh|]. split; [exact Hf|].
  exact (reply_after_two_seconds_of_silence exampleQuantizer e1 (EvTimer 1)
           between s0 Hr Hh Hf).
Defined.

Lemma sustained_notes_balance_witness :
  reachable exampleQuantizer heldWithEmptyBuffer ∧
  MIDI_NUMS !! 0%nat = Some 60 ∧ NOTES !! 0%nat = Some "C4"%string ∧
  heldNow 60 heldWithEmptyBuffer = 1%nat ∧
  attacks "C4" heldWithEmptyBuffer =
    (releases "C4" heldWithEmptyBuffer + heldNow 60 heldWithEmptyBuffer)%nat.
Proof.
  assert (Hr : reachable exampleQuantizer heldWithEmptyBuffer)
    by (apply reachable_run, reachable_initial).
  split; [exact Hr|]. split; [reflexivity|]. split; [reflexivity|].
  split; [vm_compute; reflexivity|].
  exact (proj1 (sustained_notes_balance exampleQuantizer 0 60 "C4"
                  heldWithEmptyBuffer Hr eq_refl eq_refl)).
Defined.


Lemma one_highlight_timer_per_key_witness :
  reachable exampleQuantizer firstNotePlayed ∧
  visualTimeouts firstNotePlayed !! 62 = Some 5%nat ∧
  ∃ t, t ∈ timers firstNotePlayed ∧ timer_id t = 5%nat ∧
       callback t = CbVisualClear 62.
Proof.
  assert (Hr : reachable exampleQuantizer firstNotePlayed)
    by (apply reachable_run, reachable_run, reachable_initial).
  assert (Hv : visualTimeouts firstNotePlayed !! 62 = Some 5%nat)
    by (vm_compute; reflexivity).
  split; [exact Hr|]. split; [exact Hv|].
  exact (proj1 (proj1 (one_highlight_timer_per_key exampleQuantizer 62
                         firstNotePlayed Hr) 5%nat) Hv).
Defined.

Lemma keyboard_returns_after_turn_witness :
  let s := step exampleQuantizer (EvModelResolve twoNotes) awaitingAnswer in
  reachable exampleQuantizer s ∧ isAIPlaying s = true ∧
  keyboardListening s = false ∧
  isAIPlaying (run exampleQuantizer [EvElapse 1500; EvTimer 4] s) = false ∧
  keyboardListening (run exampleQuantizer [EvElapse 1500; EvTimer 4] s) = true.
Proof.
  intros s.
  assert (Hr : reachable exampleQuantizer s)
    by (apply reachable_step, reachable_run, reachable_initial).
  assert (Hon : isAIPlaying s = true) by (vm_compute; reflexivity).
  destruct (keyboard_returns_after_turn exampleQuantizer s Hr) as [Hk _].
  split; [exact Hr|]. split; [exact Hon|].
  split; [rewrite Hk, Hon; reflexivity|].
  split; vm_compute; reflexivity.
Defined.

Lemma echoed_pitch_plays_same_key_witness :
  let note := {| gen_pitch := inject_Z 65; quantizedStartStep := 4;
                 quantizedEndStep := 8 |} in
  MIDI_NUMS !! 5%nat = Some 65 ∧ (gen_pitch note == inject_Z 65)%Q ∧
  playGenerated note (1 # 2) firstNotePlayed =
    playNoteWithDuration 5 (1 # 2) firstNotePlayed ∧
  effects (playGenerated note (1 # 2) firstNotePlayed) =
    effects firstNotePlayed ++ [EffTriggerAttackRelease (Some "F4"%string) (1 # 2)].
Proof.
  intros note.
  assert (Hm : MIDI_NUMS !! 5%nat = Some 65) by reflexivity.
  assert (Hp : (gen_pitch note == inject_Z 65)%Q) by apply Qeq_refl.
  destruct (echoed_pitch_plays_same_key 5 65 note (1 # 2) firstNotePlayed Hm Hp)
    as [Heq Heff].
  split; [exact Hm|]. split; [exact Hp|]. split; [exact Heq|]. exact Heff.
Defined.
